(** * Toronto bike-share ETL ([load_tbs.py]): model and properties

    The script is a linear pipeline over two pieces of external state, the
    working directory [data/] and a DuckDB connection:
    [download_data] (HTTP fetch, unzip, year-specific fix-ups),
    [load_data] (DDL plus an anti-join [INSERT ... SELECT]),
    [remove_csv] (recursive delete) and [export_as_parquet] ([COPY ... TO]).

    The embedding threads one [world] value (file system, database catalog,
    the remote portal, and a trace of log records and HTTP requests) through
    a state-and-exception monad.  Python exceptions do not roll the world
    back, so a raised exception carries the world reached so far. *)

From Stdlib Require Import ZArith Lia Ascii.
From stdpp Require Import base option list strings gmap pretty sorting.

#[local] Set Warnings "-register-all".

Local Open Scope Z_scope.

(** ** Trip records

    The eleven columns of [tbs_trips].  No column is declared [NOT NULL], so
    every field is nullable.  [INTEGER] values are kept as unbounded [Z] and
    [TIMESTAMP] values as a number of microseconds. *)

Inductive user := Casual_Member | Annual_Member.
Inductive bike := EFIT_G5 | ICONIC | EFIT.

Record Row := {
  Trip_Id : option Z;
  Trip_Duration : option Z;
  Start_Station_Id : option Z;
  Start_Time : option Z;
  Start_Station_Name : option string;
  End_Station_Id : option Z;
  End_Time : option Z;
  End_Station_Name : option string;
  Bike_Id : option Z;
  User_Type : option user;
  Model : option bike
}.

(** ** File contents

    Byte strings are abstracted by what the libraries make of them: a text
    file is the list of its data lines, each one either read as a row by
    the lenient CSV reader ([ignore_errors=true], columns matched by name,
    missing columns null) or rejected; a zip archive is its list of members
    in archive order; a parquet file is its codec, compression level and the rows it
    stores, in file order. *)

Inductive content :=
  | Csv (lines : list (option Row))
  | Zip (members : list (string * content))
  | Parquet (codec : string) (compression_level : Z) (rows : list Row).

(** A zip member is a file name (components separated by [/]) and its data;
    as in [zipfile], a member is a directory when its name ends with [/]. *)
Abbreviation member := (string * content)%type.

Abbreviation path := (list string).

Inductive node := F (c : content) | D.

(** ** Database catalog *)

(** The user-defined types (name and enumeration labels) and the one table,
    absent until created; its rows are kept in insertion order. *)
Record database := {
  types : gmap string (list string);
  tbs_trips : option (list Row)
}.

(** ** The portal, the trace and the world *)

Inductive response :=
  | Unreachable
  | Response (status_code : Z) (body : content).

Inductive level := DEBUG | INFO.

Inductive event :=
  | Log (lvl : level) (msg : string)
  | HttpGet (url : string) (timeout : Z).

(** The database is a component of its own.  The script's connection is
    to the file [data/tbs.db]; that file is not an entry of [fs], so what
    is stated of [fs] says nothing of the database file, and an operation
    on the files that would reach it (an archive member of that name) has
    no effect on [db] here. *)
Record world := {
  fs : gmap path node;
  db : database;
  remote : string → response;
  trace : list event
}.

Definition set_fs (f : gmap path node) (w : world) : world :=
  {| fs := f; db := db w; remote := remote w; trace := trace w |}.
Definition set_db (d : database) (w : world) : world :=
  {| fs := fs w; db := d; remote := remote w; trace := trace w |}.
Definition emit (e : event) (w : world) : world :=
  {| fs := fs w; db := db w; remote := remote w; trace := trace w ++ [e] |}.

(** ** Exceptions and the monad *)

Inductive exn :=
  | RequestException      (* requests: connection error or timeout *)
  | BadZipFile
  | FileNotFoundError
  | IsADirectoryError
  | NotADirectoryError
  | FileExistsError
  | DirectoryNotEmpty     (* OSError ENOTEMPTY *)
  | InvalidArgument       (* OSError EINVAL *)
  | CatalogException
  | IOException
  | RecursionError.       (* depth limit of a walk reached *)

Inductive result (A : Type) :=
  | Ok (a : A) (w : world)
  | Raise (e : exn) (w : world).
Arguments Ok {A} a w.
Arguments Raise {A} e w.

Definition M (A : Type) : Type := world → result A.

Global Instance exn_eq_dec : EqDecision exn.
Proof. solve_decision. Defined.

Definition ret {A} (a : A) : M A := λ w, Ok a w.
Definition raise {A} (e : exn) : M A := λ w, Raise e w.
Definition bind {A B} (m : M A) (k : A → M B) : M B :=
  λ w, match m w with
       | Ok a w' => k a w'
       | Raise e w' => Raise e w'
       end.

Global Instance M_ret : MRet M := @ret.
Global Instance M_bind : MBind M := λ A B k m, bind m k.

(** [for x in xs: body x] *)
Fixpoint for_each {A} (xs : list A) (body : A → M unit) : M unit :=
  match xs with
  | [] => ret tt
  | x :: xs' => body x ;; for_each xs' body
  end.

(** [try: m  except E: h] *)
Definition try_except (m : M unit) (E : exn) (h : M unit) : M unit :=
  λ w, match m w with
       | Ok a w' => Ok a w'
       | Raise e w' => if decide (e = E) then h w' else Raise e w'
       end.

Definition log (lvl : level) (msg : string) : M unit :=
  λ w, Ok tt (emit (Log lvl msg) w).

(** ** Strings: path splitting, suffixes, glob *)

Fixpoint split_slash (s : string) : list string :=
  match s with
  | EmptyString => [EmptyString]
  | String c s' =>
      if Ascii.eqb c "/"%char then EmptyString :: split_slash s'
      else match split_slash s' with
           | x :: xs => String c x :: xs
           | [] => [String c EmptyString]
           end
  end.

(** [pathlib.Path(s)] for a relative path: empty and [.] components drop. *)
Definition Path (s : string) : path :=
  filter (λ c : string, c ∉ [EmptyString; "."%string]) (split_slash s).

Definition ends_with (suf s : string) : bool :=
  String.prefix (String.rev suf) (String.rev s).

(** [str.rfind('.')] *)
Fixpoint rfind_dot (s : string) (i : nat) (best : option nat) : option nat :=
  match s with
  | EmptyString => best
  | String c s' =>
      rfind_dot s' (S i) (if Ascii.eqb c "."%char then Some i else best)
  end.

(** [PurePath.suffix]: the part of the final component from its last dot,
    provided the dot is neither the first nor the last character. *)
Definition suffix (name : string) : string :=
  match rfind_dot name 0 None with
  | Some i =>
      if ((0 <? i) && (i <? String.length name - 1))%nat
      then String.substring i (String.length name - i) name
      else EmptyString
  | None => EmptyString
  end.

(** The glob [Bike share ridership 202*.csv]: [*] stands for any run of
    characters inside one file name. *)
Definition glob_prefix : string := "Bike share ridership 202".
Definition glob_suffix : string := ".csv".
Definition glob_match (name : string) : bool :=
  String.prefix glob_prefix name && ends_with glob_suffix name
  && (String.length glob_prefix + String.length glob_suffix <=? String.length name)%nat.

(** ** The file system

    A finite map from paths (component lists relative to the process's
    working directory, itself the empty path) to nodes. *)

Fixpoint drop_prefix (pre p : path) : option path :=
  match pre, p with
  | [], _ => Some p
  | x :: pre', y :: p' => if decide (x = y) then drop_prefix pre' p' else None
  | _ :: _, [] => None
  end.

Definition child_name (top p : path) : option string :=
  match drop_prefix top p with
  | Some [x] => Some x
  | _ => None
  end.

(** [os.scandir(top)]: the entries directly inside [top]. *)
Definition listdir (f : gmap path node) (top : path) : list (string * node) :=
  omap (λ e : path * node, (λ x, (x, e.2)) <$> child_name top e.1) (map_to_list f).

Definition is_D (n : node) : bool := match n with D => true | F _ => false end.

Definition subdirs (f : gmap path node) (top : path) : list string :=
  (filter (λ e, is_D e.2) (listdir f top)).*1.
Definition nondirs (f : gmap path node) (top : path) : list string :=
  (filter (λ e, negb (is_D e.2)) (listdir f top)).*1.

Definition parent (p : path) : path := removelast p.

(** [os.makedirs(p, exist_ok=True)]: every missing prefix of [p] becomes a
    directory; a prefix that is a file stops it. *)
Fixpoint makedirs_from (pre rest : path) (f : gmap path node)
  : exn + gmap path node :=
  match f !! pre with
  | Some (F _) => inl NotADirectoryError
  | o =>
      let f' := match o with None => <[pre := D]> f | _ => f end in
      match rest with
      | [] => inr f'
      | c :: rest' => makedirs_from (pre ++ [c]) rest' f'
      end
  end.
Definition makedirs (p : path) (f : gmap path node) : exn + gmap path node :=
  makedirs_from [] p f.

(** [open(p, "wb")] followed by writing [c]. *)
Definition write_file (p : path) (c : content) (f : gmap path node)
  : exn + gmap path node :=
  match f !! parent p with
  | Some D =>
      match f !! p with
      | Some D => inl IsADirectoryError
      | _ => inr (<[p := F c]> f)
      end
  | Some (F _) => inl NotADirectoryError
  | None => inl FileNotFoundError
  end.

(** [os.mkdir(p)] guarded by [if not os.path.isdir(p)], as [zipfile] does
    for directory members. *)
Definition mkdir_if_absent (p : path) (f : gmap path node)
  : exn + gmap path node :=
  match f !! p with
  | Some D => inr f
  | Some (F _) => inl FileExistsError
  | None => inr (<[p := D]> f)
  end.

(** [Path.unlink] / [os.remove] *)
Definition unlink_fs (p : path) (f : gmap path node) : exn + gmap path node :=
  match f !! p with
  | Some (F _) => inr (delete p f)
  | Some D => inl IsADirectoryError
  | None => inl FileNotFoundError
  end.

(** [Path.rmdir] *)
Definition rmdir_fs (p : path) (f : gmap path node) : exn + gmap path node :=
  match f !! p with
  | Some D =>
      match listdir f p with
      | [] => inr (delete p f)
      | _ :: _ => inl DirectoryNotEmpty
      end
  | Some (F _) => inl NotADirectoryError
  | None => inl FileNotFoundError
  end.

(** Moving the subtree at [src] to [dst] (directory rename). *)
Definition move_tree (src dst : path) (f : gmap path node) : gmap path node :=
  list_to_map
    ((λ e : path * node,
        (match drop_prefix src e.1 with
         | Some r => dst ++ r
         | None => e.1
         end, e.2)) <$> map_to_list f).

(** [Path.rename] / [os.rename] (POSIX [rename(2)]): a file replaces an
    existing file silently; a directory may only replace an empty one. *)
Definition rename_fs (src dst : path) (f : gmap path node)
  : exn + gmap path node :=
  match f !! src with
  | None => inl FileNotFoundError
  | Some (F c) =>
      match f !! parent dst with
      | Some D =>
          match f !! dst with
          | Some D => inl IsADirectoryError
          | _ => inr (<[dst := F c]> (delete src f))
          end
      | Some (F _) => inl NotADirectoryError
      | None => inl FileNotFoundError
      end
  | Some D =>
      if decide (src = dst) then inr f
      else if bool_decide (is_Some (drop_prefix src dst)) then inl InvalidArgument
      else match f !! parent dst with
           | Some D =>
               match f !! dst with
               | Some (F _) => inl NotADirectoryError
               | Some D =>
                   match listdir f dst with
                   | [] => inr (move_tree src dst f)
                   | _ :: _ => inl DirectoryNotEmpty
                   end
               | None => inr (move_tree src dst f)
               end
           | Some (F _) => inl NotADirectoryError
           | None => inl FileNotFoundError
           end
  end.

Definition lift_fs (op : gmap path node → exn + gmap path node) : M unit :=
  λ w, match op (fs w) with
       | inl e => Raise e w
       | inr f' => Ok tt (set_fs f' w)
       end.

Definition unlink (p : path) : M unit := lift_fs (unlink_fs p).
Definition rmdir (p : path) : M unit := lift_fs (rmdir_fs p).
Definition rename (src dst : path) : M unit := lift_fs (rename_fs src dst).

(** [Path.is_file] *)
Definition is_file (p : path) : M bool :=
  λ w, Ok (match fs w !! p with Some (F _) => true | _ => false end) w.

(** ** [os.walk]

    Top-down walk with [onerror=None]: a directory that cannot be listed
    is skipped silently; otherwise the loop body runs on
    [(top, dirs, files)] and only then is each sub-directory listed at that
    moment walked in turn.  The recursion carries a depth limit, which
    [os_walk] takes from the longest path present when the walk starts. *)
Fixpoint walk (depth : nat) (top : path)
    (body : path → list string → list string → M unit) : M unit :=
  λ w, match fs w !! top with
       | Some D =>
           match depth with
           | O => Raise RecursionError w
           | S n =>
               let dirs := subdirs (fs w) top in
               let files := nondirs (fs w) top in
               (body top dirs files ;;
                for_each dirs (λ d, walk n (top ++ [d]) body)) w
           end
       | _ => Ok tt w
       end.

Definition depth_bound (f : gmap path node) : nat :=
  S (max_list (length <$> (map_to_list f).*1)).

Definition os_walk (top : path)
    (body : path → list string → list string → M unit) : M unit :=
  λ w, walk (depth_bound (fs w)) top body w.

(** ** [zipfile] *)

Definition invalid_path_parts : list string := [EmptyString; "."; ".."]%string.

(** Where a member lands below the extraction directory. *)
Definition arcname (name : string) : path :=
  filter (λ c : string, c ∉ invalid_path_parts) (split_slash name).

Definition is_dir_member (name : string) : bool := ends_with "/" name.

Definition extract_member_fs (dest : path) (m : member) (f : gmap path node)
  : exn + gmap path node :=
  let target := dest ++ arcname m.1 in
  match makedirs (parent target) f with
  | inl e => inl e
  | inr f1 =>
      if is_dir_member m.1 then mkdir_if_absent target f1
      else write_file target m.2 f1
  end.

(** [ZipFile.extractall(dest)] *)
Definition extractall (members : list member) (dest : path) : M unit :=
  for_each members (λ m, lift_fs (extract_member_fs dest m)).

(** [ZipFile(io.BytesIO(content))] *)
Definition ZipFile_bytes (c : content) : M (list member) :=
  match c with
  | Zip ms => ret ms
  | _ => raise BadZipFile
  end.

(** [ZipFile(path)] *)
Definition ZipFile_open (p : path) : M (list member) :=
  λ w, match fs w !! p with
       | Some (F c) => ZipFile_bytes c w
       | Some D => Raise IsADirectoryError w
       | None => Raise FileNotFoundError w
       end.

(** ** [requests.get] *)

Inductive http_response := HttpResponse (status : Z) (content_ : content).

Definition requests_get (url : string) (timeout : Z) : M http_response :=
  λ w, let w' := emit (HttpGet url timeout) w in
       match remote w url with
       | Unreachable => Raise RequestException w'
       | Response st b => Ok (HttpResponse st b) w'
       end.

Definition r_content (r : http_response) : content :=
  match r with HttpResponse _ c => c end.

(** ** Module constants *)

Definition BASE_URL : string :=
  "https://ckan0.cf.opendata.inter.prod-toronto.ca/dataset/7e876c24-177c-4605-9cef-e50dd74c617f/resource".

Definition YEAR_MAP : list (Z * string) :=
  [ (2021, "ddc039f6-07fa-47a3-a707-0121ade3b307");
    (2022, "db10a7b1-2702-481c-b7f0-0c67070104bb");
    (2023, "f0fa6a67-4571-4dd6-9d5a-df010ebed7d1");
    (2024, "9a9a0163-8114-447c-bf66-790b1a92da51") ]%string.

Definition REMOVE_FOLDER : list Z := [2022; 2023].
Definition BAD_YEAR : Z := 2022.

(** ** [download_data] *)

Definition archive_url (year : Z) (resource_id : string) : string :=
  BASE_URL +:+ "/" +:+ resource_id +:+ "/download/bikeshare-ridership-"
    +:+ pretty year +:+ ".zip".

Definition jank_file : string :=
  "data/bikeshare-ridership-2022/Bike share ridership 2022-11.zip".

Definition year_folder (year : Z) : string :=
  "data/bikeshare-ridership-" +:+ pretty year.

(** The body of the flattening loop, for one directory of the walk. *)
Definition flatten_dir (root : path) (_ : list string) (files : list string)
  : M unit :=
  for_each files (λ file, rename (root ++ [file]) (Path "data" ++ [file])) ;;
  rmdir root.

(** The special case for the year with a nested archive. *)
Definition unpack_nested : M unit :=
  z ← ZipFile_open (Path jank_file);
  extractall z (Path "data/bikeshare-ridership-2022") ;;
  unlink (Path jank_file).

(** One iteration of the loop of [download_data]. *)
Definition download_year (unzip : bool) (item : Z * string) : M unit :=
  let year := item.1 in
  let resource_id := item.2 in
  log INFO ("Downloading data for year: " +:+ pretty year) ;;
  r ← requests_get (archive_url year resource_id) 60;
  z ← ZipFile_bytes (r_content r);
  extractall z (Path "data") ;;
  if negb unzip then mret tt
  else
    (if bool_decide (year = BAD_YEAR) then unpack_nested else mret tt) ;;
    (if bool_decide (year ∈ REMOVE_FOLDER)
     then os_walk (Path (year_folder year)) flatten_dir
     else mret tt).

(** The items the loop runs over.  [years] is taken as a container (a
    list, a set, the dict view that [__main__] passes), on which [in] is
    a membership test without effect.  A one-shot iterator, which [in]
    consumes, is [requested_from_iterator] below. *)
Definition requested (years : list Z) : list (Z * string) :=
  filter (λ x : Z * string, x.1 ∈ years) YEAR_MAP.

Definition download_data (years : list Z) (unzip : bool) : M unit :=
  log INFO "Beginning data download" ;;
  for_each (requested years) (download_year unzip).

(** ** [remove_csv] *)

Definition remove_csv_dir (root : path) (_ : list string) (files : list string)
  : M unit :=
  for_each files (λ file,
    let p := root ++ [file] in
    b ← is_file p;
    if b && bool_decide (suffix file = ".csv"%string) then unlink p else mret tt).

Definition remove_csv : M unit :=
  log INFO "Removing csv files" ;;
  os_walk (Path "data") remove_csv_dir.

(** ** SQL

    Statements act on the catalog.  Comparison is three-valued: [=] on a
    null operand is null, and [WHERE] keeps a row only when its predicate
    is true. *)

Definition sql_eq (a b : option Z) : option bool :=
  match a, b with
  | Some x, Some y => Some (bool_decide (x = y))
  | _, _ => None
  end.

Definition where_holds (v : option bool) : bool :=
  match v with Some true => true | _ => false end.

(** [EXISTS (SELECT 1 FROM tbs_trips WHERE tbs_trips."Trip Id" = r."Trip Id")] *)
Definition id_exists (tbl : list Row) (r : Row) : bool :=
  existsb (λ t, where_holds (sql_eq (Trip_Id t) (Trip_Id r))) tbl.

(** The [SELECT ... WHERE NOT EXISTS (...)]: the sub-query reads the table
    as it stands when the statement starts. *)
Definition new_rows (tbl new_data : list Row) : list Row :=
  filter (λ r, ¬ id_exists tbl r) new_data.

(** [CREATE TYPE name AS ENUM (labels)] *)
Definition create_type (name : string) (labels : list string) : M unit :=
  λ w, match types (db w) !! name with
       | Some _ => Raise CatalogException w
       | None =>
           Ok tt (set_db {| types := <[name := labels]> (types (db w));
                            tbs_trips := tbs_trips (db w) |} w)
       end.

(** [CREATE TABLE IF NOT EXISTS tbs_trips (...)]: the column types are
    resolved first; an existing table is left as it is. *)
Definition create_table_if_not_exists (column_types : list string) : M unit :=
  λ w, if bool_decide (Forall (λ t, is_Some (types (db w) !! t)) column_types)
       then match tbs_trips (db w) with
            | Some _ => Ok tt w
            | None => Ok tt (set_db {| types := types (db w);
                                       tbs_trips := Some [] |} w)
            end
       else Raise CatalogException w.

Definition str_le (a b : string) : Prop := String.leb a b.
Global Instance str_le_dec : RelDecision str_le.
Proof. intros a b. unfold str_le. apply _. Defined.

(** The files the glob of [read_csv] expands to, in name order. *)
Definition csv_inputs (f : gmap path node) : list string :=
  merge_sort str_le (filter (λ n, glob_match n) (nondirs f (Path "data"))).

(** The rows one input file contributes: its well-formed lines, in order. *)
Definition rows_of (o : option node) : list Row :=
  match o with
  | Some (F (Csv lines)) => omap id lines
  | _ => []
  end.

(** [read_csv('data/Bike share ridership 202*.csv', ignore_errors=true,
    union_by_name=true, ...)]: the files' rows, one file after the other;
    a glob that matches no file is an error. *)
Definition read_csv : M (list Row) :=
  λ w, match csv_inputs (fs w) with
       | [] => Raise IOException w
       | names =>
           Ok (mbind (M := list) (λ n, rows_of (fs w !! (Path "data" ++ [n]))) names) w
       end.

(** [INSERT INTO tbs_trips SELECT ... FROM read_csv(...) AS new_data
    WHERE NOT EXISTS (...)]; the result set is the one row holding the
    number of rows inserted.  Two errors of the statement are modelled:
    the missing table and the glob that matches no file.  Those DuckDB
    raises while it reads and casts the files (a value that does not fit
    its column, a column that no file has) have no counterpart, so that
    the conditions under which this definition returns are necessary for
    the statement to return, not sufficient. *)
Definition insert_new_trips : M (list (list Z)) :=
  λ w, match tbs_trips (db w) with
       | None => Raise CatalogException w
       | Some tbl =>
           match read_csv w with
           | Raise e w' => Raise e w'
           | Ok new_data w' =>
               let ins := new_rows tbl new_data in
               Ok [[Z.of_nat (length ins)]]
                  (set_db {| types := types (db w');
                             tbs_trips := Some (tbl ++ ins) |} w')
           end
       end.

(** [cursor.fetchone()] *)
Definition fetchone (rs : list (list Z)) : option (list Z) := head rs.

(** ** [load_data] *)

Definition load_data : M unit :=
  try_except
    (create_type "user" ["Casual Member"; "Annual Member"] ;;
     create_type "bike" ["EFIT G5"; "ICONIC"; "EFIT"])%string
    CatalogException
    (log INFO "`User Type` enum is already defined") ;;
  log DEBUG "Creating table tbs_trips" ;;
  create_table_if_not_exists ["user"; "bike"]%string ;;
  log INFO "Inserting new data" ;;
  rs ← insert_new_trips;
  match fetchone rs with
  | Some (n :: _) => log INFO ("Inserted " +:+ pretty n +:+ " rows")
  | _ => mret tt
  end.

(** ** [export_as_parquet] *)

(** [ORDER BY "Trip Id"]: ascending, nulls last (DuckDB's default). *)
Definition id_le (a b : option Z) : Prop :=
  match a, b with
  | Some x, Some y => x ≤ y
  | _, None => True
  | None, Some _ => False
  end.
Global Instance id_le_dec : RelDecision id_le.
Proof. intros [x|] [y|]; simpl; apply _. Defined.

Definition row_le (r1 r2 : Row) : Prop := id_le (Trip_Id r1) (Trip_Id r2).
Global Instance row_le_dec : RelDecision row_le.
Proof. intros r1 r2. unfold row_le. apply _. Defined.

Definition order_by_trip_id (tbl : list Row) : list Row := merge_sort row_le tbl.

(** [COPY (SELECT * FROM tbs_trips ORDER BY "Trip Id") TO "./data/tbs.parquet"
    (FORMAT 'parquet', CODEC 'zstd', COMPRESSION_LEVEL 3)] *)
Definition copy_to_parquet (target : path) : M unit :=
  λ w, match tbs_trips (db w) with
       | None => Raise CatalogException w
       | Some tbl =>
           match write_file target (Parquet "zstd" 3 (order_by_trip_id tbl)) (fs w) with
           | inl _ => Raise IOException w
           | inr f' => Ok tt (set_fs f' w)
           end
       end.

Definition export_as_parquet : M unit :=
  log INFO "Saving to parquet" ;;
  copy_to_parquet (Path "./data/tbs.parquet").

(** ** The driver: the stages in the order [__main__] runs them (the
    connection set-up only configures the engine). *)
Definition main : M unit :=
  download_data YEAR_MAP.*1 true ;;
  load_data ;;
  remove_csv ;;
  export_as_parquet ;;
  log INFO "Data load complete".

(** ** Observations used in the statements *)

(** The world a computation ends in, whether it returns or raises. *)
Definition out {A} (r : result A) : world :=
  match r with Ok _ w => w | Raise _ w => w end.

(** The rows of [tbs_trips]; a table not yet created has none. *)
Definition table_rows (w : world) : list Row := default [] (tbs_trips (db w)).

(** The relation [read_csv] yields in world [w]. *)
Definition input_rows (w : world) : list Row :=
  mbind (M := list) (λ n, rows_of (fs w !! (Path "data" ++ [n]))) (csv_inputs (fs w)).


Definition with_id (k : Z) (rows : list Row) : list Row :=
  filter (λ r, Trip_Id r = Some k) rows.

Definition null_id (rows : list Row) : list Row :=
  filter (λ r, Trip_Id r = None) rows.

(** The URLs requested so far, oldest first. *)
Definition gets (t : list event) : list string :=
  omap (λ e, match e with HttpGet u _ => Some u | Log _ _ => None end) t.

(** The [try] block of [load_data] on its own, and the statements after it. *)
Definition declare_types : M unit :=
  try_except
    (create_type "user" ["Casual Member"; "Annual Member"] ;;
     create_type "bike" ["EFIT G5"; "ICONIC"; "EFIT"])%string
    CatalogException
    (log INFO "`User Type` enum is already defined").

Definition create_and_insert : M unit :=
  log DEBUG "Creating table tbs_trips" ;;
  create_table_if_not_exists ["user"; "bike"]%string ;;
  log INFO "Inserting new data" ;;
  rs ← insert_new_trips;
  match fetchone rs with
  | Some (n :: _) => log INFO ("Inserted " +:+ pretty n +:+ " rows")
  | _ => mret tt
  end.

Definition already_defined : event :=
  Log INFO "`User Type` enum is already defined".

Definition inserted (n : nat) : event :=
  Log INFO ("Inserted " +:+ pretty (Z.of_nat n) +:+ " rows").

(** The world after [CREATE TABLE IF NOT EXISTS]. *)
Definition ensure_table (w : world) : world :=
  match tbs_trips (db w) with
  | Some _ => w
  | None => set_db {| types := types (db w); tbs_trips := Some [] |} w
  end.

(** The world in which the [INSERT] statement runs. *)
Definition before_insert (w : world) : world :=
  emit (Log INFO "Inserting new data")
    (ensure_table (emit (Log DEBUG "Creating table tbs_trips") w)).

(** The world after the [INSERT] and its report. *)
Definition after_insert (w : world) : world :=
  let ins := new_rows (table_rows w) (input_rows w) in
  emit (inserted (length ins))
    (set_db {| types := types (db w);
               tbs_trips := Some (table_rows w ++ ins) |} (before_insert w)).

Global Instance user_eq_dec : EqDecision user.
Proof. solve_decision. Defined.
Global Instance bike_eq_dec : EqDecision bike.
Proof. solve_decision. Defined.
Global Instance Row_eq_dec : EqDecision Row.
Proof. solve_decision. Defined.


(** ** Sample worlds *)

Definition trip (id : option Z) (duration : Z) : Row :=
  {| Trip_Id := id; Trip_Duration := Some duration;
     Start_Station_Id := Some 7000; Start_Time := Some 0;
     Start_Station_Name := Some "Fort York  Blvd / Capreol Ct"%string;
     End_Station_Id := Some 7001; End_Time := Some (duration * 1000000);
     End_Station_Name := None; Bike_Id := Some 42;
     User_Type := Some Casual_Member; Model := Some ICONIC |}.

Definition offline : string → response := λ _, Unreachable.

Definition empty_db : database := {| types := ∅; tbs_trips := None |}.

Definition data_only : gmap path node := <[ ["data"%string] := D ]> {[ [] := D ]}.

(** Two monthly files that both carry trip 1, with different durations. *)
Definition w_overlap : world :=
  {| fs := <[ ["data"; "Bike share ridership 2021-02.csv"]%string :=
               F (Csv [Some (trip (Some 1) 20); Some (trip (Some 3) 5)]) ]>
           (<[ ["data"; "Bike share ridership 2021-01.csv"]%string :=
               F (Csv [Some (trip (Some 1) 10); None; Some (trip (Some 2) 30)]) ]>
            data_only);
     db := empty_db; remote := offline; trace := [] |}.

(** One file with a row that has no trip identifier. *)
Definition w_null : world :=
  {| fs := <[ ["data"; "Bike share ridership 2021-01.csv"]%string :=
               F (Csv [Some (trip (Some 1) 10); Some (trip None 15)]) ]>
            data_only;
     db := empty_db; remote := offline; trace := [] |}.

(** One file, every row identified. *)
Definition w_plain : world :=
  {| fs := <[ ["data"; "Bike share ridership 2021-01.csv"]%string :=
               F (Csv [Some (trip (Some 1) 10); Some (trip (Some 2) 15)]) ]>
            data_only;
     db := empty_db; remote := offline; trace := [] |}.

Definition after {A} (m : M A) (w : world) : world := out (m w).

Definition returns {A} (r : result A) : bool :=
  match r with Ok _ _ => true | Raise _ _ => false end.

(** Worlds that differ at most in the file system and in log records. *)
Definition local_step (w w' : world) : Prop :=
  remote w' = remote w ∧ db w' = db w ∧ gets (trace w') = gets (trace w).

(** [m] only ever takes local steps, whether it returns or raises. *)
Definition local {A} (m : M A) : Prop := ∀ w, local_step w (out (m w)).

(** The top-level extraction alone, as the unzip flag set to false asks
    for: fetch the year's archive and extract it into [data/]. *)
Definition fetch_and_extract (item : Z * string) : M unit :=
  log INFO ("Downloading data for year: " +:+ pretty item.1) ;;
  r ← requests_get (archive_url item.1 item.2) 60;
  z ← ZipFile_bytes (r_content r);
  extractall z (Path "data").

(** A portal that answers every request with the same response. *)
Definition always (r : response) : string → response := λ _, r.

Definition csv_a : content := Csv [Some (trip (Some 1) 10)].
Definition csv_b : content := Csv [Some (trip (Some 2) 20)].

(** A 2021-style archive: files at the top level. *)
Definition flat_archive : content :=
  Zip [("Bike share ridership 2021-01.csv", csv_a);
       ("Bike share ridership 2021-02.csv", csv_b)]%string.

Definition w_not_found : world :=
  {| fs := data_only; db := empty_db;
     remote := always (Response 404 flat_archive); trace := [] |}.

(** Nothing present in [f] is missing from [f'] or has changed kind:
    directories are still directories and files are still files. *)
Definition grows (f f' : gmap path node) : Prop :=
  ∀ p, match f !! p with
       | Some D => f' !! p = Some D
       | Some (F _) => ∃ c, f' !! p = Some (F c)
       | None => True
       end.

(** A 2022-style archive: a year folder that holds a file and a nested
    archive. *)
Definition nested_members : list member :=
  [("Bike share ridership 2022-11.csv", csv_b)]%string.

Definition nested_archive : content := Zip nested_members.

Definition members_2022 : list member :=
  [("bikeshare-ridership-2022/", Csv []);
   ("bikeshare-ridership-2022/Bike share ridership 2022-01.csv", csv_a);
   ("bikeshare-ridership-2022/Bike share ridership 2022-11.zip", nested_archive)]%string.

Definition archive_2022 : content := Zip members_2022.

Definition rid_2022 : string := "db10a7b1-2702-481c-b7f0-0c67070104bb".

(** A 2023-style archive whose year folder holds a file and a folder. *)
Definition members_2023_deep : list member :=
  [("bikeshare-ridership-2023/Bike share ridership 2023-01.csv", csv_a);
   ("bikeshare-ridership-2023/extra/Bike share ridership 2023-02.csv", csv_b)]%string.

Definition w_2023_deep : world :=
  {| fs := data_only; db := empty_db;
     remote := always (Response 200 (Zip members_2023_deep)); trace := [] |}.

(** The file system an operation on the file system alone ends with. *)
Definition fs_of (r : exn + gmap path node) : gmap path node :=
  match r with inr f => f | inl _ => ∅ end.
Definition succeeds (r : exn + gmap path node) : bool :=
  match r with inr _ => true | inl _ => false end.

Definition w_2022 : world :=
  {| fs := data_only; db := empty_db;
     remote := always (Response 200 archive_2022); trace := [] |}.

(** ** Shape of the file system *)

Definition is_dir (f : gmap path node) (p : path) : Prop := f !! p = Some D.
Global Instance is_dir_dec f p : Decision (is_dir f p).
Proof.
  unfold is_dir. destruct (f !! p) as [[c|]|];
    [right; discriminate|left; reflexivity|right; discriminate].
Defined.

(** Every entry other than the working directory sits in a directory. *)
Definition wf (f : gmap path node) : Prop :=
  map_Forall (λ p _, p = [] ∨ is_dir f (parent p)) f.

(** [f'] is [f] without the CSV files of region [S]: nothing else went,
    nothing changed, nothing came. *)
Definition cleaned (S : path → Prop) (f f' : gmap path node) : Prop :=
  (∀ p, f' !! p = f !! p ∨
        (f' !! p = None ∧ ∃ c, f !! p = Some (F c) ∧
           suffix (default EmptyString (last p)) = ".csv"%string ∧ S p)) ∧
  (∀ p c, f !! p = Some (F c) →
          suffix (default EmptyString (last p)) = ".csv"%string → S p →
          f' !! p = None).

(** A working directory with CSV files at two levels of [data/], other
    files next to them, and a CSV file outside [data/]. *)
Definition w_mixed : world :=
  {| fs := <[ ["other"; "keep.csv"]%string := F (Csv []) ]>
           (<[ ["other"%string] := D ]>
           (<[ ["data"; "2022"; "notes.txt"]%string := F (Csv [None]) ]>
           (<[ ["data"; "2022"; "Bike share ridership 2022-01.csv"]%string :=
                 F (Csv [Some (trip (Some 5) 50)]) ]>
           (<[ ["data"; "2022"]%string := D ]>
           (<[ ["data"; "tbs.parquet"]%string := F (Parquet "zstd" 3 []) ]>
           (<[ ["data"; "Bike share ridership 2021-01.csv"]%string :=
                 F (Csv [Some (trip (Some 1) 10)]) ]>
            data_only))))));
     db := empty_db; remote := offline; trace := [] |}.

(** [p] lies strictly inside [top]. *)
Definition inside (top p : path) : Prop := ∃ x r, p = top ++ x :: r.

(** [Path.name] and the test [remove_csv] applies to it. *)
Definition file_name (p : path) : string := default EmptyString (last p).
Definition is_csv (p : path) : Prop := suffix (file_name p) = ".csv"%string.

(** [ZipFile.extractall] on the file system alone. *)
Fixpoint extractall_fs (ms : list member) (dest : path) (f : gmap path node)
  : exn + gmap path node :=
  match ms with
  | [] => inr f
  | m :: ms' =>
      match extract_member_fs dest m f with
      | inl e => inl e
      | inr f1 => extractall_fs ms' dest f1
      end
  end.

(** The files [xs] of [top] have moved to [data/], keeping their names;
    nothing else differs between [f] and [f']. *)
Definition moved (top : path) (xs : list string) (f f' : gmap path node) : Prop :=
  (∀ x, x ∈ xs →
        f' !! (top ++ [x]) = None ∧ f' !! (Path "data" ++ [x]) = f !! (top ++ [x])) ∧
  (∀ p, (∀ x, x ∈ xs → p ≠ top ++ [x] ∧ p ≠ Path "data" ++ [x]) → f' !! p = f !! p).

(** The exception a computation ends with, if any. *)
Definition raised {A} (r : result A) : option exn :=
  match r with Ok _ _ => None | Raise e _ => Some e end.

(** ** The earlier copy of the script ([toronto-bike-share/load_tbs.py])

    The same two stages without logging: the folder fix-ups go through the
    [os] functions, and [load_data] declares no enumeration type (the two
    categorical columns are [VARCHAR]) and does not read the count back.
    Rows are kept in the same record; nothing below looks at the two
    categorical columns. *)
Module Legacy.

(** The loop of [os.removedirs] after the leaf is gone: each parent in
    turn, up to the first component of the path, until one cannot be
    removed; that failure is swallowed. *)
Fixpoint prune (n : nat) (head : path) (f : gmap path node) : gmap path node :=
  match n, head with
  | S n, _ :: _ =>
      match rmdir_fs head f with
      | inr f' => prune n (parent head) f'
      | inl _ => f
      end
  | _, _ => f
  end.

(** [os.removedirs] *)
Definition removedirs_fs (name : path) (f : gmap path node)
  : exn + gmap path node :=
  match rmdir_fs name f with
  | inl e => inl e
  | inr f' => inr (prune (length name) (parent name) f')
  end.

Definition removedirs (name : path) : M unit := lift_fs (removedirs_fs name).

Definition flatten_dir (root : path) (_ : list string) (files : list string)
  : M unit :=
  for_each files (λ file, rename (root ++ [file]) (Path "data" ++ [file])) ;;
  removedirs root.

Definition download_year (unzip : bool) (item : Z * string) : M unit :=
  let year := item.1 in
  let resource_id := item.2 in
  r ← requests_get (archive_url year resource_id) 60;
  z ← ZipFile_bytes (r_content r);
  extractall z (Path "data") ;;
  if negb unzip then mret tt
  else
    (if bool_decide (year = 2022) then unpack_nested else mret tt) ;;
    (if bool_decide (year ∈ REMOVE_FOLDER)
     then os_walk (Path (year_folder year)) flatten_dir
     else mret tt).

Definition download_data (years : list Z) (unzip : bool) : M unit :=
  for_each (requested years) (download_year unzip).

Definition load_data : M unit :=
  create_table_if_not_exists [] ;;
  _ ← insert_new_trips;
  mret tt.

End Legacy.

(** ** Further observations and sample worlds *)

(** A catalog in which only the [user] type has been declared. *)
Definition w_half_declared : world :=
  {| fs := fs w_plain;
     db := {| types := {[ "user"%string := ["Casual Member"; "Annual Member"]%string ]};
              tbs_trips := None |};
     remote := offline; trace := [] |}.

(** A working directory whose [data/] holds no input file. *)
Definition w_no_input : world :=
  {| fs := data_only; db := empty_db; remote := offline; trace := [] |}.

(** What [COPY ... TO] needs: the table, the directory [data/], and a
    target that is not a directory. *)
Definition can_export (w : world) : Prop :=
  is_Some (tbs_trips (db w)) ∧ fs w !! Path "data" = Some D ∧
  fs w !! Path "./data/tbs.parquet" ≠ Some D.

(** The HTTP requests made so far, each with its timeout, oldest first. *)
Definition requests (t : list event) : list (string * Z) :=
  omap (λ e, match e with HttpGet u n => Some (u, n) | Log _ _ => None end) t.

(** [m] relates every world to the one it ends in, whether it returns or
    raises. *)
Definition keeps (R : world → world → Prop) {A} (m : M A) : Prop :=
  ∀ w, R w (out (m w)).

Definition same_requests (w w' : world) : Prop :=
  requests (trace w') = requests (trace w).

(** [p] is [data] or lies inside it. *)
Definition in_data (p : path) : Prop := ∃ r, p = Path "data" ++ r.

(** A change confined to [data/]: provided the working directory is there,
    every path other than [data] and the paths inside it is as it was, and
    a file system in which every entry sits in a directory stays so. *)
Definition confined (f f' : gmap path node) : Prop :=
  (f !! [] = Some D → ∀ p, ¬ in_data p → f' !! p = f !! p) ∧
  (wf f → wf f').

Definition confined_step (w w' : world) : Prop :=
  confined (fs w) (fs w') ∧ db w' = db w.

(** A year folder that holds one file, and one that also holds a folder. *)
Definition w_flat_folder : world :=
  {| fs := <[ ["data"; "bikeshare-ridership-2023";
               "Bike share ridership 2023-01.csv"]%string := F csv_a ]>
           (<[ ["data"; "bikeshare-ridership-2023"]%string := D ]> data_only);
     db := empty_db; remote := offline; trace := [] |}.

Definition w_deep_folder : world :=
  set_fs (<[ ["data"; "bikeshare-ridership-2023"; "extra"]%string := D ]>
            (fs w_flat_folder)) w_flat_folder.

(** What [os.removedirs] adds to removing the year folder: [data/] goes
    too when that leaves it empty. *)
Definition drop_data_if_empty (f : gmap path node) : gmap path node :=
  match listdir f (Path "data") with
  | [] => delete (Path "data") f
  | _ :: _ => f
  end.

(** A portal that serves the four archives: 2021 and 2024 with files at the
    top level, 2022 with a year folder and a nested archive, 2023 with a
    year folder. *)
Definition portal (url : string) : response :=
  if decide (url = archive_url 2021 "ddc039f6-07fa-47a3-a707-0121ade3b307")
  then Response 200 flat_archive
  else if decide (url = archive_url 2022 rid_2022)
  then Response 200 archive_2022
  else if decide (url = archive_url 2023 "f0fa6a67-4571-4dd6-9d5a-df010ebed7d1")
  then Response 200
         (Zip [("bikeshare-ridership-2023/Bike share ridership 2023-01.csv",
                Csv [Some (trip (Some 4) 40)])]%string)
  else if decide (url = archive_url 2024 "9a9a0163-8114-447c-bf66-790b1a92da51")
  then Response 200
         (Zip [("Bike share ridership 2024-01.csv",
                Csv [Some (trip None 5); Some (trip (Some 1) 99)])]%string)
  else Unreachable.

(** An empty working directory and a fresh database in front of it. *)
Definition w_portal : world :=
  {| fs := {[ [] := D ]}; db := empty_db; remote := portal; trace := [] |}.

(** The same with the [user] type declared and [bike] not. *)
Definition w_portal_half_declared : world :=
  set_db (db w_half_declared) w_portal.

(** ** The parts of an iteration and of the load, by name *)

(** What one iteration of [download_data] does once [requests.get] has
    returned: only the body of the response is used, its status is not
    among the inputs. *)
Definition extract_and_fix (unzip : bool) (year : Z) (body : content) : M unit :=
  z ← ZipFile_bytes body;
  extractall z (Path "data") ;;
  if negb unzip then mret tt
  else
    (if bool_decide (year = BAD_YEAR) then unpack_nested else mret tt) ;;
    (if bool_decide (year ∈ REMOVE_FOLDER)
     then os_walk (Path (year_folder year)) flatten_dir
     else mret tt).

(** The world in which an iteration runs [extract_and_fix]: the one it
    started in, with its log line and its request recorded. *)
Definition requested_in (item : Z * string) (w : world) : world :=
  emit (HttpGet (archive_url item.1 item.2) 60)
    (emit (Log INFO ("Downloading data for year: " +:+ pretty item.1)) w).

(** The URL an iteration requests. *)
Definition url_of (item : Z * string) : string := archive_url item.1 item.2.

(** The last two statements of [load_data]: the [INSERT] and the report of
    its count. *)
Definition insert_and_report : M unit :=
  rs ← insert_new_trips;
  match fetchone rs with
  | Some (n :: _) => log INFO ("Inserted " +:+ pretty n +:+ " rows")
  | _ => mret tt
  end.

(** The name of the nested archive, and so of the file that moving it to
    [data/] would give. *)
Definition jank_name : string := "Bike share ridership 2022-11.zip".

(** ** [years] as a one-shot iterator *)

(** [y in it] for a one-shot iterator [it]: the test consumes the elements
    up to and including the first one equal to [y], and all of them when
    there is none.  The result is the answer and what is left of [it]. *)
Fixpoint iterator_contains (y : Z) (it : list Z) : bool * list Z :=
  match it with
  | [] => (false, [])
  | z :: it' => if decide (z = y) then (true, it') else iterator_contains y it'
  end.

(** The filter of [download_data] when [years] is such an iterator: each
    membership test goes on where the one before it stopped. *)
Fixpoint requested_from_iterator (items : list (Z * string)) (it : list Z)
  : list (Z * string) :=
  match items with
  | [] => []
  | x :: items' =>
      let r := iterator_contains x.1 it in
      if r.1 then x :: requested_from_iterator items' r.2
      else requested_from_iterator items' r.2
  end.

(** [download_data(iter(...), unzip)] *)
Definition download_data_from_iterator (it : list Z) (unzip : bool) : M unit :=
  log INFO "Beginning data download" ;;
  for_each (requested_from_iterator YEAR_MAP it) (download_year unzip).

(** * Properties *)

(** ** The anti-join *)

Ltac monad_unfold :=
  unfold mbind, M_bind, bind, mret, M_ret, ret, raise, log in *.

Lemma filter_eq_nil {A} (P : A → Prop) `{!∀ x, Decision (P x)} (l : list A) :
  filter P l = [] ↔ ∀ x, x ∈ l → ¬ P x.
Proof.
  induction l as [|a l IH]; simpl.
  - split; [intros _ x Hx; by apply not_elem_of_nil in Hx | done].
  - rewrite filter_cons. destruct (decide (P a)) as [Ha|Ha].
    + split; [done|]. intros Hall. exfalso. apply (Hall a); [left|done].
    + rewrite IH. split.
      * intros Hall x [->|Hx]%elem_of_cons; auto.
      * intros Hall x Hx. apply Hall. by right.
Qed.

Lemma id_exists_true tbl r :
  id_exists tbl r = true ↔
  ∃ k, Trip_Id r = Some k ∧ ∃ t, t ∈ tbl ∧ Trip_Id t = Some k.
Proof.
  unfold id_exists. rewrite existsb_exists. split.
  - intros (t & Hin & Ht). apply list_elem_of_In in Hin.
    destruct (Trip_Id t) as [x|] eqn:Ex, (Trip_Id r) as [y|] eqn:Ey;
      simpl in Ht; try discriminate.
    case_bool_decide; [subst|discriminate]. eauto.
  - intros (k & Hk & t & Hin & Ht). exists t. split.
    + by apply list_elem_of_In.
    + rewrite Ht, Hk. simpl. by rewrite bool_decide_eq_true_2.
Qed.

Lemma id_exists_null tbl r : Trip_Id r = None → id_exists tbl r = false.
Proof.
  intros Hr. destruct (id_exists tbl r) eqn:E; [|done].
  apply id_exists_true in E as (k & Hk & _). congruence.
Qed.


Lemma elem_of_new_rows tbl nd r :
  r ∈ new_rows tbl nd ↔ r ∈ nd ∧ id_exists tbl r = false.
Proof.
  unfold new_rows. rewrite list_elem_of_filter.
  destruct (id_exists tbl r); simpl; split; intros [Hin Hb]; by try (split; auto).
Qed.


Lemma null_id_app l1 l2 : null_id (l1 ++ l2) = null_id l1 ++ null_id l2.
Proof. apply filter_app. Qed.



(** A row without identifier always passes the filter. *)
Lemma null_id_new_rows tbl nd : null_id (new_rows tbl nd) = null_id nd.
Proof.
  unfold null_id, new_rows. apply list_filter_filter_l.
  intros r Hk. rewrite (id_exists_null tbl r Hk). simpl. tauto.
Qed.

(** Once a batch went in, none of its non-null rows passes the filter. *)
Lemma new_rows_again tbl nd :
  null_id nd = [] → new_rows (tbl ++ new_rows tbl nd) nd = [].
Proof.
  intros Hnn. apply filter_eq_nil. intros r Hr Hnot.
  apply Hnot. apply Is_true_true. apply id_exists_true.
  destruct (Trip_Id r) as [k|] eqn:Hk.
  - exists k. split; [done|].
    destruct (id_exists tbl r) eqn:E.
    + apply id_exists_true in E as (k' & Hk' & t & Hin & Ht).
      exists t. split; [apply elem_of_app; by left | congruence].
    + exists r. split; [|done]. apply elem_of_app. right.
      by apply elem_of_new_rows.
  - assert (r ∈ null_id nd) as Hbad by (apply list_elem_of_filter; done).
    rewrite Hnn in Hbad. by apply not_elem_of_nil in Hbad.
Qed.




(** ** Monad laws used below *)

Lemma bind_eq {A B} (m : M A) (k : A → M B) w :
  (m ≫= k) w =
  match m w with Ok a w1 => k a w1 | Raise e w1 => Raise e w1 end.
Proof. done. Qed.

Lemma bind_Ok {A B} (m : M A) (k : A → M B) w b w' :
  (m ≫= k) w = Ok b w' ↔ ∃ a w1, m w = Ok a w1 ∧ k a w1 = Ok b w'.
Proof.
  rewrite bind_eq. destruct (m w) as [a w1|e w1]; split.
  - eauto.
  - by intros (a' & w1' & [= -> ->] & Hk).
  - done.
  - by intros (a' & w1' & [=] & Hk).
Qed.

Lemma returns_after (m : M unit) w :
  returns (m w) = true → m w = Ok tt (after m w).
Proof. unfold after. by destruct (m w) as [[] ?|]. Qed.

Lemma log_eq lvl msg w : log lvl msg w = Ok tt (emit (Log lvl msg) w).
Proof. done. Qed.

(** ** [load_data], statement by statement *)

Lemma read_csv_eq w :
  read_csv w = if decide (csv_inputs (fs w) = []) then Raise IOException w
               else Ok (input_rows w) w.
Proof.
  unfold read_csv, input_rows. destruct (csv_inputs (fs w)); [done|].
  by rewrite decide_False.
Qed.

Lemma insert_new_trips_eq w :
  insert_new_trips w =
    match tbs_trips (db w) with
    | None => Raise CatalogException w
    | Some tbl =>
        if decide (csv_inputs (fs w) = []) then Raise IOException w
        else
          let ins := new_rows tbl (input_rows w) in
          Ok [[Z.of_nat (length ins)]]
             (set_db {| types := types (db w); tbs_trips := Some (tbl ++ ins) |} w)
    end.
Proof.
  unfold insert_new_trips. rewrite read_csv_eq.
  destruct (tbs_trips (db w)); [|done]. by case_decide.
Qed.

Lemma create_table_eq w :
  create_table_if_not_exists ["user"; "bike"]%string w =
    match types (db w) !! "user"%string, types (db w) !! "bike"%string with
    | Some _, Some _ => Ok tt (ensure_table w)
    | _, _ => Raise CatalogException w
    end.
Proof.
  unfold create_table_if_not_exists, ensure_table.
  destruct (types (db w) !! "user"%string) eqn:Hu,
           (types (db w) !! "bike"%string) eqn:Hb.
  - rewrite bool_decide_eq_true_2.
    + by destruct (tbs_trips (db w)).
    + repeat constructor; rewrite ?Hu, ?Hb; eauto.
  - rewrite bool_decide_eq_false_2; [done|].
    intros H. inversion H as [|?? _ H2]; subst. inversion H2 as [|?? H3 _]; subst.
    rewrite Hb in H3. by destruct H3.
  - rewrite bool_decide_eq_false_2; [done|].
    intros H. inversion H as [|?? H1 _]; subst. rewrite Hu in H1. by destruct H1.
  - rewrite bool_decide_eq_false_2; [done|].
    intros H. inversion H as [|?? H1 _]; subst. rewrite Hu in H1. by destruct H1.
Qed.

Lemma load_data_eq w : load_data w = (declare_types ;; create_and_insert) w.
Proof. done. Qed.

Lemma table_rows_ensure w : table_rows (ensure_table w) = table_rows w.
Proof.
  unfold table_rows, ensure_table.
  destruct (tbs_trips (db w)) eqn:E; simpl; by rewrite ?E.
Qed.

Lemma tbs_trips_ensure w :
  tbs_trips (db (ensure_table w)) = Some (table_rows w).
Proof.
  unfold table_rows, ensure_table.
  destruct (tbs_trips (db w)) eqn:E; simpl; by rewrite ?E.
Qed.

Lemma fs_ensure w : fs (ensure_table w) = fs w.
Proof. unfold ensure_table. by destruct (tbs_trips (db w)). Qed.

Lemma types_ensure w : types (db (ensure_table w)) = types (db w).
Proof. unfold ensure_table. by destruct (tbs_trips (db w)). Qed.

Lemma trace_ensure w : trace (ensure_table w) = trace w.
Proof. unfold ensure_table. by destruct (tbs_trips (db w)). Qed.

Lemma remote_ensure w : remote (ensure_table w) = remote w.
Proof. unfold ensure_table. by destruct (tbs_trips (db w)). Qed.

(** After the [try] block: a missing type stops at [CREATE TABLE], no
    matching file stops at [read_csv], and otherwise the insert runs. *)
Lemma create_and_insert_eq w :
  create_and_insert w =
    match types (db w) !! "user"%string, types (db w) !! "bike"%string with
    | Some _, Some _ =>
        if decide (csv_inputs (fs w) = []) then Raise IOException (before_insert w)
        else Ok tt (after_insert w)
    | _, _ => Raise CatalogException (emit (Log DEBUG "Creating table tbs_trips") w)
    end.
Proof.
  unfold create_and_insert. rewrite bind_eq, log_eq, bind_eq, create_table_eq.
  simpl types.
  destruct (types (db w) !! "user"%string) eqn:Hu; [|done].
  destruct (types (db w) !! "bike"%string) eqn:Hb; [|done].
  rewrite bind_eq, log_eq, bind_eq, insert_new_trips_eq.
  fold (before_insert w).
  assert (tbs_trips (db (before_insert w)) = Some (table_rows w)) as ->.
  { unfold before_insert. simpl. by rewrite tbs_trips_ensure. }
  assert (fs (before_insert w) = fs w) as Hfs.
  { unfold before_insert. simpl. by rewrite fs_ensure. }
  assert (input_rows (before_insert w) = input_rows w) as ->.
  { unfold input_rows. by rewrite Hfs. }
  rewrite Hfs. case_decide; [done|]. cbv zeta.
  cbn [fetchone head]. rewrite log_eq. unfold after_insert, inserted. do 4 f_equal.
  unfold before_insert. simpl. by rewrite types_ensure.
Qed.

(** The [try] block never fails; the three ways it can go. *)
Lemma declare_types_eq w :
  declare_types w =
    match types (db w) !! "user"%string with
    | Some _ => Ok tt (emit already_defined w)
    | None =>
        let ty1 := <["user"%string := ["Casual Member"; "Annual Member"]%string]>
                     (types (db w)) in
        match types (db w) !! "bike"%string with
        | Some _ =>
            Ok tt (emit already_defined
                     (set_db {| types := ty1; tbs_trips := tbs_trips (db w) |} w))
        | None =>
            Ok tt (set_db {| types := <["bike"%string :=
                                          ["EFIT G5"; "ICONIC"; "EFIT"]%string]> ty1;
                             tbs_trips := tbs_trips (db w) |} w)
        end
    end.
Proof.
  unfold declare_types, try_except, create_type. monad_unfold.
  destruct (types (db w) !! "user"%string) eqn:Hu; simpl; [done|].
  rewrite lookup_insert_ne by done.
  destruct (types (db w) !! "bike"%string) eqn:Hb; simpl; done.
Qed.

(** What the [try] block leaves alone. *)
Lemma declare_types_frame w :
  ∃ w1, declare_types w = Ok tt w1 ∧
        fs w1 = fs w ∧ remote w1 = remote w ∧
        tbs_trips (db w1) = tbs_trips (db w) ∧
        (∃ pre, trace w1 = trace w ++ pre) ∧
        is_Some (types (db w1) !! "user"%string).
Proof.
  rewrite declare_types_eq.
  destruct (types (db w) !! "user"%string) eqn:Hu;
    [|destruct (types (db w) !! "bike"%string) eqn:Hb]; cbv zeta;
    eexists; (split; [reflexivity|]); simpl; repeat split;
    rewrite ?Hu, ?lookup_insert_eq, ?lookup_insert_ne, ?lookup_insert_eq by done;
    eauto.
  exists []. by rewrite app_nil_r.
Qed.

Lemma before_insert_frame w :
  fs (before_insert w) = fs w ∧ remote (before_insert w) = remote w ∧
  types (db (before_insert w)) = types (db w).
Proof.
  unfold before_insert. simpl.
  by rewrite fs_ensure, remote_ensure, types_ensure.
Qed.

(** A load that returns: what it found and what it left. *)
Lemma load_data_ok w w' :
  load_data w = Ok tt w' →
  csv_inputs (fs w) ≠ [] ∧
  fs w' = fs w ∧ remote w' = remote w ∧
  is_Some (types (db w') !! "user"%string) ∧
  is_Some (types (db w') !! "bike"%string) ∧
  tbs_trips (db w') =
    Some (table_rows w ++ new_rows (table_rows w) (input_rows w)) ∧
  ∃ pre, trace w' = trace w ++ pre ++
    [inserted (length (new_rows (table_rows w) (input_rows w)))].
Proof.
  rewrite load_data_eq, bind_eq.
  destruct (declare_types_frame w) as (w1 & -> & Hfs & Hrm & Htb & [pre Htr] & Hu).
  rewrite create_and_insert_eq.
  destruct (types (db w1) !! "user"%string) eqn:Hu1; [|done].
  destruct (types (db w1) !! "bike"%string) eqn:Hb1; [|done].
  rewrite Hfs. case_decide as Hin; [done|]. intros [= <-].
  assert (table_rows w1 = table_rows w) as Ht by (unfold table_rows; by rewrite Htb).
  assert (input_rows w1 = input_rows w) as Hi by (unfold input_rows; by rewrite Hfs).
  destruct (before_insert_frame w1) as (Hf2 & Hr2 & Ht2).
  unfold after_insert. rewrite Ht, Hi. simpl.
  rewrite fs_ensure, remote_ensure, trace_ensure, Hu1, Hb1. simpl.
  repeat split; eauto. rewrite Htr.
  exists (pre ++ [Log DEBUG "Creating table tbs_trips"; Log INFO "Inserting new data"]).
  by rewrite <- !(assoc_L (++)).
Qed.

(** ** Deduplication on load *)

Lemma table_rows_after_load w w' :
  load_data w = Ok tt w' →
  table_rows w' = table_rows w ++ new_rows (table_rows w) (input_rows w).
Proof.
  intros (_ & _ & _ & _ & _ & Ht & _)%load_data_ok.
  unfold table_rows at 1. by rewrite Ht.
Qed.





(** ** Loading twice *)

Lemma load_data_again w w1 :
  load_data w = Ok tt w1 →
  load_data w1 = Ok tt (after_insert (emit already_defined w1)).
Proof.
  intros (Hin & Hfs & _ & [u Hu] & [b Hb] & _)%load_data_ok.
  rewrite load_data_eq, bind_eq, declare_types_eq, Hu, create_and_insert_eq.
  simpl. rewrite Hu, Hb, Hfs. by rewrite decide_False.
Qed.

Lemma table_rows_after_insert w :
  table_rows (after_insert w) =
  table_rows w ++ new_rows (table_rows w) (input_rows w).
Proof. done. Qed.

Lemma trace_after_insert w :
  last (trace (after_insert w)) =
  Some (inserted (length (new_rows (table_rows w) (input_rows w)))).
Proof. unfold after_insert. simpl. by rewrite last_snoc. Qed.

(** C2, for input files in which every row has a trip identifier: a second
    load of the same files returns, leaves the table as the first load left
    it, and reports zero inserted rows, whatever the table held at first. *)
Theorem second_load_inserts_nothing w w1 :
  null_id (input_rows w) = [] →
  load_data w = Ok tt w1 →
  ∃ w2, load_data w1 = Ok tt w2 ∧
        table_rows w2 = table_rows w1 ∧
        length (table_rows w2) = length (table_rows w1) ∧
        last (trace w2) = Some (inserted 0).
Proof.
  intros Hnn Hload. exists (after_insert (emit already_defined w1)).
  split; [by apply (load_data_again w)|].
  pose proof (table_rows_after_load w w1 Hload) as Ht.
  apply load_data_ok in Hload as (_ & Hfs & _).
  assert (new_rows (table_rows (emit already_defined w1))
            (input_rows (emit already_defined w1)) = []) as Hnone.
  { change (table_rows (emit already_defined w1)) with (table_rows w1).
    change (input_rows (emit already_defined w1)) with (input_rows w1).
    assert (input_rows w1 = input_rows w) as -> by (unfold input_rows; by rewrite Hfs).
    rewrite Ht. by apply new_rows_again. }
  rewrite trace_after_insert, table_rows_after_insert, Hnone, app_nil_r.
  done.
Qed.

Lemma second_load_inserts_nothing_witness :
  ∃ w2, load_data (after load_data w_plain) = Ok tt w2 ∧
        table_rows w2 = table_rows (after load_data w_plain) ∧
        length (table_rows w2) = length (table_rows (after load_data w_plain)) ∧
        last (trace w2) = Some (inserted 0).
Proof.
  apply (second_load_inserts_nothing w_plain (after load_data w_plain)).
  - vm_compute. reflexivity.
  - apply returns_after. vm_compute. reflexivity.
Defined.

(** C2 as stated fails: a row without identifier goes in again. *)
Lemma second_load_repeats_null_rows :
  ¬ (∀ w w1 w2, load_data w = Ok tt w1 → load_data w1 = Ok tt w2 →
                length (table_rows w2) = length (table_rows w1) ∧
                last (trace w2) = Some (inserted 0)).
Proof.
  intros H.
  destruct (H w_null (after load_data w_null)
              (after load_data (after load_data w_null))) as [Hlen _].
  - apply returns_after. vm_compute. reflexivity.
  - apply returns_after. vm_compute. reflexivity.
  - vm_compute in Hlen. discriminate Hlen.
Qed.

(** C10: a row whose trip identifier is null passes the filter against
    any table, so each load that returns appends every such input row;
    two loads of the same files leave two copies of each. *)
Theorem null_id_rows_always_inserted w w1 :
  load_data w = Ok tt w1 →
  (∀ tbl r, Trip_Id r = None → id_exists tbl r = false) ∧
  (∀ r, r ∈ input_rows w → Trip_Id r = None →
        r ∈ new_rows (table_rows w) (input_rows w)) ∧
  null_id (table_rows w1) = null_id (table_rows w) ++ null_id (input_rows w) ∧
  (∀ w2, load_data w1 = Ok tt w2 →
         null_id (table_rows w2) =
         null_id (table_rows w) ++ null_id (input_rows w) ++ null_id (input_rows w)).
Proof.
  intros Hload. split; [|split; [|split]].
  - intros tbl r. apply id_exists_null.
  - intros r Hr Hnull. apply elem_of_new_rows. split; [done|].
    by apply id_exists_null.
  - rewrite (table_rows_after_load w w1 Hload), null_id_app.
    by rewrite null_id_new_rows.
  - intros w2 Hload2.
    rewrite (table_rows_after_load w1 w2 Hload2), null_id_app, null_id_new_rows.
    rewrite (table_rows_after_load w w1 Hload), null_id_app, null_id_new_rows.
    apply load_data_ok in Hload as (_ & Hfs & _).
    assert (input_rows w1 = input_rows w) as -> by (unfold input_rows; by rewrite Hfs).
    by rewrite <- (assoc_L (++)).
Qed.

Lemma null_id_rows_always_inserted_witness :
  (∀ tbl r, Trip_Id r = None → id_exists tbl r = false) ∧
  (∀ r, r ∈ input_rows w_null → Trip_Id r = None →
        r ∈ new_rows (table_rows w_null) (input_rows w_null)) ∧
  null_id (table_rows (after load_data w_null)) =
    null_id (table_rows w_null) ++ null_id (input_rows w_null) ∧
  (∀ w2, load_data (after load_data w_null) = Ok tt w2 →
         null_id (table_rows w2) =
         null_id (table_rows w_null) ++ null_id (input_rows w_null)
           ++ null_id (input_rows w_null)).
Proof.
  apply (null_id_rows_always_inserted w_null (after load_data w_null)).
  apply returns_after. vm_compute. reflexivity.
Defined.

(** ** Types that already exist *)

Lemma create_and_insert_reaches_insert w :
  is_Some (types (db w) !! "user"%string) →
  is_Some (types (db w) !! "bike"%string) →
  create_and_insert w = insert_and_report (before_insert w).
Proof.
  intros [u Hu] [b Hb]. unfold create_and_insert, insert_and_report, before_insert.
  rewrite bind_eq, log_eq, bind_eq, create_table_eq. simpl types.
  rewrite Hu, Hb. by rewrite bind_eq, log_eq.
Qed.

(** C4: with both categorical types present, the failure of the first
    [CREATE TYPE] is caught and logged at INFO level and the run goes on:
    what is left of [load_data] runs in the world the handler leaves, the
    table statement passes, and the [INSERT] is reached with the table in
    place, so that the outcome of the load is that of the [INSERT] and its
    report.  Whatever that outcome, the catalog's types are as before, the
    table exists, and the log shows the handler's line followed by those of
    the two statements. *)
Theorem existing_types_do_not_stop_load w :
  is_Some (types (db w) !! "user"%string) →
  is_Some (types (db w) !! "bike"%string) →
  declare_types w = Ok tt (emit already_defined w) ∧
  load_data w = create_and_insert (emit already_defined w) ∧
  load_data w = insert_and_report (before_insert (emit already_defined w)) ∧
  types (db (before_insert (emit already_defined w))) = types (db w) ∧
  tbs_trips (db (before_insert (emit already_defined w))) = Some (table_rows w) ∧
  types (db (after load_data w)) = types (db w) ∧
  is_Some (tbs_trips (db (after load_data w))) ∧
  ∃ rest, trace (after load_data w) =
          trace w ++ [already_defined;
                      Log DEBUG "Creating table tbs_trips";
                      Log INFO "Inserting new data"] ++ rest.
Proof.
  intros [u Hu] [b Hb].
  assert (declare_types w = Ok tt (emit already_defined w)) as Hd
    by (by rewrite declare_types_eq, Hu).
  assert (load_data w = create_and_insert (emit already_defined w)) as Hl
    by (by rewrite load_data_eq, bind_eq, Hd).
  destruct (before_insert_frame (emit already_defined w)) as (_ & _ & Hty).
  split; [done|]. split; [done|]. split.
  { rewrite Hl. apply create_and_insert_reaches_insert; simpl; rewrite ?Hu, ?Hb; eauto. }
  split; [done|]. split.
  { unfold before_insert. simpl. by rewrite tbs_trips_ensure. }
  unfold after. rewrite Hl, create_and_insert_eq. simpl types. rewrite Hu, Hb.
  simpl fs.
  case_decide.
  - simpl out. rewrite Hty. split; [done|].
    split.
    + unfold before_insert. simpl. rewrite tbs_trips_ensure. eauto.
    + exists []. unfold before_insert. simpl. rewrite trace_ensure. simpl.
      by rewrite <- !(assoc_L (++)).
  - simpl out. unfold after_insert. simpl.
    rewrite ?types_ensure. split; [done|]. split; [eauto|].
    eexists [_]. rewrite trace_ensure. simpl.
    by rewrite <- !(assoc_L (++)).
Qed.

Lemma existing_types_do_not_stop_load_witness :
  declare_types (after load_data w_plain) =
    Ok tt (emit already_defined (after load_data w_plain)) ∧
  load_data (after load_data w_plain) =
    create_and_insert (emit already_defined (after load_data w_plain)) ∧
  load_data (after load_data w_plain) =
    insert_and_report (before_insert (emit already_defined (after load_data w_plain))) ∧
  types (db (before_insert (emit already_defined (after load_data w_plain)))) =
    types (db (after load_data w_plain)) ∧
  tbs_trips (db (before_insert (emit already_defined (after load_data w_plain)))) =
    Some (table_rows (after load_data w_plain)) ∧
  types (db (after load_data (after load_data w_plain))) =
    types (db (after load_data w_plain)) ∧
  is_Some (tbs_trips (db (after load_data (after load_data w_plain)))) ∧
  ∃ rest, trace (after load_data (after load_data w_plain)) =
          trace (after load_data w_plain) ++
            [already_defined;
             Log DEBUG "Creating table tbs_trips";
             Log INFO "Inserting new data"] ++ rest.
Proof.
  apply (existing_types_do_not_stop_load (after load_data w_plain)).
  - vm_compute. eauto.
  - vm_compute. eauto.
Defined.

(** ** Export *)

Global Instance id_le_trans : Transitive id_le.
Proof. intros [x|] [y|] [z|]; simpl; try done; lia. Qed.

Global Instance id_le_total : Total id_le.
Proof. intros [x|] [y|]; simpl; try tauto; lia. Qed.

Global Instance row_le_trans : Transitive row_le.
Proof. intros r1 r2 r3. unfold row_le. apply id_le_trans. Qed.

Global Instance row_le_total : Total row_le.
Proof. intros r1 r2. unfold row_le. apply id_le_total. Qed.

Lemma order_by_trip_id_sorted tbl : StronglySorted row_le (order_by_trip_id tbl).
Proof. apply StronglySorted_merge_sort; apply _. Qed.

Lemma order_by_trip_id_perm tbl : order_by_trip_id tbl ≡ₚ tbl.
Proof. apply merge_sort_Permutation. Qed.

Lemma Path_export : Path "./data/tbs.parquet" = ["data"; "tbs.parquet"]%string.
Proof. reflexivity. Qed.

Lemma Path_data : Path "data" = ["data"%string].
Proof. reflexivity. Qed.

(** C8: whatever the table holds, and whether or not an earlier export is
    there, the export returns and leaves at [data/tbs.parquet] one
    zstd-compressed file holding exactly the table's rows (a permutation,
    so the same count) in ascending order of trip identifier; nothing else
    on disk and nothing in the database changes. *)
Theorem export_writes_all_rows_sorted w tbl :
  tbs_trips (db w) = Some tbl →
  fs w !! Path "data" = Some D →
  fs w !! Path "./data/tbs.parquet" ≠ Some D →
  ∃ rows w',
    export_as_parquet w = Ok tt w' ∧
    fs w' = <[Path "./data/tbs.parquet" := F (Parquet "zstd" 3 rows)]> (fs w) ∧
    rows ≡ₚ tbl ∧
    length rows = length tbl ∧
    StronglySorted row_le rows ∧
    db w' = db w.
Proof.
  intros Htbl Hdir Hnd. exists (order_by_trip_id tbl).
  exists (set_fs (<[Path "./data/tbs.parquet" :=
                     F (Parquet "zstd" 3 (order_by_trip_id tbl))]> (fs w))
            (emit (Log INFO "Saving to parquet") w)).
  unfold export_as_parquet. rewrite bind_eq, log_eq.
  unfold copy_to_parquet. simpl db. rewrite Htbl. simpl fs.
  unfold write_file. rewrite Path_export in *. rewrite Path_data in Hdir.
  change (parent ["data"; "tbs.parquet"]%string) with ["data"%string].
  rewrite Hdir.
  split.
  - destruct (fs w !! ["data"; "tbs.parquet"]%string) as [[c|]|] eqn:E;
      try reflexivity. by destruct Hnd.
  - simpl. split; [done|]. split; [apply order_by_trip_id_perm|].
    split; [by rewrite order_by_trip_id_perm|].
    split; [apply order_by_trip_id_sorted|done].
Qed.

Lemma export_writes_all_rows_sorted_witness :
  ∃ rows w',
    export_as_parquet (after load_data w_overlap) = Ok tt w' ∧
    fs w' = <[Path "./data/tbs.parquet" := F (Parquet "zstd" 3 rows)]>
              (fs (after load_data w_overlap)) ∧
    rows ≡ₚ [trip (Some 1) 10; trip (Some 2) 30; trip (Some 1) 20; trip (Some 3) 5] ∧
    length rows =
      length [trip (Some 1) 10; trip (Some 2) 30; trip (Some 1) 20; trip (Some 3) 5] ∧
    StronglySorted row_le rows ∧
    db w' = db (after load_data w_overlap).
Proof.
  apply (export_writes_all_rows_sorted (after load_data w_overlap)).
  - vm_compute. reflexivity.
  - vm_compute. reflexivity.
  - vm_compute. discriminate.
Defined.

(** ** Local steps *)

Global Instance local_step_refl : Reflexive local_step.
Proof. by intros w. Qed.

Global Instance local_step_trans : Transitive local_step.
Proof.
  intros w1 w2 w3 (H1 & H2 & H3) (H4 & H5 & H6). unfold local_step.
  by rewrite H4, H5, H6.
Qed.

Lemma local_bind {A B} (m : M A) (k : A → M B) :
  local m → (∀ a, local (k a)) → local (m ≫= k).
Proof.
  intros Hm Hk w. rewrite bind_eq. specialize (Hm w).
  destruct (m w) as [a w1|e w1]; [|done].
  etrans; [exact Hm|apply Hk].
Qed.

Lemma local_ret {A} (a : A) : local (mret a).
Proof. by intros w. Qed.

Lemma local_raise {A} e : local (raise (A := A) e).
Proof. by intros w. Qed.

Lemma gets_snoc_log t lvl msg : gets (t ++ [Log lvl msg]) = gets t.
Proof. unfold gets. rewrite omap_app. simpl. by rewrite app_nil_r. Qed.

Lemma gets_snoc_get t u n : gets (t ++ [HttpGet u n]) = gets t ++ [u].
Proof. unfold gets. by rewrite omap_app. Qed.

Lemma local_log lvl msg : local (log lvl msg).
Proof.
  intros w. rewrite log_eq. repeat split. simpl. apply gets_snoc_log.
Qed.

Lemma local_lift_fs op : local (lift_fs op).
Proof. intros w. unfold lift_fs. by destruct (op (fs w)). Qed.

Lemma local_for_each {A} (xs : list A) body :
  (∀ x, local (body x)) → local (for_each xs body).
Proof.
  intros Hb. induction xs as [|x xs IH]; simpl.
  - apply (local_ret tt).
  - apply local_bind; [apply Hb|by intros _].
Qed.

Lemma local_walk depth top body :
  (∀ top dirs files, local (body top dirs files)) → local (walk depth top body).
Proof.
  intros Hb. revert top.
  induction depth as [|n IH]; intros top w; simpl;
    destruct (fs w !! top) as [[c|]|]; try done.
  apply (local_bind (body top _ _)); [apply Hb|intros _].
  apply local_for_each. intros d. apply IH.
Qed.

Lemma local_os_walk top body :
  (∀ top dirs files, local (body top dirs files)) → local (os_walk top body).
Proof. intros Hb w. unfold os_walk. by apply local_walk. Qed.

Lemma local_extractall ms dest : local (extractall ms dest).
Proof. apply local_for_each. intros m. apply local_lift_fs. Qed.

Lemma local_ZipFile_bytes c : local (ZipFile_bytes c).
Proof. intros w. by destruct c. Qed.

Lemma local_ZipFile_open p : local (ZipFile_open p).
Proof.
  intros w. unfold ZipFile_open. destruct (fs w !! p) as [[c|]|]; try done.
  apply local_ZipFile_bytes.
Qed.

Lemma local_flatten_dir root dirs files : local (flatten_dir root dirs files).
Proof.
  apply local_bind; [|intros _; apply local_lift_fs].
  apply local_for_each. intros f. apply local_lift_fs.
Qed.

Lemma local_unpack_nested : local unpack_nested.
Proof.
  apply local_bind; [apply local_ZipFile_open|]. intros z.
  apply local_bind; [apply local_extractall|]. intros _. apply local_lift_fs.
Qed.

Lemma local_remove_csv_dir root dirs files : local (remove_csv_dir root dirs files).
Proof.
  apply local_for_each. intros f. apply local_bind; [by intros w|].
  intros b. destruct (b && _); [apply local_lift_fs|apply (local_ret tt)].
Qed.

Lemma local_remove_csv : local remove_csv.
Proof.
  apply local_bind; [apply local_log|]. intros _.
  apply local_os_walk, local_remove_csv_dir.
Qed.

(** What follows the request in one iteration of [download_data]. *)
Lemma local_after_request unzip year (r : http_response) :
  local (z ← ZipFile_bytes (r_content r);
         extractall z (Path "data") ;;
         if negb unzip then mret tt
         else
           (if bool_decide (year = BAD_YEAR) then unpack_nested else mret tt) ;;
           (if bool_decide (year ∈ REMOVE_FOLDER)
            then os_walk (Path (year_folder year)) flatten_dir
            else mret tt)).
Proof.
  apply local_bind; [apply local_ZipFile_bytes|]. intros z.
  apply local_bind; [apply local_extractall|]. intros _.
  destruct (negb unzip); [apply (local_ret tt)|].
  apply local_bind.
  - case_bool_decide; [apply local_unpack_nested|apply (local_ret tt)].
  - intros _. case_bool_decide; [|apply (local_ret tt)].
    apply local_os_walk, local_flatten_dir.
Qed.

(** ** Downloads: one request per year, in order *)

Lemma download_year_eq unzip item w :
  download_year unzip item w =
  let w1 := emit (HttpGet (archive_url item.1 item.2) 60)
              (emit (Log INFO ("Downloading data for year: " +:+ pretty item.1)) w) in
  match remote w (archive_url item.1 item.2) with
  | Unreachable => Raise RequestException w1
  | Response st b =>
      (z ← ZipFile_bytes b;
       extractall z (Path "data") ;;
       if negb unzip then mret tt
       else
         (if bool_decide (item.1 = BAD_YEAR) then unpack_nested else mret tt) ;;
         (if bool_decide (item.1 ∈ REMOVE_FOLDER)
          then os_walk (Path (year_folder item.1)) flatten_dir
          else mret tt)) w1
  end.
Proof.
  unfold download_year. rewrite bind_eq, log_eq, bind_eq. unfold requests_get.
  simpl remote. by destruct (remote w _).
Qed.

(** Each iteration sends exactly one request, for its own year. *)
Lemma download_year_gets unzip item w :
  remote (out (download_year unzip item w)) = remote w ∧
  db (out (download_year unzip item w)) = db w ∧
  gets (trace (out (download_year unzip item w))) =
    gets (trace w) ++ [archive_url item.1 item.2].
Proof.
  rewrite download_year_eq. cbv zeta.
  set (w1 := emit _ (emit _ w)).
  assert (gets (trace w1) = gets (trace w) ++ [archive_url item.1 item.2]) as Hg.
  { unfold w1. simpl. by rewrite gets_snoc_get, gets_snoc_log. }
  destruct (remote w _) as [|st b]; [done|].
  destruct (local_after_request unzip item.1 (HttpResponse st b) w1) as (H1 & H2 & H3).
  simpl r_content in *. by rewrite H1, H2, H3.
Qed.

Lemma for_each_cons {A} (x : A) xs body w :
  for_each (x :: xs) body w =
  match body x w with
  | Ok _ w1 => for_each xs body w1
  | Raise e w1 => Raise e w1
  end.
Proof. done. Qed.

(** The requests of a run are, in order, those of an initial stretch of
    the requested years; the run returns only if it got through them all
    with every iteration returning. *)
Lemma download_loop_gets unzip items w :
  remote (out (for_each items (download_year unzip) w)) = remote w ∧
  ∃ done_,
    done_ `prefix_of` items ∧
    gets (trace (out (for_each items (download_year unzip) w))) =
      gets (trace w) ++ ((λ it, archive_url it.1 it.2) <$> done_) ∧
    (returns (for_each items (download_year unzip) w) = true → done_ = items).
Proof.
  revert w. induction items as [|it items IH]; intros w.
  - split; [done|]. exists []. simpl. by rewrite app_nil_r.
  - rewrite for_each_cons.
    destruct (download_year_gets unzip it w) as (Hr & _ & Hg).
    destruct (download_year unzip it w) as [[] w1|e w1] eqn:E; simpl in Hr, Hg.
    + destruct (IH w1) as (Hr1 & done_ & Hpre & Hg1 & Hret).
      split; [by rewrite Hr1|]. exists (it :: done_).
      split; [by apply prefix_cons|]. split.
      * rewrite Hg1, Hg. simpl. by rewrite <- (assoc_L (++)).
      * intros Hok. by rewrite (Hret Hok).
    + split; [done|]. exists [it]. split; [apply prefix_cons, prefix_nil|].
      split; [done|]. simpl. discriminate.
Qed.

Lemma download_data_eq years unzip w :
  download_data years unzip w =
  for_each (requested years) (download_year unzip)
    (emit (Log INFO "Beginning data download") w).
Proof. done. Qed.

Lemma archive_urls_distinct :
  NoDup ((λ it : Z * string, archive_url it.1 it.2) <$> YEAR_MAP).
Proof. apply (bool_decide_unpack _). by vm_compute. Qed.

Lemma requested_sublist years : requested years `sublist_of` YEAR_MAP.
Proof. apply sublist_filter. Qed.

(** A run never asks for the same archive twice. *)
Lemma download_data_gets years unzip w :
  ∃ done_,
    done_ `prefix_of` requested years ∧
    gets (trace (after (download_data years unzip) w)) =
      gets (trace w) ++ ((λ it, archive_url it.1 it.2) <$> done_) ∧
    NoDup ((λ it : Z * string, archive_url it.1 it.2) <$> done_) ∧
    (returns (download_data years unzip w) = true → done_ = requested years).
Proof.
  unfold after. rewrite download_data_eq.
  destruct (download_loop_gets unzip (requested years)
              (emit (Log INFO "Beginning data download") w))
    as (_ & done_ & Hpre & Hg & Hret).
  exists done_. split; [done|]. split.
  - rewrite Hg. simpl. by rewrite gets_snoc_log.
  - split; [|done].
    eapply sublist_NoDup; [apply archive_urls_distinct|].
    apply fmap_sublist. trans (requested years); [|apply requested_sublist].
    destruct Hpre as [k Hk]. rewrite Hk. by apply sublist_inserts_r.

Qed.

Lemma download_loop_returns unzip items w :
  returns (for_each items (download_year unzip) w) = true →
  ∀ it, it ∈ items →
    ∃ w1, remote w1 = remote w ∧ returns (download_year unzip it w1) = true.
Proof.
  revert w. induction items as [|it0 items IH]; intros w Hret it Hin.
  - by apply not_elem_of_nil in Hin.
  - rewrite for_each_cons in Hret.
    destruct (download_year_gets unzip it0 w) as (Hr & _).
    destruct (download_year unzip it0 w) as [[] w1|e w1] eqn:E; [|done].
    apply elem_of_cons in Hin as [->|Hin].
    + exists w. by rewrite E.
    + destruct (IH w1 Hret it Hin) as (w2 & Hr2 & Hok).
      exists w2. split; [|done]. simpl in Hr. by rewrite Hr2.
Qed.

(** A loop that raises does so in one iteration, after all the earlier
    ones have returned; nothing of the later ones runs. *)
Lemma for_each_raises {A} (body : A → M unit) xs : ∀ w e w2,
  for_each xs body w = Raise e w2 →
  ∃ pre it post w1,
    xs = pre ++ it :: post ∧
    for_each pre body w = Ok tt w1 ∧
    body it w1 = Raise e w2.
Proof.
  induction xs as [|x xs IH]; intros w e w2; [done|].
  rewrite for_each_cons. destruct (body x w) as [[] w1|e1 w1] eqn:Hx.
  - intros (pre & it & post & w1' & -> & Hpre & Hit)%IH.
    exists (x :: pre), it, post, w1'. split_and!; [done| |done].
    by rewrite for_each_cons, Hx.
  - intros [= -> ->]. exists [], x, xs, w. by split_and!.
Qed.

Lemma download_year_response unzip item w st b :
  remote w (url_of item) = Response st b →
  download_year unzip item w = extract_and_fix unzip item.1 b (requested_in item w).
Proof. intros Hr. rewrite download_year_eq. cbv zeta. unfold url_of in Hr. by rewrite Hr. Qed.

Lemma download_loop_ok_gets unzip items w w1 :
  for_each items (download_year unzip) w = Ok tt w1 →
  remote w1 = remote w ∧
  gets (trace w1) = gets (trace w) ++ (url_of <$> items).
Proof.
  intros Hok.
  destruct (download_loop_gets unzip items w) as (Hr & d & _ & Hg & Hall).
  rewrite Hok in Hr, Hg, Hall. simpl in *. by rewrite (Hall eq_refl) in Hg.
Qed.

Lemma prefix_urls_distinct years (pre : list (Z * string)) it post :
  requested years = pre ++ it :: post →
  NoDup (url_of <$> (pre ++ it :: post)).
Proof.
  intros <-. apply (sublist_NoDup _ (url_of <$> YEAR_MAP)).
  - apply archive_urls_distinct.
  - apply fmap_sublist, requested_sublist.
Qed.

(** C3, as the code has it.  When the request for a requested year fails
    in transit, or its response body is not a zip archive, the run raises.
    It stops in the first iteration that raises: the years before it have
    each been fetched once, that year once, and no later year at all, and
    the exception leaves [download_data] in the world that iteration
    raised in.  The given year is not among those that returned: it is
    the one the run stops at, or a later one that is never fetched.  When
    it is the one the run stops at, the exception is that of the request
    or of the archive reader and is raised right after the single request.
    The status code is never looked at: whatever it is, an iteration goes
    on with the body it received. *)
Theorem failed_fetch_aborts_without_retry years unzip w year rid :
  (year, rid) ∈ requested years →
  (remote w (archive_url year rid) = Unreachable ∨
   ∃ st b, remote w (archive_url year rid) = Response st b ∧ ∀ ms, b ≠ Zip ms) →
  (∃ pre it post w1 e w2,
     requested years = pre ++ it :: post ∧
     for_each pre (download_year unzip)
       (emit (Log INFO "Beginning data download") w) = Ok tt w1 ∧
     download_year unzip it w1 = Raise e w2 ∧
     download_data years unzip w = Raise e w2 ∧
     gets (trace w2) = gets (trace w) ++ (url_of <$> pre) ++ [url_of it] ∧
     NoDup ((url_of <$> pre) ++ [url_of it]) ∧
     (∀ later, later ∈ post → url_of later ∉ (url_of <$> pre) ++ [url_of it]) ∧
     ((year, rid) ∉ pre) ∧
     (it = (year, rid) ∨ (year, rid) ∈ post) ∧
     (it = (year, rid) →
      (e = RequestException ∨ e = BadZipFile) ∧ w2 = requested_in (year, rid) w1)) ∧
  (∀ st b w1,
     remote w1 (archive_url year rid) = Response st b →
     download_year unzip (year, rid) w1 =
       extract_and_fix unzip year b (requested_in (year, rid) w1)).
Proof.
  intros Hin Hfail.
  assert (∀ w1, remote w1 = remote w →
     ∃ e, (e = RequestException ∨ e = BadZipFile) ∧
          download_year unzip (year, rid) w1 = Raise e (requested_in (year, rid) w1))
    as Hstep.
  { intros w1 Hr. rewrite download_year_eq. cbv zeta. simpl fst. simpl snd.
    rewrite Hr. destruct Hfail as [->|(st & b & -> & Hb)].
    - exists RequestException. by split; [left|].
    - exists BadZipFile. split; [by right|]. rewrite bind_eq.
      destruct b as [ls|ms|cd lv rs]; try done. by destruct (Hb ms). }
  split; [|intros st b w1 Hr; by apply (download_year_response unzip (year, rid) w1 st)].
  set (w0 := emit (Log INFO "Beginning data download") w).
  destruct (for_each (requested years) (download_year unzip) w0) as [[] w'|e w2] eqn:Hrun.
  { assert (returns (for_each (requested years) (download_year unzip) w0) = true)
      as Hret by (by rewrite Hrun).
    destruct (download_loop_returns _ _ _ Hret _ Hin) as (w1 & Hr & Hok).
    destruct (Hstep w1 Hr) as (e & _ & He). by rewrite He in Hok. }
  destruct (for_each_raises _ _ _ _ _ Hrun) as (pre & it & post & w1 & Hsplit & Hpre & Hit).
  destruct (download_loop_ok_gets _ _ _ _ Hpre) as (Hr1 & Hg1).
  pose proof (prefix_urls_distinct _ _ _ _ Hsplit) as Hnd.
  rewrite fmap_app, fmap_cons in Hnd.
  assert ((year, rid) ∉ pre) as Hnotpre.
  { intros Hp.
    assert (returns (for_each pre (download_year unzip) w0) = true) as Hret
      by (by rewrite Hpre).
    destruct (download_loop_returns _ _ _ Hret _ Hp) as (w1' & Hr & Hok).
    destruct (Hstep w1' Hr) as (e' & _ & He). by rewrite He in Hok. }
  exists pre, it, post, w1, e, w2.
  split_and!; [exact Hsplit|exact Hpre|exact Hit|..].
  - by rewrite download_data_eq.
  - destruct (download_year_gets unzip it w1) as (_ & _ & Hg).
    rewrite Hit in Hg. simpl in Hg. rewrite Hg, Hg1.
    unfold w0. simpl. rewrite gets_snoc_log. by rewrite <- app_assoc.
  - apply NoDup_app in Hnd as (Hn1 & Hn2 & Hn3). apply NoDup_app. split_and!; [done| |].
    + intros u Hu [->|[]%not_elem_of_nil]%elem_of_cons. apply (Hn2 _ Hu). left.
    + apply NoDup_singleton.
  - intros later Hl [Hu|Hu]%elem_of_app.
    + apply NoDup_app in Hnd as (_ & Hn2 & _). apply (Hn2 _ Hu).
      right. apply list_elem_of_fmap. eauto.
    + apply list_elem_of_singleton in Hu.
      apply NoDup_app in Hnd as (_ & _ & Hn3). apply NoDup_cons in Hn3 as [Hn3 _].
      apply Hn3. rewrite <- Hu. apply list_elem_of_fmap. eauto.
  - intros Hp. by apply Hnotpre.
  - rewrite Hsplit in Hin.
    apply elem_of_app in Hin as [Hp|[->|Hp]%elem_of_cons]; [|by left|by right].
    by destruct (Hnotpre Hp).
  - intros ->. destruct (Hstep w1 Hr1) as (e' & He' & He).
    rewrite He in Hit. injection Hit as <- <-. done.
Qed.

Lemma failed_fetch_aborts_without_retry_witness :
  (∃ pre it post w1 e w2,
     requested [2021; 2022] = pre ++ it :: post ∧
     for_each pre (download_year true)
       (emit (Log INFO "Beginning data download") w_overlap) = Ok tt w1 ∧
     download_year true it w1 = Raise e w2 ∧
     download_data [2021; 2022] true w_overlap = Raise e w2 ∧
     gets (trace w2) = gets (trace w_overlap) ++ (url_of <$> pre) ++ [url_of it] ∧
     NoDup ((url_of <$> pre) ++ [url_of it]) ∧
     (∀ later, later ∈ post → url_of later ∉ (url_of <$> pre) ++ [url_of it]) ∧
     ((2021, "ddc039f6-07fa-47a3-a707-0121ade3b307"%string) ∉ pre) ∧
     (it = (2021, "ddc039f6-07fa-47a3-a707-0121ade3b307"%string) ∨
      (2021, "ddc039f6-07fa-47a3-a707-0121ade3b307"%string) ∈ post) ∧
     (it = (2021, "ddc039f6-07fa-47a3-a707-0121ade3b307"%string) →
      (e = RequestException ∨ e = BadZipFile) ∧
      w2 = requested_in (2021, "ddc039f6-07fa-47a3-a707-0121ade3b307"%string) w1)) ∧
  (∀ st b w1,
     remote w1 (archive_url 2021 "ddc039f6-07fa-47a3-a707-0121ade3b307") =
       Response st b →
     download_year true (2021, "ddc039f6-07fa-47a3-a707-0121ade3b307"%string) w1 =
       extract_and_fix true 2021 b
         (requested_in (2021, "ddc039f6-07fa-47a3-a707-0121ade3b307"%string) w1)).
Proof.
  apply (failed_fetch_aborts_without_retry [2021; 2022] true w_overlap 2021
           "ddc039f6-07fa-47a3-a707-0121ade3b307").
  - apply (bool_decide_unpack _). vm_compute. reflexivity.
  - left. reflexivity.
Defined.

(** At the sample world without a network the run for 2021 and 2022 ends
    with the one request for 2021: 2022 is never asked for. *)
Example offline_run_sends_one_request :
  raised (download_data [2021; 2022] true w_overlap) = Some RequestException ∧
  gets (trace (after (download_data [2021; 2022] true) w_overlap)) =
    [archive_url 2021 "ddc039f6-07fa-47a3-a707-0121ade3b307"].
Proof. vm_compute. done. Qed.

(** C3 as stated fails: a response with a non-success status whose body is
    a zip archive is extracted like any other. *)
Lemma non_success_status_is_not_checked :
  ¬ (∀ years unzip w year rid st b,
       (year, rid) ∈ requested years →
       remote w (archive_url year rid) = Response st b →
       400 ≤ st →
       returns (download_data years unzip w) = false).
Proof.
  intros H.
  specialize (H [2021] true w_not_found 2021
                "ddc039f6-07fa-47a3-a707-0121ade3b307"%string 404 flat_archive).
  assert (returns (download_data [2021] true w_not_found) = true) as Hok
    by (vm_compute; reflexivity).
  rewrite H in Hok; [discriminate Hok| |reflexivity|lia].
  apply (bool_decide_unpack _). vm_compute. reflexivity.
Qed.

(** ** The unzip flag set to false *)

Lemma for_each_ext {A} (xs : list A) (b1 b2 : A → M unit) w :
  (∀ x w, b1 x w = b2 x w) → for_each xs b1 w = for_each xs b2 w.
Proof.
  intros Hb. revert w. induction xs as [|x xs IH]; intros w; [done|].
  rewrite !for_each_cons, Hb. destruct (b2 x w); [apply IH|done].
Qed.

Lemma bind_ret_tt (m : M unit) w : (m ;; mret tt) w = m w.
Proof. rewrite bind_eq. by destruct (m w) as [[] ?|]. Qed.

Lemma download_year_no_unzip item w :
  download_year false item w = fetch_and_extract item w.
Proof.
  unfold download_year, fetch_and_extract.
  rewrite !(bind_eq (log _ _)), !log_eq, !(bind_eq (requests_get _ _)).
  destruct (requests_get _ _ _) as [r w1|]; [|done].
  rewrite !(bind_eq (ZipFile_bytes _)).
  destruct (ZipFile_bytes _ _) as [z w2|]; [|done].
  apply bind_ret_tt.
Qed.

Global Instance grows_refl : Reflexive grows.
Proof. intros f p. destruct (f !! p) as [[c|]|]; eauto. Qed.

Global Instance grows_trans : Transitive grows.
Proof.
  intros f1 f2 f3 H12 H23 p. specialize (H12 p). specialize (H23 p).
  destruct (f1 !! p) as [[c|]|]; [|by rewrite H12 in H23|done].
  destruct H12 as [c2 H12]. by rewrite H12 in H23.
Qed.

Lemma grows_insert_fresh f p n : f !! p = None → grows f (<[p := n]> f).
Proof.
  intros Hp q. destruct (decide (p = q)) as [->|Hne].
  - by rewrite Hp.
  - rewrite lookup_insert_ne by done. destruct (f !! q) as [[c|]|]; eauto.
Qed.

Lemma grows_insert_file f p c :
  f !! p ≠ Some D → grows f (<[p := F c]> f).
Proof.
  intros Hp q. destruct (decide (p = q)) as [->|Hne].
  - rewrite lookup_insert_eq. destruct (f !! q) as [[c'|]|]; eauto. by destruct Hp.
  - rewrite lookup_insert_ne by done. destruct (f !! q) as [[c'|]|]; eauto.
Qed.

Lemma makedirs_from_grows rest pre f f' :
  makedirs_from pre rest f = inr f' → grows f f'.
Proof.
  revert pre f. induction rest as [|c rest IH]; intros pre f; simpl.
  - destruct (f !! pre) as [[c|]|] eqn:E; intros [= <-]; [done|].
    by apply grows_insert_fresh.
  - destruct (f !! pre) as [[c'|]|] eqn:E; [done| |]; intros H%IH; [done|].
    etrans; [|exact H]. by apply grows_insert_fresh.
Qed.

Lemma write_file_grows p c f f' : write_file p c f = inr f' → grows f f'.
Proof.
  unfold write_file. destruct (f !! parent p) as [[c'|]|]; try done.
  destruct (f !! p) as [[c'|]|] eqn:E; try done; intros [= <-];
    apply grows_insert_file; by rewrite E.
Qed.

Lemma mkdir_if_absent_grows p f f' : mkdir_if_absent p f = inr f' → grows f f'.
Proof.
  unfold mkdir_if_absent. destruct (f !! p) as [[c'|]|] eqn:E; try done;
    intros [= <-]; [done|]. by apply grows_insert_fresh.
Qed.

Lemma extract_member_grows dest m f f' :
  extract_member_fs dest m f = inr f' → grows f f'.
Proof.
  unfold extract_member_fs, makedirs.
  destruct (makedirs_from _ _ f) as [e|f1] eqn:E; [done|].
  apply makedirs_from_grows in E. intros H. etrans; [exact E|].
  destruct (is_dir_member m.1).
  - by apply mkdir_if_absent_grows in H.
  - by apply write_file_grows in H.
Qed.

Lemma extractall_grows ms dest w : grows (fs w) (fs (out (extractall ms dest w))).
Proof.
  unfold extractall. revert w. induction ms as [|m ms IH]; intros w; [done|].
  rewrite for_each_cons. unfold lift_fs at 1.
  destruct (extract_member_fs dest m (fs w)) as [e|f1] eqn:E; [done|].
  apply extract_member_grows in E. etrans; [exact E|]. apply (IH (set_fs f1 w)).
Qed.

Lemma fetch_and_extract_grows item w :
  grows (fs w) (fs (out (fetch_and_extract item w))).
Proof.
  unfold fetch_and_extract. rewrite bind_eq, log_eq, bind_eq.
  unfold requests_get. simpl remote. destruct (remote w _) as [|st b]; [done|].
  rewrite bind_eq. destruct b as [ls|ms|cd lv rs]; try done.
  apply (extractall_grows ms _ (emit _ (emit _ w))).
Qed.

Lemma for_each_grows {A} (xs : list A) body w :
  (∀ x w, grows (fs w) (fs (out (body x w)))) →
  grows (fs w) (fs (out (for_each xs body w))).
Proof.
  intros Hb. revert w. induction xs as [|x xs IH]; intros w; [done|].
  rewrite for_each_cons. specialize (Hb x w).
  destruct (body x w) as [[] w1|e w1]; [|done]. etrans; [exact Hb|apply IH].
Qed.

(** C5: with the unzip flag false a run is exactly the fetch and the
    top-level extraction of each requested year, one after the other, and
    nothing that was on disk is removed, moved or turned into something
    else: every entry present before is still there, with its kind, when
    the run ends (so a nested archive the extraction wrote stays a file,
    and no folder is flattened or removed). *)
Theorem unzip_false_only_extracts years w :
  download_data years false w =
    (log INFO "Beginning data download" ;;
     for_each (requested years) fetch_and_extract) w ∧
  grows (fs w) (fs (after (download_data years false) w)).
Proof.
  assert (download_data years false w =
    (log INFO "Beginning data download" ;;
     for_each (requested years) fetch_and_extract) w) as Heq.
  { unfold download_data. rewrite !bind_eq, !log_eq.
    apply for_each_ext. apply download_year_no_unzip. }
  split; [done|]. unfold after. rewrite Heq, bind_eq, log_eq.
  apply (for_each_grows _ _ (emit _ w)). apply fetch_and_extract_grows.
Qed.

(** The designated year, unzip false: the nested archive is where the
    extraction put it, still an archive, next to the other file. *)
Example nested_archive_left_in_place :
  let w' := after (download_data [2022] false) w_2022 in
  returns (download_data [2022] false w_2022) = true ∧
  fs w' !! Path jank_file = Some (F nested_archive) ∧
  fs w' !! (Path "data/bikeshare-ridership-2022" ++ ["Bike share ridership 2022-01.csv"%string])
    = Some (F csv_a) ∧
  fs w' !! (Path "data" ++ ["Bike share ridership 2022-11.csv"%string]) = None.
Proof. vm_compute. done. Qed.

(** ** Paths and directory listings *)

Lemma drop_prefix_Some pre p r : drop_prefix pre p = Some r ↔ p = pre ++ r.
Proof.
  revert p. induction pre as [|x pre IH]; intros p; simpl.
  - split; congruence.
  - destruct p as [|y p]; [split; [done|by intros [=]]|].
    case_decide as Hxy.
    + subst. rewrite IH. split; [by intros ->|by intros [= ->]].
    + split; [done|]. intros [= -> _]. done.
Qed.

Lemma child_name_Some top p x : child_name top p = Some x ↔ p = top ++ [x].
Proof.
  unfold child_name. destruct (drop_prefix top p) as [r|] eqn:E.
  - apply drop_prefix_Some in E as ->.
    destruct r as [|y [|z r]]; split; try done.
    + intros H%(f_equal length). rewrite !length_app in H. simpl in H. lia.
    + by intros [= ->].
    + by intros [= ->]%app_inv_head.
    + intros H%app_inv_head. done.
  - split; [done|]. intros ->.
    assert (drop_prefix top (top ++ [x]) = Some [x]) as E' by by apply drop_prefix_Some.
    congruence.
Qed.

Lemma elem_of_listdir f top x n :
  (x, n) ∈ listdir f top ↔ f !! (top ++ [x]) = Some n.
Proof.
  unfold listdir. rewrite list_elem_of_omap. split.
  - intros ([p m] & Hin & Hx). apply elem_of_map_to_list in Hin. simpl in Hx.
    destruct (child_name top p) as [y|] eqn:E; [|done].
    injection Hx as -> ->. apply child_name_Some in E as ->. done.
  - intros Hl. exists (top ++ [x], n). split; [by apply elem_of_map_to_list|].
    simpl. by rewrite (proj2 (child_name_Some top _ x) eq_refl).
Qed.

Lemma listdir_nil f top : listdir f top = [] ↔ ∀ x, f !! (top ++ [x]) = None.
Proof.
  split.
  - intros Hnil x. destruct (f !! (top ++ [x])) as [n|] eqn:E; [|done].
    apply elem_of_listdir in E. rewrite Hnil in E. by apply not_elem_of_nil in E.
  - intros Hall. destruct (listdir f top) as [|[x n] l] eqn:E; [done|].
    assert ((x, n) ∈ listdir f top) as Hin by (rewrite E; left).
    apply elem_of_listdir in Hin. by rewrite Hall in Hin.
Qed.

Lemma NoDup_listdir f top : NoDup (listdir f top).*1.
Proof.
  unfold listdir.
  pose proof (NoDup_fst_map_to_list f) as Hnd.
  induction (map_to_list f) as [|[p n] l IH]; simpl; [constructor|].
  apply NoDup_cons in Hnd as [Hp Hnd]. specialize (IH Hnd).
  destruct (child_name top p) as [x|] eqn:E; simpl; [|done].
  apply NoDup_cons. split; [|done].
  intros Hin. apply Hp.
  apply list_elem_of_fmap in Hin as ([y m] & Hy & Hin). simpl in Hy. subst y.
  apply list_elem_of_omap in Hin as ([q k] & Hq & Hx). simpl in Hx.
  destruct (child_name top q) as [y|] eqn:E'; [|done]. injection Hx as -> ->.
  apply child_name_Some in E as ->. apply child_name_Some in E' as ->.
  apply list_elem_of_fmap. by exists (top ++ [x], m).
Qed.

Lemma elem_of_subdirs f top x :
  x ∈ subdirs f top ↔ f !! (top ++ [x]) = Some D.
Proof.
  unfold subdirs. rewrite list_elem_of_fmap. split.
  - intros ([y n] & -> & Hin). apply list_elem_of_filter in Hin as [Hd Hin].
    apply elem_of_listdir in Hin. simpl in *. by destruct n.
  - intros Hl. exists (x, D). split; [done|]. apply list_elem_of_filter.
    split; [done|]. by apply elem_of_listdir.
Qed.

Lemma elem_of_nondirs f top x :
  x ∈ nondirs f top ↔ ∃ c, f !! (top ++ [x]) = Some (F c).
Proof.
  unfold nondirs. rewrite list_elem_of_fmap. split.
  - intros ([y n] & -> & Hin). apply list_elem_of_filter in Hin as [Hd Hin].
    apply elem_of_listdir in Hin. simpl in *. destruct n; [eauto|done].
  - intros [c Hl]. exists (x, F c). split; [done|]. apply list_elem_of_filter.
    split; [done|]. by apply elem_of_listdir.
Qed.

Lemma NoDup_nondirs f top : NoDup (nondirs f top).
Proof.
  unfold nondirs. pose proof (NoDup_listdir f top) as Hnd.
  induction (listdir f top) as [|[x n] l IH]; simpl; [constructor|].
  apply NoDup_cons in Hnd as [Hx Hnd]. rewrite filter_cons. simpl.
  destruct (decide _); simpl; [|by apply IH].
  apply NoDup_cons. split; [|by apply IH].
  intros Hin. apply Hx. apply list_elem_of_fmap in Hin as ([y m] & -> & Hin).
  apply list_elem_of_filter in Hin as [_ Hin]. apply list_elem_of_fmap.
  by exists (y, m).
Qed.

Lemma parent_snoc (p : path) x : parent (p ++ [x]) = p.
Proof. apply removelast_last. Qed.

Lemma wf_parent f p x : wf f → is_Some (f !! (p ++ [x])) → f !! p = Some D.
Proof.
  intros Hwf [n Hn]. destruct (Hwf _ _ Hn) as [Hnil|Hp].
  - by destruct p.
  - by rewrite parent_snoc in Hp.
Qed.

Lemma wf_inside f top p : wf f → inside top p → is_Some (f !! p) → f !! top = Some D.
Proof.
  intros Hwf (x & r & ->). revert x.
  induction r as [|y r IH] using rev_ind; intros x Hp.
  - by apply (wf_parent f top x).
  - apply (IH x). rewrite app_comm_cons, (assoc_L (++)) in Hp.
    apply (wf_parent f _ y) in Hp; [|done]. eauto.
Qed.

Lemma inside_snoc top x : inside top (top ++ [x]).
Proof. by exists x, []. Qed.

Lemma inside_cases top p :
  inside top p ↔ (∃ x, p = top ++ [x]) ∨ (∃ x, inside (top ++ [x]) p).
Proof.
  split.
  - intros (x & [|y r] & ->); [left; eauto|right]. exists x, y, r.
    by rewrite <- (assoc_L (++)).
  - intros [[x ->]|(x & y & r & ->)]; [apply inside_snoc|].
    exists x, (y :: r). by rewrite <- (assoc_L (++)).
Qed.

Lemma file_name_snoc (p : path) x : file_name (p ++ [x]) = x.
Proof. unfold file_name. by rewrite last_snoc. Qed.

Lemma depth_bound_spec f p : is_Some (f !! p) → (length p < depth_bound f)%nat.
Proof.
  intros [n Hn]. unfold depth_bound. apply Nat.lt_succ_r.
  apply max_list_elem_of_le. apply list_elem_of_fmap. exists p. split; [done|].
  apply list_elem_of_fmap. exists (p, n). split; [done|].
  by apply elem_of_map_to_list.
Qed.

(** ** Cleaning up CSV files *)

Lemma cleaned_same (S : path → Prop) f :
  (∀ p c, f !! p = Some (F c) → ¬ S p) → cleaned S f f.
Proof.
  intros HS. split; [by left|]. intros p c Hp _ Hs. by destruct (HS p c).
Qed.

Lemma cleaned_seq (S1 S2 : path → Prop) f f1 f2 :
  cleaned S1 f f1 → cleaned S2 f1 f2 → cleaned (λ p, S1 p ∨ S2 p) f f2.
Proof.
  intros [Ha1 Hb1] [Ha2 Hb2]. split.
  - intros p. destruct (Ha2 p) as [E2|(E2 & c & Hc & Hcsv & Hs)].
    + rewrite E2. destruct (Ha1 p) as [E1|(E1 & c & Hc & Hcsv & Hs)]; [by left|].
      right. split; [done|]. exists c. eauto.
    + right. split; [done|]. exists c.
      destruct (Ha1 p) as [E1|(E1 & _)]; [|congruence].
      rewrite <- E1. eauto.
  - intros p c Hp Hcsv Hs.
    assert (f1 !! p = None → f2 !! p = None) as Hnone.
    { intros E1. destruct (Ha2 p) as [E2|(E2 & _)]; congruence. }
    destruct (Ha1 p) as [E1|(E1 & _)]; [|by apply Hnone].
    destruct Hs as [Hs|Hs].
    + apply Hnone. by apply (Hb1 p c).
    + apply (Hb2 p c); [congruence|done|done].
Qed.

Lemma cleaned_region (S S' : path → Prop) f f' :
  (∀ p, S p → S' p) →
  (∀ p c, f !! p = Some (F c) → S' p → S p) →
  cleaned S f f' → cleaned S' f f'.
Proof.
  intros H1 H2 [Ha Hb]. split.
  - intros p. destruct (Ha p) as [E|(E & c & Hc & Hcsv & Hs)]; [by left|].
    right. split; [done|]. exists c. eauto.
  - intros p c Hp Hcsv Hs. apply (Hb p c); eauto.
Qed.

Lemma cleaned_dir (S : path → Prop) f f' p :
  cleaned S f f' → f !! p = Some D → f' !! p = Some D.
Proof.
  intros [Ha _] Hp. destruct (Ha p) as [E|(_ & c & Hc & _)]; congruence.
Qed.

Lemma cleaned_sub (S : path → Prop) f f' p :
  cleaned S f f' → is_Some (f' !! p) → f' !! p = f !! p.
Proof.
  intros [Ha _] [n Hp]. destruct (Ha p) as [E|(E & _)]; congruence.
Qed.

Lemma cleaned_wf (S : path → Prop) f f' : cleaned S f f' → wf f → wf f'.
Proof.
  intros Hc Hwf p n Hp.
  assert (f !! p = Some n) as Hp' by (rewrite <- (cleaned_sub S f f' p Hc); eauto).
  destruct (Hwf p n Hp') as [->|Hd]; [by left|right].
  by apply (cleaned_dir S f f').
Qed.

(** One pass of the inner loop of [remove_csv] over the names [files]. *)
Lemma remove_csv_dir_spec top dirs files w :
  ∃ w', remove_csv_dir top dirs files w = Ok tt w' ∧ db w' = db w ∧
        cleaned (λ p, ∃ x, x ∈ files ∧ p = top ++ [x]) (fs w) (fs w').
Proof.
  unfold remove_csv_dir. revert w.
  induction files as [|x files IH]; intros w.
  - exists w. split; [done|]. split; [done|]. apply cleaned_same.
    intros p c _ (x & Hx & _). by apply not_elem_of_nil in Hx.
  - rewrite for_each_cons, bind_eq. unfold is_file at 1.
    set (p := top ++ [x]).
    assert (∃ w1, (if match fs w !! p with Some (F _) => true | _ => false end
                      && bool_decide (suffix x = ".csv"%string)
                   then unlink p else mret tt) w = Ok tt w1 ∧ db w1 = db w ∧
                  cleaned (λ q, q = p) (fs w) (fs w1)) as (w1 & -> & Hdb1 & Hc1).
    { destruct (fs w !! p) as [[c|]|] eqn:Hp; simpl.
      - case_bool_decide as Hcsv.
        + exists (set_fs (delete p (fs w)) w). unfold unlink, lift_fs, unlink_fs.
          rewrite Hp. split; [done|]. split; [done|]. split.
          * intros q. simpl. destruct (decide (p = q)) as [<-|Hne].
            -- right. rewrite lookup_delete_eq. split; [done|]. exists c.
               unfold p at 2. by rewrite last_snoc.
            -- left. by rewrite lookup_delete_ne.
          * intros q c' _ _ ->. simpl. apply lookup_delete_eq.
        + exists w. split; [done|]. split; [done|]. split; [by left|].
          intros q c' _ Hq ->. unfold p in Hq. by rewrite last_snoc in Hq.
      - exists w. split; [done|]. split; [done|]. apply cleaned_same.
        intros q c' Hq ->. congruence.
      - exists w. split; [done|]. split; [done|]. apply cleaned_same.
        intros q c' Hq ->. congruence. }
    destruct (IH w1) as (w' & -> & Hdb & Hc). exists w'.
    split; [done|]. split; [congruence|].
    eapply cleaned_region; [| |exact (cleaned_seq _ _ _ _ _ Hc1 Hc)].
    + intros q [->|(y & Hy & ->)]; [exists x|exists y]; split; try done;
        [left|by right].
    + intros q c _ (y & [->|Hy]%elem_of_cons & ->); [by left|right; eauto].
Qed.

(** The walk below [top], for any depth limit the tree fits in. *)
Lemma walk_remove_csv n : ∀ top w,
  wf (fs w) →
  (∀ p, is_Some (fs w !! p) → (length p < n + length top)%nat) →
  ∃ w', walk n top remove_csv_dir w = Ok tt w' ∧ db w' = db w ∧
        cleaned (inside top) (fs w) (fs w').
Proof.
  induction n as [|n IH]; intros top w Hwf Hlen.
  - simpl. destruct (fs w !! top) as [[c|]|] eqn:Ht.
    + exists w. split; [done|]. split; [done|]. apply cleaned_same.
      intros p c' Hp Hin. apply (wf_inside _ _ _ Hwf) in Hin; [congruence|eauto].
    + assert (length top < 0 + length top)%nat by (apply Hlen; eauto). lia.
    + exists w. split; [done|]. split; [done|]. apply cleaned_same.
      intros p c' Hp Hin. apply (wf_inside _ _ _ Hwf) in Hin; [congruence|eauto].
  - simpl. destruct (fs w !! top) as [[c|]|] eqn:Ht.
    + exists w. split; [done|]. split; [done|]. apply cleaned_same.
      intros p c' Hp Hin. apply (wf_inside _ _ _ Hwf) in Hin; [congruence|eauto].
    + rewrite bind_eq.
      destruct (remove_csv_dir_spec top (subdirs (fs w) top) (nondirs (fs w) top) w)
        as (w1 & -> & Hdb1 & Hc1).
      assert (∀ ds w1, wf (fs w1) →
                (∀ p, is_Some (fs w1 !! p) → (length p < S n + length top)%nat) →
                ∃ w', for_each ds (λ d, walk n (top ++ [d]) remove_csv_dir) w1 = Ok tt w' ∧
                      db w' = db w1 ∧
                      cleaned (λ p, ∃ d, d ∈ ds ∧ inside (top ++ [d]) p) (fs w1) (fs w'))
        as Hloop.
      { clear w w1 Hwf Hlen Ht Hdb1 Hc1.
        induction ds as [|d ds IHds]; intros w1 Hwf1 Hlen1.
        - exists w1. split; [done|]. split; [done|]. apply cleaned_same.
          intros p c _ (d & Hd & _). by apply not_elem_of_nil in Hd.
        - rewrite for_each_cons.
          destruct (IH (top ++ [d]) w1 Hwf1) as (w2 & -> & Hdb2 & Hc2).
          { intros p Hp. rewrite length_app. simpl. specialize (Hlen1 p Hp). lia. }
          destruct (IHds w2) as (w' & -> & Hdb & Hc).
          { by apply (cleaned_wf _ _ _ Hc2). }
          { intros p Hp. apply Hlen1. rewrite <- (cleaned_sub _ _ _ p Hc2); done. }
          exists w'. split; [done|]. split; [congruence|].
          eapply cleaned_region; [| |exact (cleaned_seq _ _ _ _ _ Hc2 Hc)].
          + intros p [Hin|(e & He & Hin)]; [exists d|exists e]; split; try done;
              [left|by right].
          + intros p c _ (e & [->|He]%elem_of_cons & Hin); [by left|right; eauto]. }
      destruct (Hloop (subdirs (fs w) top) w1) as (w' & -> & Hdb & Hc).
      { by apply (cleaned_wf _ _ _ Hc1). }
      { intros p Hp. apply Hlen. rewrite <- (cleaned_sub _ _ _ p Hc1); done. }
      exists w'. split; [done|]. split; [congruence|].
      eapply cleaned_region; [| |exact (cleaned_seq _ _ _ _ _ Hc1 Hc)].
      * intros p [(x & _ & ->)|(d & _ & y & r & ->)]; [apply inside_snoc|].
        exists d, (y :: r). by rewrite <- (assoc_L (++)).
      * intros p c Hp [[x ->]|[x Hin]]%inside_cases.
        -- left. exists x. split; [|done]. apply elem_of_nondirs. eauto.
        -- right. exists x. split; [|done]. apply elem_of_subdirs.
           apply (wf_inside _ _ p Hwf Hin). eauto.
    + exists w. split; [done|]. split; [done|]. apply cleaned_same.
      intros p c' Hp Hin. apply (wf_inside _ _ _ Hwf) in Hin; [congruence|eauto].
Qed.

Lemma remove_csv_cleaned w :
  wf (fs w) →
  ∃ w', remove_csv w = Ok tt w' ∧ db w' = db w ∧
        cleaned (inside (Path "data")) (fs w) (fs w').
Proof.
  intros Hwf. unfold remove_csv. rewrite bind_eq, log_eq. unfold os_walk.
  destruct (walk_remove_csv (depth_bound (fs w)) (Path "data")
              (emit (Log INFO "Removing csv files") w) Hwf)
    as (w' & Hw & Hdb & Hc).
  - intros p Hp. change (fs (emit _ w)) with (fs w) in Hp.
    apply depth_bound_spec in Hp. lia.
  - exists w'. eauto.
Qed.

(** C9: on a well-formed file system the clean-up returns; afterwards no
    file with suffix [.csv] is left anywhere inside [data/], every
    directory, every file without that suffix and every file outside
    [data/] is as it was, and nothing new has appeared. *)
Theorem remove_csv_removes_exactly_csv w :
  wf (fs w) →
  ∃ w', remove_csv w = Ok tt w' ∧ db w' = db w ∧
    (∀ p c, fs w' !! p = Some (F c) → inside (Path "data") p → ¬ is_csv p) ∧
    (∀ p n, fs w !! p = Some n →
            n = D ∨ ¬ is_csv p ∨ ¬ inside (Path "data") p →
            fs w' !! p = Some n) ∧
    (∀ p, fs w !! p = None → fs w' !! p = None).
Proof.
  intros Hwf. destruct (remove_csv_cleaned w Hwf) as (w' & Hrun & Hdb & [Ha Hb]).
  exists w'. split; [done|]. split; [done|]. split; [|split].
  - intros p c Hp Hin Hcsv.
    assert (fs w !! p = Some (F c)) as Hp0.
    { destruct (Ha p) as [E|(E & _)]; congruence. }
    specialize (Hb p c Hp0 Hcsv Hin). congruence.
  - intros p n Hp Hkeep.
    destruct (Ha p) as [E|(E & c & Hc & Hcsv & Hin)]; [congruence|].
    destruct Hkeep as [->|[Hk|Hk]]; [congruence|by destruct Hk|by destruct Hk].
  - intros p Hp. destruct (Ha p) as [E|(E & _)]; congruence.
Qed.

Lemma w_mixed_wf : wf (fs w_mixed).
Proof. apply (bool_decide_unpack _). vm_compute. reflexivity. Qed.

Lemma remove_csv_removes_exactly_csv_witness :
  ∃ w', remove_csv w_mixed = Ok tt w' ∧ db w' = db w_mixed ∧
    (∀ p c, fs w' !! p = Some (F c) → inside (Path "data") p → ¬ is_csv p) ∧
    (∀ p n, fs w_mixed !! p = Some n →
            n = D ∨ ¬ is_csv p ∨ ¬ inside (Path "data") p →
            fs w' !! p = Some n) ∧
    (∀ p, fs w_mixed !! p = None → fs w' !! p = None).
Proof.
  apply (remove_csv_removes_exactly_csv w_mixed).
  apply (bool_decide_unpack _). vm_compute. reflexivity.
Defined.

(** What the clean-up leaves of the sample directory. *)
Example remove_csv_w_mixed :
  let f' := fs (after remove_csv w_mixed) in
  f' !! ["data"; "Bike share ridership 2021-01.csv"]%string = None ∧
  f' !! ["data"; "2022"; "Bike share ridership 2022-01.csv"]%string = None ∧
  f' !! ["data"; "2022"; "notes.txt"]%string = Some (F (Csv [None])) ∧
  f' !! ["data"; "2022"]%string = Some D ∧
  f' !! ["data"; "tbs.parquet"]%string = Some (F (Parquet "zstd" 3 [])) ∧
  f' !! ["other"; "keep.csv"]%string = Some (F (Csv [])) ∧
  size f' = 7%nat.
Proof. vm_compute. done. Qed.

(** ** Flattening a year folder *)

Lemma for_each_nil {A} (body : A → M unit) w : for_each [] body w = Ok tt w.
Proof. done. Qed.

Lemma neq_by_length (p q : path) : length p ≠ length q → p ≠ q.
Proof. congruence. Qed.

Lemma rename_file_eq src dst f c :
  f !! src = Some (F c) → f !! parent dst = Some D →
  rename_fs src dst f =
    if decide (is_dir f dst) then inl IsADirectoryError
    else inr (<[dst := F c]> (delete src f)).
Proof.
  intros Hs Hp. unfold rename_fs. rewrite Hs, Hp.
  destruct (decide (is_dir f dst)) as [Hd|Hd]; unfold is_dir in Hd.
  - by rewrite Hd.
  - by destruct (f !! dst) as [[c0|]|].
Qed.

(** The renaming loop of [flatten_dir]: it returns unless some name is
    taken by a directory of [data/], and then it has moved every file. *)
Lemma rename_loop top xs : ∀ w,
  length top = 2%nat →
  NoDup xs →
  (∀ x, x ∈ xs → ∃ c, fs w !! (top ++ [x]) = Some (F c)) →
  fs w !! Path "data" = Some D →
  match for_each xs (λ file, rename (top ++ [file]) (Path "data" ++ [file])) w with
  | Ok _ w' =>
      db w' = db w ∧ moved top xs (fs w) (fs w') ∧
      ∀ x, x ∈ xs → fs w !! (Path "data" ++ [x]) ≠ Some D
  | Raise e w' => ∃ x, x ∈ xs ∧ fs w !! (Path "data" ++ [x]) = Some D
  end.
Proof.
  intros w Hlen. revert w. induction xs as [|x xs IH]; intros w Hnd Hfiles Hdata.
  - rewrite for_each_nil. split; [done|]. split.
    + split; [|done]. intros x Hx. by apply not_elem_of_nil in Hx.
    + intros x Hx. by apply not_elem_of_nil in Hx.
  - apply NoDup_cons in Hnd as [Hx Hnd]. rewrite for_each_cons.
    destruct (Hfiles x) as [c Hc]; [left|].
    unfold rename at 1, lift_fs.
    rewrite (rename_file_eq _ _ _ c Hc) by (by rewrite parent_snoc).
    destruct (decide (is_dir (fs w) (Path "data" ++ [x]))) as [Hdir|Hdir].
    { exists x. split; [left|done]. }
    set (f1 := <[Path "data" ++ [x] := F c]> (delete (top ++ [x]) (fs w))).
    assert (∀ y z : string, top ++ [y] ≠ Path "data" ++ [z]) as Hne1.
    { intros y z. apply neq_by_length. rewrite !length_app, Hlen. simpl. lia. }
    assert (∀ y : string, y ≠ x → top ++ [y] ≠ top ++ [x]) as Hne2.
    { intros y Hy E. apply app_inv_head in E. congruence. }
    assert (∀ y : string, y ≠ x → Path "data" ++ [y] ≠ Path "data" ++ [x]) as Hne3.
    { intros y Hy E. apply app_inv_head in E. congruence. }
    assert (∀ p, p ≠ top ++ [x] → p ≠ Path "data" ++ [x] → f1 !! p = fs w !! p)
      as Hother.
    { intros p H1 H2. unfold f1. rewrite lookup_insert_ne by done.
      by rewrite lookup_delete_ne. }
    assert (f1 !! (top ++ [x]) = None) as Hgone.
    { unfold f1. rewrite lookup_insert_ne by (by apply not_eq_sym, Hne1).
      apply lookup_delete_eq. }
    assert (f1 !! (Path "data" ++ [x]) = Some (F c)) as Hthere.
    { unfold f1. apply lookup_insert_eq. }
    specialize (IH (set_fs f1 w) Hnd). simpl fs in IH. simpl db in IH.
    assert (∀ y, y ∈ xs → y ≠ x) as Hxs by (intros y Hy ->; done).
    destruct (for_each xs _ (set_fs f1 w)) as [[] w'|e w'].
    + destruct IH as (Hdb & [Hm1 Hm2] & Hfree).
      { intros y Hy. rewrite Hother; [apply Hfiles; by right|by apply Hne2, Hxs|apply Hne1]. }
      { rewrite Hother; [done| |]; apply neq_by_length;
          rewrite ?length_app, ?Hlen; simpl; lia. }
      split; [done|]. split; [split|].
      * intros y [->|Hy]%elem_of_cons.
        -- split.
           ++ rewrite Hm2; [done|]. intros z Hz. split;
                [by apply not_eq_sym, Hne2, Hxs|apply Hne1].
           ++ rewrite Hm2; [congruence|]. intros z Hz. split;
                [by apply not_eq_sym, Hne1|by apply not_eq_sym, Hne3, Hxs].
        -- destruct (Hm1 y Hy) as [E1 E2]. split; [done|]. rewrite E2.
           apply Hother; [by apply Hne2, Hxs|apply Hne1].
      * intros p Hp. rewrite Hm2 by (intros z Hz; apply Hp; by right).
        apply Hother; apply Hp; left.
      * intros y [->|Hy]%elem_of_cons; [done|].
        rewrite <- Hother; [by apply Hfree| |by apply Hne3, Hxs].
        by apply not_eq_sym, Hne1.
    + destruct IH as (y & Hy & Hbad).
      { intros y Hy. rewrite Hother; [apply Hfiles; by right|by apply Hne2, Hxs|apply Hne1]. }
      { rewrite Hother; [done| |]; apply neq_by_length;
          rewrite ?length_app, ?Hlen; simpl; lia. }
      exists y. split; [by right|]. rewrite <- Hother; [done| |by apply Hne3, Hxs].
      by apply not_eq_sym, Hne1.
Qed.

Lemma rmdir_fs_eq top f :
  f !! top = Some D →
  rmdir_fs top f =
    match listdir f top with
    | [] => inr (delete top f)
    | _ :: _ => inl DirectoryNotEmpty
    end.
Proof. intros Ht. unfold rmdir_fs. by rewrite Ht. Qed.

(** One visit of [flatten_dir] to the year folder [data/folder], which is
    all the walk does: it returns exactly when the folder holds no
    directory and none of its file names is a directory of [data/]. *)
Lemma flatten_walk_spec n folder w :
  let top := Path "data" ++ [folder] in
  wf (fs w) →
  fs w !! top = Some D →
  match walk (S n) top flatten_dir w with
  | Ok _ w' =>
      db w' = db w ∧ subdirs (fs w) top = [] ∧
      (∀ x, x ∈ nondirs (fs w) top → fs w !! (Path "data" ++ [x]) ≠ Some D) ∧
      ∃ f1, moved top (nondirs (fs w) top) (fs w) f1 ∧ fs w' = delete top f1
  | Raise e w' =>
      (∃ x, x ∈ nondirs (fs w) top ∧ fs w !! (Path "data" ++ [x]) = Some D) ∨
      (e = DirectoryNotEmpty ∧ subdirs (fs w) top ≠ [])
  end.
Proof.
  intros top Hwf Htop. simpl walk. rewrite Htop. rewrite bind_eq.
  unfold flatten_dir at 1. rewrite bind_eq.
  assert (fs w !! Path "data" = Some D) as Hdata.
  { apply (wf_parent _ _ folder Hwf). eauto. }
  pose proof (rename_loop top (nondirs (fs w) top) w eq_refl
                (NoDup_nondirs _ _)
                (λ x Hx, proj1 (elem_of_nondirs _ _ _) Hx) Hdata) as Hloop.
  destruct (for_each (nondirs (fs w) top) _ w) as [[] w1|e w1]; [|by left].
  destruct Hloop as (Hdb & [Hm1 Hm2] & Hfree).
  assert (∀ x : string, top ≠ top ++ [x]) as Hne1.
  { intros x. apply neq_by_length. rewrite length_app. simpl. lia. }
  assert (∀ x, x ∈ nondirs (fs w) top → top ≠ Path "data" ++ [x]) as Hne2.
  { intros x Hx E. apply (Hfree x Hx). by rewrite <- E. }
  assert (fs w1 !! top = Some D) as Htop1.
  { rewrite Hm2; [done|]. intros x Hx. split; [apply Hne1|by apply Hne2]. }
  assert (∀ x, x ∉ nondirs (fs w) top →
               fs w1 !! (top ++ [x]) = fs w !! (top ++ [x])) as Hkeep.
  { intros x Hx. apply Hm2. intros y Hy. split.
    - intros E%app_inv_head. simplify_eq. done.
    - apply neq_by_length. rewrite !length_app. simpl. lia. }
  unfold rmdir, lift_fs. rewrite (rmdir_fs_eq _ _ Htop1).
  destruct (listdir (fs w1) top) as [|[y m] l] eqn:Hls.
  - assert (subdirs (fs w) top = []) as Hsub.
    { destruct (subdirs (fs w) top) as [|d ds] eqn:E; [done|].
      assert (d ∈ subdirs (fs w) top) as Hd by (rewrite E; left).
      apply elem_of_subdirs in Hd.
      assert (d ∉ nondirs (fs w) top) as Hnf.
      { intros [c Hc]%elem_of_nondirs. congruence. }
      rewrite <- (Hkeep d Hnf) in Hd.
      rewrite (proj1 (listdir_nil _ _) Hls d) in Hd. done. }
    rewrite Hsub, for_each_nil. split; [done|]. split; [done|]. split; [done|].
    exists (fs w1). by split.
  - right. split; [done|].
    assert ((y, m) ∈ listdir (fs w1) top) as Hy by (rewrite Hls; left).
    apply elem_of_listdir in Hy.
    destruct (decide (y ∈ nondirs (fs w) top)) as [Hin|Hnin].
    + destruct (Hm1 y Hin) as [E _]. congruence.
    + rewrite (Hkeep y Hnin) in Hy. destruct m as [c|].
      * destruct Hnin. apply elem_of_nondirs. eauto.
      * intros Hnil. apply elem_of_subdirs in Hy. rewrite Hnil in Hy.
        by apply not_elem_of_nil in Hy.
Qed.

(** What a flattening walk that returns has done. *)
Lemma flatten_returns folder w w' :
  let top := Path "data" ++ [folder] in
  wf (fs w) →
  os_walk top flatten_dir w = Ok tt w' →
  db w' = db w ∧
  (∀ x c, fs w !! (top ++ [x]) = Some (F c) →
          fs w' !! (Path "data" ++ [x]) = Some (F c)) ∧
  (∀ p, p = top ∨ inside top p → fs w' !! p = None ∨ fs w !! top ≠ Some D) ∧
  (fs w !! top = Some D → ∀ d, fs w !! (top ++ [d]) ≠ Some D).
Proof.
  intros top Hwf. unfold os_walk, depth_bound.
  destruct (fs w !! top) as [[c|]|] eqn:Htop.
  1,3: simpl; rewrite Htop; intros [= <-]; split; [done|]; split;
    [|split; [by right|done]];
    intros x c' Hx; assert (fs w !! top = Some D) by
      (apply (wf_parent _ _ x Hwf); eauto); congruence.
  pose proof (flatten_walk_spec (max_list (length <$> (map_to_list (fs w)).*1))
                folder w Hwf Htop) as Hspec.
  fold top in Hspec.
  destruct (walk _ top flatten_dir w) as [[] w1|e w1]; [|done].
  intros [= ->]. destruct Hspec as (Hdb & Hsub & Hfree & f1 & [Hm1 Hm2] & Hfs).
  assert (∀ d, fs w !! (top ++ [d]) ≠ Some D) as Hnodir.
  { intros d Hd. apply elem_of_subdirs in Hd. rewrite Hsub in Hd.
    by apply not_elem_of_nil in Hd. }
  split; [done|]. split; [|split; [|done]].
  - intros x c Hx.
    assert (x ∈ nondirs (fs w) top) as Hin by (apply elem_of_nondirs; eauto).
    destruct (Hm1 x Hin) as [_ E]. rewrite Hfs, lookup_delete_ne; [congruence|].
    intros E'. apply (Hfree x Hin). by rewrite <- E'.
  - intros p Hp. left. rewrite Hfs.
    destruct Hp as [->|(x & r & ->)]; [apply lookup_delete_eq|].
    rewrite lookup_delete_ne
      by (apply neq_by_length; rewrite !length_app; simpl; lia).
    destruct (decide (x ∈ nondirs (fs w) top)) as [Hin|Hnin]; destruct r as [|y r].
    + by destruct (Hm1 x Hin).
    + assert (fs w !! (top ++ x :: y :: r) = None) as Hnone.
      { destruct (fs w !! (top ++ x :: y :: r)) as [m|] eqn:E; [|done].
        destruct (Hnodir x).
        apply (wf_inside _ _ (top ++ x :: y :: r) Hwf); [|eauto].
        exists y, r. by rewrite <- (assoc_L (++)). }
      rewrite Hm2; [done|]. intros z Hz. split.
      * intros E%app_inv_head. simplify_eq.
      * apply neq_by_length. rewrite !length_app. simpl. lia.
    + rewrite Hm2.
      * destruct (fs w !! (top ++ [x])) as [[c|]|] eqn:E; [|by destruct (Hnodir x)|done].
        destruct Hnin. apply elem_of_nondirs. eauto.
      * intros z Hz. split.
        -- intros E%app_inv_head. simplify_eq. done.
        -- apply neq_by_length. rewrite !length_app. simpl. lia.
    + assert (fs w !! (top ++ x :: y :: r) = None) as Hnone.
      { destruct (fs w !! (top ++ x :: y :: r)) as [m|] eqn:E; [|done].
        destruct (Hnodir x).
        apply (wf_inside _ _ (top ++ x :: y :: r) Hwf); [|eauto].
        exists y, r. by rewrite <- (assoc_L (++)). }
      rewrite Hm2; [done|]. intros z Hz. split.
      * intros E%app_inv_head. simplify_eq.
      * apply neq_by_length. rewrite !length_app. simpl. lia.
Qed.

(** ** Extraction keeps the file system well formed *)

Lemma wf_insert_dir f p :
  wf f → f !! p = None → p = [] ∨ is_dir f (parent p) → wf (<[p := D]> f).
Proof.
  intros Hwf Hp Hpar q n Hq. unfold is_dir in *.
  destruct (decide (p = q)) as [<-|Hne].
  - destruct Hpar as [->|Hpar]; [by left|right].
    destruct (decide (p = parent p)) as [<-|Hne]; [apply lookup_insert_eq|].
    by rewrite lookup_insert_ne.
  - rewrite lookup_insert_ne in Hq by done.
    destruct (Hwf q n Hq) as [->|Hd]; [by left|right]. unfold is_dir in Hd.
    destruct (decide (p = parent q)) as [<-|Hne']; [apply lookup_insert_eq|].
    by rewrite lookup_insert_ne.
Qed.

Lemma wf_insert_file f p c :
  wf f → f !! p ≠ Some D → is_dir f (parent p) → wf (<[p := F c]> f).
Proof.
  intros Hwf Hp Hpar q n Hq. unfold is_dir in *.
  assert (p ≠ parent p) as Hpp by (intros E; rewrite <- E in Hpar; done).
  destruct (decide (p = q)) as [<-|Hne].
  - right. by rewrite lookup_insert_ne.
  - rewrite lookup_insert_ne in Hq by done.
    destruct (Hwf q n Hq) as [->|Hd]; [by left|right]. unfold is_dir in Hd.
    rewrite lookup_insert_ne; [done|]. intros E. rewrite <- E in Hd. done.
Qed.

Lemma wf_delete_file f p c : wf f → f !! p = Some (F c) → wf (delete p f).
Proof.
  intros Hwf Hp q n Hq. unfold is_dir in *.
  destruct (decide (p = q)) as [<-|Hne]; [by rewrite lookup_delete_eq in Hq|].
  rewrite lookup_delete_ne in Hq by done.
  destruct (Hwf q n Hq) as [->|Hd]; [by left|right]. unfold is_dir in Hd.
  rewrite lookup_delete_ne; [done|]. intros E. rewrite <- E in Hd. congruence.
Qed.

Lemma makedirs_from_spec rest : ∀ pre f f',
  wf f → pre = [] ∨ is_dir f (parent pre) →
  makedirs_from pre rest f = inr f' →
  wf f' ∧ f ⊆ f' ∧ f' !! (pre ++ rest) = Some D.
Proof.
  induction rest as [|c rest IH]; intros pre f f' Hwf Hpar; simpl.
  - rewrite app_nil_r. destruct (f !! pre) as [[c|]|] eqn:E; [done| |]; intros [= <-].
    + done.
    + split; [by apply wf_insert_dir|]. split; [by apply insert_subseteq|].
      apply lookup_insert_eq.
  - destruct (f !! pre) as [[c'|]|] eqn:E; [done| |]; intros H.
    + apply IH in H as (Hwf' & Hsub & Hd); [|done|right; by rewrite parent_snoc].
      by rewrite <- (assoc_L (++)) in Hd.
    + apply IH in H as (Hwf' & Hsub & Hd).
      * rewrite <- (assoc_L (++)) in Hd. split; [done|]. split; [|done].
        etrans; [|exact Hsub]. by apply insert_subseteq.
      * by apply wf_insert_dir.
      * right. rewrite parent_snoc. apply lookup_insert_eq.
Qed.

(** One member: the file system stays well formed; a file that was there
    keeps its content unless this member is a file written over it. *)
Lemma extract_member_spec dest m f f' :
  wf f → extract_member_fs dest m f = inr f' →
  wf f' ∧
  (∀ p c, f !! p = Some (F c) →
          f' !! p = Some (F c) ∨
          (is_dir_member m.1 = false ∧ p = dest ++ arcname m.1 ∧
           f' !! p = Some (F m.2))) ∧
  (is_dir_member m.1 = false → f' !! (dest ++ arcname m.1) = Some (F m.2)).
Proof.
  intros Hwf. unfold extract_member_fs, makedirs.
  destruct (makedirs_from _ _ f) as [e|f1] eqn:E; [done|].
  apply makedirs_from_spec in E as (Hwf1 & Hsub & Hd); [|done|by left].
  simpl in Hd. set (target := dest ++ arcname m.1) in *.
  destruct (is_dir_member m.1).
  - unfold mkdir_if_absent. destruct (f1 !! target) as [[c|]|] eqn:Ht; [done| |];
      intros [= <-].
    + split; [done|]. split; [|done]. intros p c Hp. left.
      by apply (lookup_weaken _ _ _ _ Hp).
    + split.
      { apply wf_insert_dir; [done|done|]. right. exact Hd. }
      split; [|done]. intros p c Hp. left.
      apply (lookup_weaken _ _ _ _ Hp) in Hsub.
      rewrite lookup_insert_ne; [done|congruence].
  - unfold write_file. rewrite Hd.
    destruct (f1 !! target) as [[c|]|] eqn:Ht; [|done|]; intros [= <-].
    all: split; [apply wf_insert_file; [done|congruence|exact Hd]|].
    all: split; [|intros _; apply lookup_insert_eq].
    all: intros p c' Hp; apply (lookup_weaken _ _ _ _ Hp) in Hsub.
    all: destruct (decide (target = p)) as [<-|Hne];
      [right; split; [done|]; split; [done|]; apply lookup_insert_eq
      |left; by rewrite lookup_insert_ne].
Qed.

Lemma extractall_fs_grows ms dest : ∀ f f',
  extractall_fs ms dest f = inr f' → grows f f'.
Proof.
  induction ms as [|m ms IH]; intros f f'; simpl; [by intros [= <-]|].
  destruct (extract_member_fs dest m f) as [e|f1] eqn:E; [done|].
  intros H. etrans; [by apply (extract_member_grows dest m)|by apply IH].
Qed.

Lemma extractall_fs_wf ms dest : ∀ f f',
  wf f → extractall_fs ms dest f = inr f' → wf f'.
Proof.
  induction ms as [|m ms IH]; intros f f' Hwf; simpl; [by intros [= <-]|].
  destruct (extract_member_fs dest m f) as [e|f1] eqn:E; [done|].
  apply extract_member_spec in E as (Hwf1 & _); [|done]. by apply IH.
Qed.

(** A file present before the extraction is a file afterwards, with its
    old content or with that of a member written over it. *)
Lemma extractall_fs_file_kept ms dest : ∀ f f' p c,
  wf f → extractall_fs ms dest f = inr f' → f !! p = Some (F c) →
  f' !! p = Some (F c) ∨
  ∃ name c', (name, c') ∈ ms ∧ is_dir_member name = false ∧
             p = dest ++ arcname name ∧ f' !! p = Some (F c').
Proof.
  induction ms as [|m ms IH]; intros f f' p c Hwf; simpl.
  - intros [= <-] Hp. by left.
  - destruct (extract_member_fs dest m f) as [e|f1] eqn:E; [done|].
    apply extract_member_spec in E as (Hwf1 & Hkept & _); [|done].
    intros Hrest Hp.
    destruct (Hkept p c Hp) as [Hp1|(Hfile & -> & Hp1)].
    + destruct (IH f1 f' p c Hwf1 Hrest Hp1) as [?|(name & c' & Hin & ?)];
        [by left|right]. exists name, c'. split; [by right|done].
    + destruct (IH f1 f' _ _ Hwf1 Hrest Hp1) as [?|(name & c' & Hin & ?)]; right.
      * exists m.1, m.2. split; [destruct m; left|done].
      * exists name, c'. split; [by right|done].
Qed.

(** Every file member is on disk after the extraction, with the content
    of a file member of the same target. *)
Lemma extractall_fs_members ms dest : ∀ f f' name c,
  wf f → extractall_fs ms dest f = inr f' →
  (name, c) ∈ ms → is_dir_member name = false →
  ∃ name' c', (name', c') ∈ ms ∧ is_dir_member name' = false ∧
              arcname name' = arcname name ∧
              f' !! (dest ++ arcname name) = Some (F c').
Proof.
  induction ms as [|m ms IH]; intros f f' name c Hwf; simpl.
  - intros _ Hin. by apply not_elem_of_nil in Hin.
  - destruct (extract_member_fs dest m f) as [e|f1] eqn:E; [done|].
    apply extract_member_spec in E as (Hwf1 & _ & Hnew); [|done].
    intros Hrest [Hm|Hin]%elem_of_cons Hfile.
    + subst m. specialize (Hnew Hfile). simpl in Hnew.
      destruct (extractall_fs_file_kept ms dest f1 f' _ _ Hwf1 Hrest Hnew)
        as [Hk|(name' & c' & Hin & Hf' & Heq & Hk)].
      * exists name, c. split; [left|done].
      * exists name', c'. split; [by right|]. split; [done|]. split; [|done].
        by apply app_inv_head in Heq.
    + destruct (IH f1 f' name c Hwf1 Hrest Hin Hfile) as (name' & c' & Hin' & ?).
      exists name', c'. split; [by right|done].
Qed.

Lemma extractall_eq ms dest : ∀ w,
  match extractall_fs ms dest (fs w) with
  | inr f' => extractall ms dest w = Ok tt (set_fs f' w)
  | inl e => ∃ w', extractall ms dest w = Raise e w'
  end.
Proof.
  unfold extractall. induction ms as [|m ms IH]; intros w.
  - simpl. by destruct w.
  - cbn [extractall_fs]. rewrite for_each_cons.
    assert (lift_fs (extract_member_fs dest m) w =
            match extract_member_fs dest m (fs w) with
            | inl e => Raise e w
            | inr f1 => Ok tt (set_fs f1 w)
            end) as -> by done.
    destruct (extract_member_fs dest m (fs w)) as [e|f1]; [eauto|].
    specialize (IH (set_fs f1 w)). simpl fs in IH.
    destruct (extractall_fs ms dest f1) as [e|f']; [done|].
    by rewrite IH.
Qed.

(** ** The year with a nested archive *)

Lemma Path_folder_2022 :
  Path (year_folder 2022) = Path "data" ++ ["bikeshare-ridership-2022"%string].
Proof. reflexivity. Qed.

Lemma Path_folder_2023 :
  Path (year_folder 2023) = Path "data" ++ ["bikeshare-ridership-2023"%string].
Proof. reflexivity. Qed.

Lemma Path_nested_dest :
  Path "data/bikeshare-ridership-2022" =
  Path "data" ++ ["bikeshare-ridership-2022"%string].
Proof. reflexivity. Qed.

Lemma Path_jank :
  Path jank_file =
  (Path "data" ++ ["bikeshare-ridership-2022"%string])
    ++ ["Bike share ridership 2022-11.zip"%string].
Proof. reflexivity. Qed.

Lemma grows_dir f f' p : grows f f' → f !! p = Some D → f' !! p = Some D.
Proof. intros Hg Hp. specialize (Hg p). by rewrite Hp in Hg. Qed.

Lemma grows_file f f' p c : grows f f' → f !! p = Some (F c) → ∃ c', f' !! p = Some (F c').
Proof. intros Hg Hp. specialize (Hg p). by rewrite Hp in Hg. Qed.

(** The special case on its own: when it returns, the nested archive has
    been extracted next to itself and then removed. *)
Lemma unpack_nested_returns w w' zs :
  fs w !! Path jank_file = Some (F (Zip zs)) →
  unpack_nested w = Ok tt w' →
  ∃ f2, extractall_fs zs (Path "data/bikeshare-ridership-2022") (fs w) = inr f2 ∧
        is_Some (f2 !! Path jank_file) ∧
        fs w' = delete (Path jank_file) f2 ∧ db w' = db w ∧ remote w' = remote w.
Proof.
  intros Hj. unfold unpack_nested. rewrite bind_eq. unfold ZipFile_open.
  rewrite Hj. simpl ZipFile_bytes. unfold ret. rewrite bind_eq.
  pose proof (extractall_eq zs (Path "data/bikeshare-ridership-2022") w) as Hx.
  destruct (extractall_fs zs _ (fs w)) as [e|f2] eqn:E.
  - destruct Hx as [w1 ->]. done.
  - rewrite Hx. unfold unlink, lift_fs, unlink_fs. simpl fs.
    destruct (f2 !! Path jank_file) as [[c|]|] eqn:Hj2; try done.
    intros [= <-]. exists f2. split; [done|]. split; [eauto|]. done.
Qed.

Lemma parent_prefix (p : path) : parent p `prefix_of` p.
Proof.
  destruct (decide (p = [])) as [->|Hne]; [done|].
  destruct (exists_last Hne) as (q & x & ->).
  unfold parent. rewrite removelast_last. by exists [x].
Qed.

Lemma makedirs_from_other rest : ∀ pre f f' p,
  makedirs_from pre rest f = inr f' →
  is_Some (f !! p) ∨ ¬ p `prefix_of` (pre ++ rest) →
  f' !! p = f !! p.
Proof.
  induction rest as [|c rest IH]; intros pre f f' p; simpl;
    destruct (f !! pre) as [[c0|]|] eqn:E; try done.
  - by intros [= <-].
  - intros [= <-] Hp. rewrite lookup_insert_ne; [done|]. intros <-.
    destruct Hp as [[n Hn]|Hp]; [congruence|]. apply Hp. by exists [].
  - intros Hm Hp. apply (IH _ _ _ _ Hm). by rewrite <- app_assoc.
  - intros Hm Hp.
    assert (pre ≠ p) as Hne.
    { intros <-. destruct Hp as [[n Hn]|Hp]; [congruence|].
      apply Hp. by exists (c :: rest). }
    rewrite (IH _ _ _ _ Hm); rewrite ?lookup_insert_ne by done; [done|].
    by rewrite <- app_assoc.
Qed.

(** Extracting one member touches only the prefixes of the member's
    target. *)
Lemma extract_member_other dest m f f' p :
  extract_member_fs dest m f = inr f' →
  ¬ p `prefix_of` (dest ++ arcname m.1) →
  f' !! p = f !! p.
Proof.
  unfold extract_member_fs, makedirs. set (target := dest ++ arcname m.1).
  intros Hx Hp.
  assert (target ≠ p) as Hne by (intros <-; by apply Hp).
  destruct (makedirs_from _ _ f) as [e|f1] eqn:E; [done|].
  assert (f1 !! p = f !! p) as <-.
  { apply (makedirs_from_other _ _ _ _ _ E). right. simpl. intros Hpre.
    apply Hp. etrans; [exact Hpre|apply parent_prefix]. }
  revert Hx. destruct (is_dir_member m.1).
  - unfold mkdir_if_absent. destruct (f1 !! target) as [[c|]|]; try done;
      intros [= <-]; [done|by rewrite lookup_insert_ne].
  - unfold write_file. destruct (f1 !! parent target) as [[c|]|]; try done.
    destruct (f1 !! target) as [[c|]|]; try done;
      intros [= <-]; by rewrite lookup_insert_ne.
Qed.

Lemma extractall_fs_other ms dest p : ∀ f f',
  extractall_fs ms dest f = inr f' →
  (∀ r, ¬ p `prefix_of` (dest ++ r)) →
  f' !! p = f !! p.
Proof.
  induction ms as [|m ms IH]; intros f f' Hx Hp; simpl in Hx.
  - by injection Hx as <-.
  - destruct (extract_member_fs dest m f) as [e|f1] eqn:E; [done|].
    rewrite (IH _ _ Hx Hp). by apply (extract_member_other _ _ _ _ _ E).
Qed.

(** C7: the iteration for 2022, unzip true, on a well-formed file system.
    Let the year's archive, extracted into [data/], leave at the fixed
    path a nested archive with members [zs].  If the iteration returns,
    the nested archive has been deleted: the special case returns in a
    world with nothing at the fixed path, and it is from that world that
    the folder is flattened, so that in the end nothing is at the fixed
    path and the archive has not been moved to [data/] either (what sits
    in [data/] under its name is what the year's archive put there, if
    anything).  Every file member of the nested archive (other than one
    that would be written over the nested archive itself) names a single
    file that now sits in [data/], holding the content the nested archive
    has for that name. *)
Theorem nested_archive_unpacked_and_removed w w' rid st ms f1 zs :
  wf (fs w) →
  remote w (archive_url 2022 rid) = Response st (Zip ms) →
  extractall_fs ms (Path "data") (fs w) = inr f1 →
  f1 !! Path jank_file = Some (F (Zip zs)) →
  download_year true (2022, rid) w = Ok tt w' →
  fs w' !! Path jank_file = None ∧
  (∃ w3, unpack_nested (set_fs f1 (requested_in (2022, rid) w)) = Ok tt w3 ∧
         fs w3 !! Path jank_file = None ∧
         os_walk (Path (year_folder 2022)) flatten_dir w3 = Ok tt w') ∧
  fs w' !! (Path "data" ++ [jank_name]) = f1 !! (Path "data" ++ [jank_name]) ∧
  ∀ name c, (name, c) ∈ zs → is_dir_member name = false →
    Path "data/bikeshare-ridership-2022" ++ arcname name ≠ Path jank_file →
    ∃ x name' c',
      arcname name = [x] ∧
      (name', c') ∈ zs ∧ is_dir_member name' = false ∧ arcname name' = [x] ∧
      fs w' !! (Path "data" ++ [x]) = Some (F c').
Proof.
  intros Hwf Hremote Hext Hj. rewrite download_year_eq. cbv zeta. simpl fst. simpl snd.
  rewrite Hremote, bind_eq. simpl ZipFile_bytes. unfold ret. rewrite bind_eq.
  change (emit _ (emit _ w)) with (requested_in (2022, rid) w).
  set (w1 := requested_in (2022, rid) w).
  pose proof (extractall_eq ms (Path "data") w1) as Hx.
  change (fs w1) with (fs w) in Hx. rewrite Hext in Hx. rewrite Hx.
  change (negb true) with false. cbv iota. rewrite bind_eq.
  rewrite (bool_decide_eq_true_2 (2022 = BAD_YEAR)) by done.
  destruct (unpack_nested (set_fs f1 w1)) as [[] w3|e w3] eqn:Hun; [|done].
  pose proof Hun as Hun'.
  apply (unpack_nested_returns (set_fs f1 w1) _ zs Hj) in Hun
    as (f2 & Hext2 & Hj2 & Hfs3 & _ & _).
  simpl fs in Hext2.
  rewrite (bool_decide_eq_true_2 (2022 ∈ REMOVE_FOLDER))
    by (apply (bool_decide_unpack _); by vm_compute).
  intros Hwalk. pose proof Hwalk as Hwalk'. rewrite Path_folder_2022 in Hwalk.
  set (top := Path "data" ++ ["bikeshare-ridership-2022"%string]) in *.
  assert (Path jank_file = top ++ [jank_name]) as Hjp by reflexivity.
  assert (wf f1) as Hwf1 by by apply (extractall_fs_wf ms (Path "data") (fs w)).
  rewrite Path_nested_dest in Hext2. fold top in Hext2.
  assert (wf f2) as Hwf2 by by apply (extractall_fs_wf zs top f1).
  assert (f1 !! top = Some D) as Htop1.
  { apply (wf_parent f1 top jank_name Hwf1). rewrite <- Hjp. eauto. }
  assert (f2 !! top = Some D) as Htop2.
  { apply (grows_dir f1); [|done]. by apply (extractall_fs_grows zs top). }
  assert (∃ cj, f2 !! Path jank_file = Some (F cj)) as [cj Hj2'].
  { apply (grows_file f1 _ _ (Zip zs)); [by apply (extractall_fs_grows zs top)|done]. }
  assert (wf (fs w3)) as Hwf3.
  { rewrite Hfs3. by apply (wf_delete_file _ _ cj). }
  assert (fs w3 !! top = Some D) as Htop3.
  { rewrite Hfs3, lookup_delete_ne; [done|]. rewrite Hjp.
    apply neq_by_length. rewrite length_app. simpl. lia. }
  assert (fs w3 !! Path jank_file = None) as Hgone3
    by (rewrite Hfs3; apply lookup_delete_eq).
  destruct (flatten_returns "bikeshare-ridership-2022" w3 w' Hwf3 Hwalk)
    as (_ & Hmoved & Hgone & Hnodir).
  fold top in Hmoved, Hgone, Hnodir. specialize (Hnodir Htop3).
  split; [|split; [|split]].
  - destruct (Hgone (Path jank_file)) as [?|?]; [|done|done].
    right. rewrite Hjp. apply inside_snoc.
  - exists w3. by split_and!.
  - pose proof (flatten_walk_spec
                  (max_list (length <$> (map_to_list (fs w3)).*1))
                  "bikeshare-ridership-2022" w3 Hwf3 Htop3) as Hspec.
    fold top in Hspec.
    assert (walk (S (max_list (length <$> (map_to_list (fs w3)).*1))) top
              flatten_dir w3 = Ok tt w') as Hw by exact Hwalk.
    rewrite Hw in Hspec. destruct Hspec as (_ & _ & _ & fm & [_ Hm2] & Hfs').
    set (p := Path "data" ++ [jank_name]).
    assert (p ≠ top) as Hpt by (intros [=]).
    assert (p ≠ Path jank_file) as Hpj
      by (rewrite Hjp; apply neq_by_length; rewrite !length_app; simpl; lia).
    rewrite Hfs', lookup_delete_ne by done.
    rewrite Hm2.
    + rewrite Hfs3, lookup_delete_ne by done.
      apply (extractall_fs_other zs top p f1 f2 Hext2).
      intros r [k Hk]. unfold p, top in Hk. rewrite Path_data in Hk.
      simpl in Hk. discriminate Hk.
    + intros x Hx'. split.
      * apply neq_by_length. rewrite !length_app. simpl. lia.
      * intros E. unfold p in E. apply app_inv_head in E. injection E as <-.
        apply elem_of_nondirs in Hx' as [c Hc]. rewrite <- Hjp in Hc. congruence.
  - intros name c Hin Hfile Hnj. rewrite Path_nested_dest in Hnj. fold top in Hnj.
    destruct (extractall_fs_members zs top f1 f2 name c Hwf1 Hext2 Hin Hfile)
      as (name' & c' & Hin' & Hfile' & Harc & Hthere).
    assert (fs w3 !! (top ++ arcname name) = Some (F c')) as Hthere3.
    { rewrite Hfs3, lookup_delete_ne; [done|]. by apply not_eq_sym. }
    destruct (arcname name) as [|x [|y r]] eqn:Hname.
    + rewrite app_nil_r in Hthere3. congruence.
    + exists x, name', c'. split; [done|]. split; [done|]. split; [done|].
      split; [done|]. by apply Hmoved.
    + destruct (Hnodir x).
      apply (wf_inside _ _ (top ++ x :: y :: r) Hwf3); [|eauto].
      exists y, r. by rewrite <- (assoc_L (++)).
Qed.


Lemma succeeds_fs_of r : succeeds r = true → r = inr (fs_of r).
Proof. by destruct r. Qed.

Lemma data_only_wf : wf data_only.
Proof. apply (bool_decide_unpack _). vm_compute. reflexivity. Qed.

Lemma nested_archive_unpacked_and_removed_witness :
  fs (after (download_year true (2022, rid_2022)) w_2022) !! Path jank_file = None ∧
  (∃ w3, unpack_nested
           (set_fs (fs_of (extractall_fs members_2022 (Path "data") (fs w_2022)))
              (requested_in (2022, rid_2022) w_2022)) = Ok tt w3 ∧
         fs w3 !! Path jank_file = None ∧
         os_walk (Path (year_folder 2022)) flatten_dir w3 =
           Ok tt (after (download_year true (2022, rid_2022)) w_2022)) ∧
  fs (after (download_year true (2022, rid_2022)) w_2022)
    !! (Path "data" ++ [jank_name]) =
  fs_of (extractall_fs members_2022 (Path "data") (fs w_2022))
    !! (Path "data" ++ [jank_name]) ∧
  ∀ name c, (name, c) ∈ nested_members → is_dir_member name = false →
    Path "data/bikeshare-ridership-2022" ++ arcname name ≠ Path jank_file →
    ∃ x name' c',
      arcname name = [x] ∧
      (name', c') ∈ nested_members ∧ is_dir_member name' = false ∧
      arcname name' = [x] ∧
      fs (after (download_year true (2022, rid_2022)) w_2022)
        !! (Path "data" ++ [x]) = Some (F c').
Proof.
  apply (nested_archive_unpacked_and_removed w_2022
           (after (download_year true (2022, rid_2022)) w_2022)
           rid_2022 200 members_2022
           (fs_of (extractall_fs members_2022 (Path "data") (fs w_2022)))
           nested_members).
  - apply (bool_decide_unpack _). vm_compute. reflexivity.
  - reflexivity.
  - apply succeeds_fs_of. vm_compute. reflexivity.
  - vm_compute. reflexivity.
  - apply returns_after. vm_compute. reflexivity.
Defined.

(** On the sample archive no file of the nested archive's name is anywhere
    under [data/] after the run. *)
Example nested_archive_is_gone :
  let f' := fs (after (download_data [2022] true) w_2022) in
  f' !! Path jank_file = None ∧
  f' !! (Path "data" ++ [jank_name]) = None ∧
  size f' = 4%nat.
Proof. vm_compute. done. Qed.

(** The sample 2022 archive, unzip true: both files end in [data/] and
    the year folder is gone. *)
Example download_2022_flattened :
  let f' := fs (after (download_data [2022] true) w_2022) in
  returns (download_data [2022] true w_2022) = true ∧
  f' !! Path jank_file = None ∧
  f' !! Path (year_folder 2022) = None ∧
  f' !! (Path "data" ++ ["Bike share ridership 2022-01.csv"%string]) = Some (F csv_a) ∧
  f' !! (Path "data" ++ ["Bike share ridership 2022-11.csv"%string]) = Some (F csv_b).
Proof. vm_compute. done. Qed.

(** ** Year folders that hold a directory *)

(** A year folder with only files in it, none named like a directory of
    [data/], is flattened and removed. *)
Lemma flatten_flat_folder folder w :
  let top := Path "data" ++ [folder] in
  wf (fs w) →
  fs w !! top = Some D →
  subdirs (fs w) top = [] →
  (∀ x, x ∈ nondirs (fs w) top → fs w !! (Path "data" ++ [x]) ≠ Some D) →
  ∃ w', os_walk top flatten_dir w = Ok tt w' ∧
        (∀ x c, fs w !! (top ++ [x]) = Some (F c) →
                fs w' !! (Path "data" ++ [x]) = Some (F c)) ∧
        (∀ p, p = top ∨ inside top p → fs w' !! p = None).
Proof.
  intros top Hwf Htop Hsub Hfree.
  pose proof (flatten_walk_spec (max_list (length <$> (map_to_list (fs w)).*1))
                folder w Hwf Htop) as Hspec.
  fold top in Hspec.
  destruct (walk _ top flatten_dir w) as [[] w'|e w'] eqn:Hw.
  - exists w'. assert (os_walk top flatten_dir w = Ok tt w') as Hos by exact Hw.
    split; [done|].
    destruct (flatten_returns folder w w' Hwf Hos) as (_ & Hm & Hg & _).
    split; [done|]. intros p Hp. by destruct (Hg p Hp).
  - destruct Hspec as [(x & Hx & Hd)|[_ Hne]]; [by destruct (Hfree x Hx)|done].
Qed.

(** A year folder that holds a directory stops the fix-up: removing the
    folder right after its own files have moved fails, and the folder and
    what is below its directories stay. *)
Lemma flatten_stops_at_subdirectory folder w :
  let top := Path "data" ++ [folder] in
  wf (fs w) →
  fs w !! top = Some D →
  subdirs (fs w) top ≠ [] →
  returns (os_walk top flatten_dir w) = false.
Proof.
  intros top Hwf Htop Hsub.
  pose proof (flatten_walk_spec (max_list (length <$> (map_to_list (fs w)).*1))
                folder w Hwf Htop) as Hspec.
  fold top in Hspec. unfold os_walk, depth_bound.
  destruct (walk _ top flatten_dir w) as [[] w'|e w']; [|done].
  by destruct Hspec as (_ & Hnil & _).
Qed.

(** C6 at a year folder that holds a directory: the run raises when it
    tries to remove the folder; the folder is still there with the
    directory and the file below it, and that file is not in [data/]. *)
Example flatten_fails_on_nested_folder :
  let w' := after (download_data [2023] true) w_2023_deep in
  raised (download_data [2023] true w_2023_deep) = Some DirectoryNotEmpty ∧
  fs w' !! Path (year_folder 2023) = Some D ∧
  fs w' !! (Path (year_folder 2023) ++ ["extra"%string]) = Some D ∧
  fs w' !! (Path (year_folder 2023) ++ ["extra"; "Bike share ridership 2023-02.csv"]%string)
    = Some (F csv_b) ∧
  fs w' !! (Path "data" ++ ["Bike share ridership 2023-02.csv"%string]) = None ∧
  fs w' !! (Path "data" ++ ["Bike share ridership 2023-01.csv"%string]) = Some (F csv_a).
Proof. vm_compute. done. Qed.

(** ** The earlier copy of the script *)

Lemma legacy_load_data_eq w :
  Legacy.load_data w =
    match insert_new_trips (ensure_table w) with
    | Ok _ w' => Ok tt w'
    | Raise e w' => Raise e w'
    end.
Proof.
  unfold Legacy.load_data. rewrite bind_eq.
  unfold create_table_if_not_exists, ensure_table.
  rewrite bool_decide_eq_true_2 by constructor.
  destruct (tbs_trips (db w)); rewrite bind_eq;
    by destruct (insert_new_trips _).
Qed.

(** The table after a load is the same in both copies: the rows it held,
    followed by the input rows whose identifier matched none of them. *)
Lemma legacy_table_rows_after_load w w' :
  Legacy.load_data w = Ok tt w' →
  table_rows w' = table_rows w ++ new_rows (table_rows w) (input_rows w).
Proof.
  rewrite legacy_load_data_eq, insert_new_trips_eq.
  assert (tbs_trips (db (ensure_table w)) = Some (table_rows w)) as ->.
  { unfold ensure_table, table_rows. by destruct (tbs_trips (db w)) eqn:E. }
  assert (fs (ensure_table w) = fs w) as Hfs.
  { unfold ensure_table. by destruct (tbs_trips (db w)). }
  assert (input_rows (ensure_table w) = input_rows w) as ->.
  { unfold input_rows. by rewrite Hfs. }
  rewrite Hfs. case_decide; [done|].
  intros [= <-]. done.
Qed.

Lemma legacy_load_same_table w w1 w2 :
  load_data w = Ok tt w1 →
  Legacy.load_data w = Ok tt w2 →
  table_rows w2 = table_rows w1.
Proof.
  intros H1 H2.
  by rewrite (table_rows_after_load _ _ H1), (legacy_table_rows_after_load _ _ H2).
Qed.

(** The earlier copy on the sample 2022 archive: the year folder is gone
    and [data/], which now holds the files, stays. *)
Example legacy_download_2022_flattened :
  let f' := fs (after (Legacy.download_data [2022] true) w_2022) in
  returns (Legacy.download_data [2022] true w_2022) = true ∧
  f' !! Path jank_file = None ∧
  f' !! Path (year_folder 2022) = None ∧
  f' !! Path "data" = Some D ∧
  f' !! (Path "data" ++ ["Bike share ridership 2022-01.csv"%string]) = Some (F csv_a) ∧
  f' !! (Path "data" ++ ["Bike share ridership 2022-11.csv"%string]) = Some (F csv_b).
Proof. vm_compute. done. Qed.

(** The earlier copy stops at a year folder that holds a directory in the
    same way: [os.removedirs] raises on the leaf it is given. *)
Example legacy_flatten_stops_at_subdirectory :
  let w' := after (Legacy.download_data [2023] true) w_2023_deep in
  raised (Legacy.download_data [2023] true w_2023_deep) = Some DirectoryNotEmpty ∧
  fs w' !! (Path (year_folder 2023) ++ ["extra"; "Bike share ridership 2023-02.csv"]%string)
    = Some (F csv_b) ∧
  fs w' !! (Path "data" ++ ["Bike share ridership 2023-02.csv"%string]) = None.
Proof. vm_compute. done. Qed.

(** ** [load_data]: outcomes *)

Lemma load_data_cases w :
  let w1 := after declare_types w in
  load_data w = create_and_insert w1 ∧
  fs w1 = fs w ∧ remote w1 = remote w ∧ tbs_trips (db w1) = tbs_trips (db w) ∧
  is_Some (types (db w1) !! "user"%string) ∧
  (is_Some (types (db w1) !! "bike"%string) ↔
   (is_Some (types (db w) !! "user"%string) → is_Some (types (db w) !! "bike"%string))) ∧
  (∀ name labels, types (db w) !! name = Some labels →
                  types (db w1) !! name = Some labels).
Proof.
  intros w1. unfold w1, after. rewrite load_data_eq, bind_eq, declare_types_eq.
  destruct (types (db w) !! "user"%string) as [lu|] eqn:Hu;
    [|destruct (types (db w) !! "bike"%string) as [lb|] eqn:Hb]; simpl.
  - split_and!; eauto. split; eauto.
  - split_and!; eauto.
    + by rewrite lookup_insert_eq.
    + rewrite lookup_insert_ne by done. rewrite Hb. split; eauto.
    + intros name labels Hn. rewrite lookup_insert_ne; [done|congruence].
  - split_and!; eauto.
    + rewrite lookup_insert_ne by done. rewrite lookup_insert_eq. eauto.
    + rewrite lookup_insert_eq. split; [|eauto]. intros _ [x Hx]. discriminate Hx.
    + intros name labels Hn. rewrite !lookup_insert_ne; [done|congruence..].
Qed.

Lemma create_and_insert_out w :
  let w' := after create_and_insert w in
  fs w' = fs w ∧ types (db w') = types (db w) ∧
  table_rows w `prefix_of` table_rows w' ∧
  (returns (create_and_insert w) = false → table_rows w' = table_rows w).
Proof.
  intros w'. unfold w', after. rewrite create_and_insert_eq.
  destruct (types (db w) !! "user"%string), (types (db w) !! "bike"%string);
    try (simpl; split_and!; done).
  case_decide; cbn [out returns].
  - destruct (before_insert_frame w) as (-> & _ & ->).
    assert (table_rows (before_insert w) = table_rows w) as ->; [|done].
    unfold before_insert, table_rows; simpl. by rewrite tbs_trips_ensure.
  - rewrite table_rows_after_insert.
    assert (fs (after_insert w) = fs (before_insert w)) as -> by done.
    assert (types (db (after_insert w)) = types (db w)) as -> by done.
    destruct (before_insert_frame w) as (-> & _ & _).
    split_and!; [done..| by apply prefix_app_r |done].
Qed.

(** X1.  A load that returns had at least one file matching the glob and
    did not start with [user] declared and [bike] missing; after it both
    types are declared and the table exists. *)
Theorem load_data_returns_only_with_input_and_types w :
  returns (load_data w) = true →
  csv_inputs (fs w) ≠ [] ∧
  (is_Some (types (db w) !! "user"%string) →
   is_Some (types (db w) !! "bike"%string)) ∧
  is_Some (types (db (after load_data w)) !! "user"%string) ∧
  is_Some (types (db (after load_data w)) !! "bike"%string) ∧
  is_Some (tbs_trips (db (after load_data w))).
Proof.
  intros Hret. pose proof (returns_after _ _ Hret) as Hok.
  pose proof (load_data_ok _ _ Hok) as (Hin & _ & _ & Hu & Hb & Ht & _).
  split_and!; [done| |done|done|by rewrite Ht].
  destruct (load_data_cases w) as (Heq & Hfs & _ & _ & [u Hu'] & Hbk & _).
  apply Hbk. revert Hret. rewrite Heq, create_and_insert_eq, Hu'.
  by destruct (types (db (after declare_types w)) !! "bike"%string).
Qed.

Lemma load_data_returns_only_with_input_and_types_witness :
  csv_inputs (fs w_plain) ≠ [] ∧
  (is_Some (types (db w_plain) !! "user"%string) →
   is_Some (types (db w_plain) !! "bike"%string)) ∧
  is_Some (types (db (after load_data w_plain)) !! "user"%string) ∧
  is_Some (types (db (after load_data w_plain)) !! "bike"%string) ∧
  is_Some (tbs_trips (db (after load_data w_plain))).
Proof.
  apply load_data_returns_only_with_input_and_types. vm_compute. reflexivity.
Defined.

(** X2.  Whatever its outcome, [load_data] keeps the rows the table had,
    in their order, in front of whatever it adds; a load that raises adds
    nothing. *)
Theorem load_data_only_appends w :
  let w' := after load_data w in
  table_rows w `prefix_of` table_rows w' ∧
  (returns (load_data w) = false → table_rows w' = table_rows w).
Proof.
  intros w'. unfold w', after.
  destruct (load_data_cases w) as (-> & Hfs & _ & Ht & _).
  destruct (create_and_insert_out (after declare_types w)) as (_ & _ & Hp & Hr).
  assert (table_rows (after declare_types w) = table_rows w) as Htr
    by (unfold table_rows; by rewrite Ht).
  unfold after in *. rewrite Htr in Hp, Hr. done.
Qed.

(** X7.  A type that is declared when [load_data] starts keeps its
    labels, whatever they are: the script never redefines or drops one. *)
Theorem load_data_keeps_declared_types w name labels :
  types (db w) !! name = Some labels →
  types (db (after load_data w)) !! name = Some labels.
Proof.
  intros Hn. unfold after.
  destruct (load_data_cases w) as (-> & _ & _ & _ & _ & _ & Hkeep).
  destruct (create_and_insert_out (after declare_types w)) as (_ & Hty & _).
  unfold after in *. rewrite Hty. by apply Hkeep.
Qed.

Lemma load_data_keeps_declared_types_witness :
  types (db (after load_data w_half_declared)) !! "user"%string =
    Some ["Casual Member"; "Annual Member"]%string.
Proof. apply load_data_keeps_declared_types. reflexivity. Defined.

(** X3.  With no input file the load raises at the [INSERT], but by then
    its DDL has run: both types are declared and the table exists, with the
    rows it had. *)
Theorem load_data_without_input w :
  csv_inputs (fs w) = [] →
  (is_Some (types (db w) !! "user"%string) →
   is_Some (types (db w) !! "bike"%string)) →
  let w' := after load_data w in
  raised (load_data w) = Some IOException ∧
  tbs_trips (db w') = Some (table_rows w) ∧
  is_Some (types (db w') !! "user"%string) ∧
  is_Some (types (db w') !! "bike"%string).
Proof.
  intros Hnil Hty w'. unfold w', after.
  destruct (load_data_cases w) as (-> & Hfs & _ & Ht & [u Hu] & Hb & _).
  apply Hb in Hty as [b Hbk].
  rewrite create_and_insert_eq, Hu, Hbk, Hfs.
  rewrite decide_True by done. cbn [out raised].
  set (w1 := after declare_types w) in *.
  destruct (before_insert_frame w1) as (_ & _ & Hty').
  rewrite Hty', Hu, Hbk. split_and!; eauto.
  unfold before_insert; simpl. rewrite tbs_trips_ensure.
  unfold table_rows; simpl. by rewrite Ht.
Qed.

Lemma load_data_without_input_witness :
  raised (load_data w_no_input) = Some IOException ∧
  tbs_trips (db (after load_data w_no_input)) = Some (table_rows w_no_input) ∧
  is_Some (types (db (after load_data w_no_input)) !! "user"%string) ∧
  is_Some (types (db (after load_data w_no_input)) !! "bike"%string).
Proof.
  apply (load_data_without_input w_no_input).
  - vm_compute. reflexivity.
  - intros [x Hx]. vm_compute in Hx. discriminate Hx.
Defined.

(** X4.  With [user] declared and [bike] not, the first [CREATE TYPE]
    raises, the handler logs and the second is never run; the table
    statement then fails on the missing type.  The catalog is left as it
    was. *)
Theorem load_data_half_declared w :
  is_Some (types (db w) !! "user"%string) →
  types (db w) !! "bike"%string = None →
  load_data w =
    Raise CatalogException
      (emit (Log DEBUG "Creating table tbs_trips") (emit already_defined w)).
Proof.
  intros [u Hu] Hb.
  rewrite load_data_eq, bind_eq, declare_types_eq, Hu, create_and_insert_eq.
  simpl. by rewrite Hu, Hb.
Qed.

Lemma load_data_half_declared_witness :
  load_data w_half_declared =
    Raise CatalogException
      (emit (Log DEBUG "Creating table tbs_trips")
         (emit already_defined w_half_declared)).
Proof.
  apply load_data_half_declared.
  - exists ["Casual Member"; "Annual Member"]%string. reflexivity.
  - reflexivity.
Defined.

(** X5.  The count a successful load logs last is the number of rows
    the table grew by. *)
Theorem load_data_reports_growth w w' :
  load_data w = Ok tt w' →
  last (trace w') =
    Some (inserted (length (table_rows w') - length (table_rows w))).
Proof.
  intros (_ & _ & _ & _ & _ & Ht & pre & Htr)%load_data_ok.
  rewrite Htr, app_assoc, last_snoc.
  assert (table_rows w' =
          table_rows w ++ new_rows (table_rows w) (input_rows w)) as ->
    by (unfold table_rows at 1; by rewrite Ht).
  rewrite length_app. do 2 f_equal. lia.
Qed.

Lemma load_data_reports_growth_witness :
  last (trace (after load_data w_overlap)) =
    Some (inserted (length (table_rows (after load_data w_overlap))
                    - length (table_rows w_overlap))).
Proof.
  apply load_data_reports_growth. apply returns_after. vm_compute. reflexivity.
Defined.

(** ** [load_data]: where the rows come from *)

Lemma string_length_app (a b : string) :
  String.length (a +:+ b) = (String.length a + String.length b)%nat.
Proof. induction a as [|c a IH]; simpl; [done|by rewrite IH]. Qed.

Lemma rfind_dot_app a : ∀ b i best,
  rfind_dot (a +:+ b) i best = rfind_dot b (i + String.length a) (rfind_dot a i best).
Proof.
  induction a as [|c a IH]; intros b i best; simpl.
  - by rewrite Nat.add_0_r.
  - rewrite IH. f_equal. lia.
Qed.

Lemma substring_app_skip a : ∀ b m,
  String.substring (String.length a) m (a +:+ b) = String.substring 0 m b.
Proof. induction a as [|c a IH]; intros b m; simpl; [done|apply IH]. Qed.

Lemma suffix_app_csv pre :
  pre ≠ EmptyString → suffix (pre +:+ ".csv") = ".csv"%string.
Proof.
  intros Hne. unfold suffix.
  assert (rfind_dot (pre +:+ ".csv") 0 None = Some (String.length pre)) as ->
    by (rewrite rfind_dot_app; reflexivity).
  rewrite string_length_app. change (String.length ".csv") with 4%nat.
  assert (0 < String.length pre)%nat as Hlen by (destruct pre; [done|simpl; lia]).
  assert (((0 <? String.length pre) &&
           (String.length pre <? String.length pre + 4 - 1))%nat = true) as ->
    by (apply andb_true_iff; split; apply Nat.ltb_lt; lia).
  replace (String.length pre + 4 - String.length pre)%nat with 4%nat by lia.
  by rewrite substring_app_skip.
Qed.

Lemma ends_with_csv x : ∀ acc,
  String.prefix "vsc." (String.rev_app x acc) = true →
  (4 ≤ String.length x)%nat →
  ∃ pre, x = pre +:+ ".csv".
Proof.
  induction x as [|a x IH]; intros acc Hp Hlen; [simpl in Hlen; lia|].
  destruct (decide (4 ≤ String.length x)%nat) as [Hge|Hlt].
  - destruct (IH _ Hp Hge) as [pre ->]. by exists (String a pre).
  - destruct x as [|b [|c [|d [|]]]]; simpl in Hlen, Hlt; try lia.
    revert Hp. cbn [String.rev_app String.prefix].
    repeat (destruct (Ascii.ascii_dec _ _) as [<-|]; [|done]).
    intros _. by exists EmptyString.
Qed.

Lemma glob_match_suffix x : glob_match x = true → suffix x = ".csv"%string.
Proof.
  unfold glob_match, ends_with.
  intros [[_ He]%andb_true_iff Hl%Nat.leb_le]%andb_true_iff.
  simpl in Hl.
  destruct (ends_with_csv x EmptyString He) as [pre ->]; [lia|].
  apply suffix_app_csv. intros ->. simpl in Hl. lia.
Qed.

Lemma elem_of_csv_inputs f x :
  x ∈ csv_inputs f ↔
  glob_match x = true ∧ ∃ c, f !! (Path "data" ++ [x]) = Some (F c).
Proof.
  unfold csv_inputs. rewrite merge_sort_Permutation, list_elem_of_filter.
  rewrite elem_of_nondirs. by rewrite Is_true_true.
Qed.

Lemma elem_of_input_rows w r :
  r ∈ input_rows w ↔
  ∃ x lines, glob_match x = true ∧
             fs w !! (Path "data" ++ [x]) = Some (F (Csv lines)) ∧
             Some r ∈ lines.
Proof.
  unfold input_rows. rewrite list_elem_of_bind. split.
  - intros (x & Hr & (Hg & c & Hc)%elem_of_csv_inputs).
    rewrite Hc in Hr. destruct c as [lines| |]; simpl in Hr;
      try by apply not_elem_of_nil in Hr.
    apply list_elem_of_omap in Hr as (o & Ho & Heq). simpl in Heq. subst o.
    eauto 6.
  - intros (x & lines & Hg & Hx & Hr). exists x. split.
    + rewrite Hx. simpl. apply list_elem_of_omap. by exists (Some r).
    + apply elem_of_csv_inputs. eauto.
Qed.

(** X6.  The rows of the table after a load: those it had, and each
    well-formed line of a file directly in [data/] whose name matches the
    glob, provided its identifier matches none the table had. *)
Theorem loaded_rows_come_from_matching_files w w' r :
  load_data w = Ok tt w' →
  r ∈ table_rows w' ↔
  r ∈ table_rows w ∨
  (id_exists (table_rows w) r = false ∧
   ∃ x lines, glob_match x = true ∧
              fs w !! (Path "data" ++ [x]) = Some (F (Csv lines)) ∧
              Some r ∈ lines).
Proof.
  intros Hl. rewrite (table_rows_after_load _ _ Hl).
  rewrite elem_of_app, elem_of_new_rows, elem_of_input_rows. tauto.
Qed.

Lemma w_overlap_wf : wf (fs w_overlap).
Proof. apply (bool_decide_unpack _). vm_compute. reflexivity. Qed.

Lemma loaded_rows_come_from_matching_files_witness :
  trip (Some 3) 5 ∈ table_rows (after load_data w_overlap) ↔
  trip (Some 3) 5 ∈ table_rows w_overlap ∨
  (id_exists (table_rows w_overlap) (trip (Some 3) 5) = false ∧
   ∃ x lines, glob_match x = true ∧
              fs w_overlap !! (Path "data" ++ [x]) = Some (F (Csv lines)) ∧
              Some (trip (Some 3) 5) ∈ lines).
Proof.
  apply loaded_rows_come_from_matching_files.
  apply returns_after. vm_compute. reflexivity.
Defined.

Lemma cleaned_no_input f f' :
  cleaned (inside (Path "data")) f f' → csv_inputs f' = [].
Proof.
  intros [H1 H2]. apply Permutation_nil_r.
  unfold csv_inputs. rewrite merge_sort_Permutation.
  assert (filter (λ n, glob_match n) (nondirs f' (Path "data")) = []) as ->; [|done].
  apply filter_eq_nil. intros x [c Hc]%elem_of_nondirs Hg%Is_true_true.
  apply glob_match_suffix in Hg.
  destruct (H1 (Path "data" ++ [x])) as [Hsame|[Hn _]]; [|congruence].
  rewrite Hc in Hsame. symmetry in Hsame.
  rewrite (H2 _ c Hsame) in Hc; [done| |apply inside_snoc].
  by rewrite last_snoc.
Qed.

Lemma load_data_declared_no_input w :
  is_Some (types (db w) !! "user"%string) →
  is_Some (types (db w) !! "bike"%string) →
  csv_inputs (fs w) = [] →
  load_data w = Raise IOException (before_insert (emit already_defined w)).
Proof.
  intros [u Hu] [b Hb] Hnil.
  rewrite load_data_eq, bind_eq, declare_types_eq, Hu, create_and_insert_eq.
  simpl db. simpl fs. rewrite Hu, Hb. by rewrite decide_True.
Qed.

(** X12.  After a load and the clean-up a second load finds no input: it
    raises at the [INSERT] and leaves the table as the first load left
    it. *)
Theorem load_after_cleanup_finds_nothing w w1 :
  wf (fs w) →
  load_data w = Ok tt w1 →
  let w2 := after remove_csv w1 in
  returns (remove_csv w1) = true ∧
  csv_inputs (fs w2) = [] ∧
  raised (load_data w2) = Some IOException ∧
  table_rows (after load_data w2) = table_rows w1.
Proof.
  intros Hwf (_ & Hfs & _ & Hu & Hb & Ht & _)%load_data_ok w2.
  rewrite <- Hfs in Hwf.
  unfold w2, after.
  destruct (remove_csv_cleaned w1 Hwf) as (w' & -> & Hdb & Hc). simpl.
  apply cleaned_no_input in Hc. rewrite <- Hdb in Hu, Hb.
  rewrite (load_data_declared_no_input w' Hu Hb Hc). simpl.
  split_and!; [done..|].
  unfold before_insert, table_rows. simpl. rewrite tbs_trips_ensure. simpl.
  unfold table_rows. simpl. by rewrite Hdb.
Qed.

Lemma load_after_cleanup_finds_nothing_witness :
  returns (remove_csv (after load_data w_overlap)) = true ∧
  csv_inputs (fs (after remove_csv (after load_data w_overlap))) = [] ∧
  raised (load_data (after remove_csv (after load_data w_overlap))) = Some IOException ∧
  table_rows (after load_data (after remove_csv (after load_data w_overlap))) =
    table_rows (after load_data w_overlap).
Proof.
  apply (load_after_cleanup_finds_nothing w_overlap).
  - apply w_overlap_wf.
  - apply returns_after. vm_compute. reflexivity.
Defined.

(** ** The earlier load, and the clean-up at its edges *)

(** X8.  The earlier copy's load returns only when the glob matches a
    file, never declares a type, and whenever the current copy's load
    returns it returns too, with the same table. *)
Theorem legacy_load_needs_no_types w :
  (returns (Legacy.load_data w) = true → csv_inputs (fs w) ≠ []) ∧
  types (db (after Legacy.load_data w)) = types (db w) ∧
  (∀ w1, load_data w = Ok tt w1 →
         ∃ w2, Legacy.load_data w = Ok tt w2 ∧
               tbs_trips (db w2) = tbs_trips (db w1)).
Proof.
  unfold after. rewrite legacy_load_data_eq, insert_new_trips_eq.
  rewrite tbs_trips_ensure, fs_ensure, types_ensure.
  assert (input_rows (ensure_table w) = input_rows w) as ->
    by (unfold input_rows; by rewrite fs_ensure).
  case_decide as Hin; cbn zeta; simpl.
  - split_and!; [done|by rewrite types_ensure|].
    intros w1 (Hne & _)%load_data_ok. by destruct Hne.
  - split_and!; [done..|].
    intros w1 (_ & _ & _ & _ & _ & Ht & _)%load_data_ok. eexists. split; [done|].
    by rewrite Ht.
Qed.

(** X10.  Without a directory [data/] the clean-up only logs: the walk
    yields nothing and no error is raised. *)
Theorem remove_csv_without_data w :
  fs w !! Path "data" ≠ Some D →
  remove_csv w = Ok tt (emit (Log INFO "Removing csv files") w).
Proof.
  intros Hd. unfold remove_csv. rewrite bind_eq, log_eq.
  unfold os_walk, depth_bound. cbn [walk].
  change (fs (emit _ w)) with (fs w).
  by destruct (fs w !! Path "data") as [[c|]|].
Qed.

Lemma remove_csv_without_data_witness :
  remove_csv (set_fs ∅ w_plain) =
    Ok tt (emit (Log INFO "Removing csv files") (set_fs ∅ w_plain)).
Proof. apply remove_csv_without_data. discriminate. Defined.

Lemma cleaned_again (S : path → Prop) f f1 f2 :
  cleaned S f f1 → cleaned S f1 f2 → f2 = f1.
Proof.
  intros [H1 H1'] [H2 _]. apply map_eq. intros p.
  destruct (H2 p) as [Hp|(_ & c & Hc & Hsuf & HS)]; [done|].
  destruct (H1 p) as [Hp1|(Hn & _)]; [|congruence].
  rewrite Hp1 in Hc. rewrite (H1' p c Hc Hsuf HS) in Hp1. congruence.
Qed.

(** X11.  Cleaning up a second time returns and changes nothing. *)
Theorem remove_csv_twice w :
  wf (fs w) →
  let w1 := after remove_csv w in
  returns (remove_csv w) = true ∧ returns (remove_csv w1) = true ∧
  fs (after remove_csv w1) = fs w1.
Proof.
  intros Hwf w1. unfold w1, after.
  destruct (remove_csv_cleaned w Hwf) as (w' & -> & _ & Hc). simpl.
  destruct (remove_csv_cleaned w' (cleaned_wf _ _ _ Hc Hwf)) as (w'' & -> & _ & Hc').
  simpl. split_and!; [done..|]. by apply (cleaned_again _ _ _ _ Hc Hc').
Qed.

Lemma remove_csv_twice_witness :
  returns (remove_csv w_mixed) = true ∧
  returns (remove_csv (after remove_csv w_mixed)) = true ∧
  fs (after remove_csv (after remove_csv w_mixed)) = fs (after remove_csv w_mixed).
Proof. apply (remove_csv_twice w_mixed). apply w_mixed_wf. Defined.

(** ** [export_as_parquet]: outcomes *)

Lemma export_as_parquet_eq w :
  export_as_parquet w =
    let w1 := emit (Log INFO "Saving to parquet") w in
    match tbs_trips (db w) with
    | None => Raise CatalogException w1
    | Some tbl =>
        match fs w !! Path "data", fs w !! Path "./data/tbs.parquet" with
        | Some D, Some D => Raise IOException w1
        | Some D, _ =>
            Ok tt (set_fs (<[Path "./data/tbs.parquet" :=
                               F (Parquet "zstd" 3 (order_by_trip_id tbl))]> (fs w)) w1)
        | _, _ => Raise IOException w1
        end
    end.
Proof.
  unfold export_as_parquet. rewrite bind_eq, log_eq.
  unfold copy_to_parquet. simpl db. simpl fs.
  destruct (tbs_trips (db w)) as [tbl|]; [|done].
  unfold write_file. rewrite Path_export, Path_data.
  change (parent ["data"; "tbs.parquet"]%string) with ["data"%string].
  destruct (fs w !! ["data"%string]) as [[c|]|]; try done.
  by destruct (fs w !! ["data"; "tbs.parquet"]%string) as [[c|]|].
Qed.

(** X9.  The export returns exactly when the table exists, [data/] is a
    directory and the target is not one.  A missing table is a catalog
    error, anything else an I/O error; a failed export writes nothing, and
    no export changes the database. *)
Theorem export_fails_cleanly w :
  let w' := after export_as_parquet w in
  (returns (export_as_parquet w) = true ↔ can_export w) ∧
  (tbs_trips (db w) = None →
   raised (export_as_parquet w) = Some CatalogException) ∧
  (is_Some (tbs_trips (db w)) → ¬ can_export w →
   raised (export_as_parquet w) = Some IOException) ∧
  (returns (export_as_parquet w) = false → fs w' = fs w) ∧
  db w' = db w.
Proof.
  intros w'. unfold w', after, can_export. rewrite export_as_parquet_eq.
  destruct (tbs_trips (db w)) as [tbl|]; cbn zeta.
  - destruct (fs w !! Path "data") as [[c|]|];
      [| destruct (fs w !! Path "./data/tbs.parquet") as [[c|]|] |];
      simpl; split_and!; try done; try (split; [done|]); try (by intuition eauto); try (by intros (_ & ? & ?)).
  all: intros Hs Hn; destruct Hn; by split_and!.
  - simpl. split_and!; try done. split; [done|]. by intros [[? ?] _].
Qed.

(** ** Relations every step of a computation keeps *)

Section keeps.
Context (R : world → world → Prop) `{!Reflexive R, !Transitive R}.

Lemma keeps_ret {A} (a : A) : keeps R (mret a).
Proof. by intros w. Qed.

Lemma keeps_raise {A} e : keeps R (raise (A := A) e).
Proof. by intros w. Qed.

Lemma keeps_bind {A B} (m : M A) (k : A → M B) :
  keeps R m → (∀ a, keeps R (k a)) → keeps R (m ≫= k).
Proof.
  intros Hm Hk w. rewrite bind_eq. specialize (Hm w).
  destruct (m w) as [a w1|e w1]; [|done].
  etrans; [exact Hm|apply Hk].
Qed.

Lemma keeps_for_each {A} (xs : list A) body :
  (∀ x, keeps R (body x)) → keeps R (for_each xs body).
Proof.
  intros Hb. induction xs as [|x xs IH]; simpl.
  - apply (keeps_ret tt).
  - apply keeps_bind; [apply Hb|by intros _].
Qed.

(** A walk keeps [R] when the loop body does at every directory it can
    reach, given the listing of that directory at that moment. *)
Lemma keeps_walk (Q : path → Prop) body :
  (∀ top x, Q top → Q (top ++ [x])) →
  (∀ top w, Q top →
     R w (out (body top (subdirs (fs w) top) (nondirs (fs w) top) w))) →
  ∀ depth top, Q top → keeps R (walk depth top body).
Proof.
  intros HQ Hb depth.
  induction depth as [|n IH]; intros top Htop w; simpl;
    destruct (fs w !! top) as [[c|]|]; try done.
  rewrite bind_eq. pose proof (Hb top w Htop) as Hw.
  destruct (body top _ _ w) as [a w1|e w1]; [|done].
  etrans; [exact Hw|]. apply keeps_for_each. intros d. apply IH, HQ, Htop.
Qed.

Lemma keeps_os_walk (Q : path → Prop) body top :
  (∀ top x, Q top → Q (top ++ [x])) →
  (∀ top w, Q top →
     R w (out (body top (subdirs (fs w) top) (nondirs (fs w) top) w))) →
  Q top → keeps R (os_walk top body).
Proof. intros HQ Hb Htop w. unfold os_walk. by apply (keeps_walk Q). Qed.
End keeps.

Global Instance same_requests_refl : Reflexive same_requests.
Proof. by intros w. Qed.
Global Instance same_requests_trans : Transitive same_requests.
Proof. intros w1 w2 w3 H1 H2. unfold same_requests in *. congruence. Qed.

Lemma requests_snoc_log t lvl msg : requests (t ++ [Log lvl msg]) = requests t.
Proof. unfold requests. rewrite omap_app. simpl. by rewrite app_nil_r. Qed.

Lemma requests_snoc_get t u n : requests (t ++ [HttpGet u n]) = requests t ++ [(u, n)].
Proof. unfold requests. by rewrite omap_app. Qed.

Lemma quiet_log lvl msg : keeps same_requests (log lvl msg).
Proof. intros w. rewrite log_eq. apply requests_snoc_log. Qed.

Lemma quiet_lift_fs op : keeps same_requests (lift_fs op).
Proof. intros w. unfold lift_fs. by destruct (op (fs w)). Qed.

Lemma quiet_ZipFile_bytes c : keeps same_requests (ZipFile_bytes c).
Proof. intros w. by destruct c. Qed.

Lemma quiet_unpack_nested : keeps same_requests unpack_nested.
Proof.
  apply keeps_bind; [apply _..| |].
  - intros w. unfold ZipFile_open. destruct (fs w !! _) as [[c|]|]; try done.
    apply quiet_ZipFile_bytes.
  - intros z. apply keeps_bind; [apply _..| |intros _; apply quiet_lift_fs].
    apply keeps_for_each; [apply _..|]. intros m. apply quiet_lift_fs.
Qed.

Lemma quiet_flatten : ∀ top, keeps same_requests (os_walk top flatten_dir).
Proof.
  intros top. apply (keeps_os_walk _ (λ _, True)); [done| |done].
  intros root w _.
  apply (keeps_bind same_requests); [|intros _; apply quiet_lift_fs].
  apply keeps_for_each; [apply _..|]. intros f. apply quiet_lift_fs.
Qed.

Lemma quiet_after_request unzip year (r : http_response) :
  keeps same_requests
    (z ← ZipFile_bytes (r_content r);
     extractall z (Path "data") ;;
     if negb unzip then mret tt
     else
       (if bool_decide (year = BAD_YEAR) then unpack_nested else mret tt) ;;
       (if bool_decide (year ∈ REMOVE_FOLDER)
        then os_walk (Path (year_folder year)) flatten_dir
        else mret tt)).
Proof.
  apply keeps_bind; [apply _..|apply quiet_ZipFile_bytes|]. intros z.
  apply keeps_bind; [apply _..| |].
  { apply keeps_for_each; [apply _..|]. intros m. apply quiet_lift_fs. }
  intros _. destruct (negb unzip); [apply (keeps_ret _ tt)|].
  apply keeps_bind; [apply _..| |].
  - case_bool_decide; [apply quiet_unpack_nested|apply (keeps_ret _ tt)].
  - intros _. case_bool_decide; [apply quiet_flatten|apply (keeps_ret _ tt)].
Qed.

Lemma download_year_requests unzip item w :
  requests (trace (out (download_year unzip item w))) =
    requests (trace w) ++ [(archive_url item.1 item.2, 60)].
Proof.
  rewrite download_year_eq. cbn zeta.
  set (w1 := emit (HttpGet _ 60) _).
  assert (requests (trace w1) =
          requests (trace w) ++ [(archive_url item.1 item.2, 60)]) as Hw1.
  { unfold w1. simpl. by rewrite requests_snoc_get, requests_snoc_log. }
  destruct (remote w _) as [|st b]; [done|].
  pose proof (quiet_after_request unzip item.1 (HttpResponse st b) w1) as Hq.
  unfold same_requests in Hq. simpl r_content in Hq. by rewrite Hq.
Qed.

Lemma download_loop_requests unzip items : ∀ w,
  ∃ done_,
    done_ `prefix_of` items ∧
    requests (trace (out (for_each items (download_year unzip) w))) =
      requests (trace w) ++ ((λ it, (archive_url it.1 it.2, 60)) <$> done_) ∧
    (returns (for_each items (download_year unzip) w) = true → done_ = items) ∧
    (returns (for_each items (download_year unzip) w) = false →
     (length done_ ≤ length items)%nat ∧
     ∃ it w1, last done_ = Some it ∧ returns (download_year unzip it w1) = false).
Proof.
  induction items as [|it items IH]; intros w.
  - exists []. rewrite for_each_nil. simpl. rewrite app_nil_r. split_and!; done.
  - rewrite for_each_cons. pose proof (download_year_requests unzip it w) as Hy.
    destruct (download_year unzip it w) as [[] w1|e w1] eqn:Hd; simpl in Hy.
    + destruct (IH w1) as (d & Hpre & Hreq & Hret & Hfail).
      exists (it :: d). split_and!.
      * by apply prefix_cons.
      * rewrite Hreq, Hy, fmap_cons, <- app_assoc. done.
      * intros Hr. by rewrite (Hret Hr).
      * intros Hr. destruct (Hfail Hr) as (Hlen & it' & w' & Hl & Hno).
        split; [simpl; lia|]. exists it', w'. split; [|done].
        destruct d; [done|]. done.
    + exists [it]. split_and!.
      * apply prefix_cons, prefix_nil.
      * done.
      * done.
      * intros _. split; [simpl; lia|]. exists it, w. split; [done|]. by rewrite Hd.
Qed.

Lemma download_loop_ok_requests unzip items w w1 :
  for_each items (download_year unzip) w = Ok tt w1 →
  requests (trace w1) =
    requests (trace w) ++ ((λ it, (url_of it, 60)) <$> items).
Proof.
  intros Hok.
  destruct (download_loop_requests unzip items w) as (d & _ & Hg & Hall & _).
  rewrite Hok in Hg, Hall. simpl in *. by rewrite (Hall eq_refl) in Hg.
Qed.

(** X13.  The requests of one run: one GET with a 60 second timeout per
    requested year, in the order of [YEAR_MAP].  A run that returns has
    sent all of them.  A run that raises does so in the first iteration
    that raises, having sent the requests of the years before it and that
    year's, and none for a later year. *)
Theorem download_requests_one_per_year years unzip w :
  requested years `sublist_of` YEAR_MAP ∧
  (∀ w', download_data years unzip w = Ok tt w' →
     requests (trace w') =
       requests (trace w) ++ ((λ it, (url_of it, 60)) <$> requested years)) ∧
  (∀ e w2, download_data years unzip w = Raise e w2 →
     ∃ pre it post w1,
       requested years = pre ++ it :: post ∧
       for_each pre (download_year unzip)
         (emit (Log INFO "Beginning data download") w) = Ok tt w1 ∧
       download_year unzip it w1 = Raise e w2 ∧
       requests (trace w2) =
         requests (trace w) ++ ((λ it, (url_of it, 60)) <$> pre ++ [it])).
Proof.
  split; [apply requested_sublist|]. rewrite download_data_eq. split.
  - intros w' Hok. rewrite (download_loop_ok_requests _ _ _ _ Hok). simpl.
    by rewrite requests_snoc_log.
  - intros e w2 (pre & it & post & w1 & Hsplit & Hpre & Hit)%for_each_raises.
    exists pre, it, post, w1. split_and!; [done..|].
    pose proof (download_year_requests unzip it w1) as Hy.
    rewrite Hit in Hy. simpl in Hy.
    rewrite Hy, (download_loop_ok_requests _ _ _ _ Hpre). simpl.
    rewrite requests_snoc_log, fmap_app. by rewrite <- app_assoc.
Qed.

Lemma requested_ext years years' :
  (∀ y, y ∈ YEAR_MAP.*1 → y ∈ years ↔ y ∈ years') →
  requested years = requested years'.
Proof.
  intros H. unfold requested.
  induction YEAR_MAP as [|it l IH]; [done|].
  rewrite !filter_cons.
  assert (it.1 ∈ years ↔ it.1 ∈ years') as Hit by (apply H; left).
  rewrite IH by (intros y Hy; apply H; by right).
  destruct (decide (it.1 ∈ years)), (decide (it.1 ∈ years')); tauto.
Qed.

(** A membership test on an iterator answers like the one on the list of
    what it yields, and a test that fails leaves nothing. *)
Lemma iterator_contains_spec y it :
  ((iterator_contains y it).1 = true ↔ y ∈ it) ∧
  ((iterator_contains y it).1 = false → (iterator_contains y it).2 = []) ∧
  (iterator_contains y it).2 `suffix_of` it.
Proof.
  induction it as [|z it (IH1 & IH2 & IH3)]; simpl.
  - split_and!; [|done|done]. split; [done|]. by intros ?%not_elem_of_nil.
  - destruct (decide (z = y)) as [->|Hne]; simpl.
    + split_and!; [|done|by apply suffix_cons_r]. split; [left|done].
    + split_and!; [|done|by apply suffix_cons_r].
      rewrite IH1. split; [by right|]. by intros [->|?]%elem_of_cons.
Qed.

Lemma requested_from_iterator_nil items : requested_from_iterator items [] = [].
Proof. induction items as [|x items IH]; [done|]. simpl. exact IH. Qed.

Lemma requested_from_iterator_prefix items : ∀ it,
  requested_from_iterator items it `prefix_of` items.
Proof.
  induction items as [|x items IH]; intros it; [done|].
  cbn [requested_from_iterator]. cbv zeta.
  destruct (iterator_contains_spec x.1 it) as (_ & Hf & _).
  destruct (iterator_contains x.1 it) as [[] r]; cbn [fst snd] in *.
  - apply prefix_cons, IH.
  - rewrite (Hf eq_refl), requested_from_iterator_nil. apply prefix_nil.
Qed.

Lemma requested_from_iterator_elem items : ∀ it x,
  x ∈ requested_from_iterator items it → x.1 ∈ it.
Proof.
  induction items as [|x0 items IH]; intros it x; [by intros ?%not_elem_of_nil|].
  cbn [requested_from_iterator]. cbv zeta.
  destruct (iterator_contains_spec x0.1 it) as (Ht & _ & Hs).
  destruct (iterator_contains x0.1 it) as [[] r]; cbn [fst snd] in *.
  - intros [->|Hin]%elem_of_cons; [by apply Ht|].
    apply IH in Hin. destruct Hs as [k ->]. apply elem_of_app. by right.
  - intros Hin%IH. destruct Hs as [k ->]. apply elem_of_app. by right.
Qed.

(** X14.  For a container ([list], [set], a dict view as in [__main__]),
    only which of the four known years occur in [years] matters: their
    order, repetitions and unknown years do not.  A one-shot iterator is
    consumed by the membership tests: the years fetched are then an
    initial segment of [YEAR_MAP], each of them yielded by the iterator,
    and the order does matter. *)
Theorem download_years_as_set unzip w :
  (∀ years years',
     (∀ y, y ∈ YEAR_MAP.*1 → y ∈ years ↔ y ∈ years') →
     download_data years unzip w = download_data years' unzip w) ∧
  (∀ it,
     requested_from_iterator YEAR_MAP it `prefix_of` YEAR_MAP ∧
     ∀ x, x ∈ requested_from_iterator YEAR_MAP it → x ∈ requested it) ∧
  download_data_from_iterator YEAR_MAP.*1 unzip w =
    download_data YEAR_MAP.*1 unzip w ∧
  requested_from_iterator YEAR_MAP [2022; 2021] =
    [(2021, "ddc039f6-07fa-47a3-a707-0121ade3b307"%string)] ∧
  (requested [2022; 2021]).*1 = [2021; 2022].
Proof.
  split_and!.
  - intros years years' H. by rewrite !download_data_eq, (requested_ext _ _ H).
  - intros it. split.
    + apply requested_from_iterator_prefix.
    + intros x Hx. unfold requested. apply list_elem_of_filter. split.
      * by apply requested_from_iterator_elem in Hx.
      * destruct (requested_from_iterator_prefix YEAR_MAP it) as [k Hk].
        rewrite Hk. apply elem_of_app. by left.
  - done.
  - done.
  - done.
Qed.

(** X15.  When no requested year is known, the download only logs its
    first line. *)
Theorem download_nothing_requested years unzip w :
  (∀ y, y ∈ years → y ∉ YEAR_MAP.*1) →
  download_data years unzip w =
    Ok tt (emit (Log INFO "Beginning data download") w).
Proof.
  intros H. rewrite download_data_eq.
  assert (requested years = []) as ->; [|done].
  unfold requested. apply filter_eq_nil. intros it Hit Hy.
  apply (H _ Hy). apply list_elem_of_fmap. eauto.
Qed.

Lemma download_nothing_requested_witness :
  download_data [2019; 2025] true w_2022 =
    Ok tt (emit (Log INFO "Beginning data download") w_2022).
Proof.
  apply download_nothing_requested. intros y Hy.
  apply elem_of_cons in Hy as [->|Hy];
    [|apply elem_of_cons in Hy as [->|Hy]; [|by apply not_elem_of_nil in Hy]];
    apply (bool_decide_unpack _); vm_compute; reflexivity.
Defined.

Lemma for_each_ext_in {A} (xs : list A) (b1 b2 : A → M unit) :
  (∀ x w, x ∈ xs → b1 x w = b2 x w) → ∀ w, for_each xs b1 w = for_each xs b2 w.
Proof.
  induction xs as [|x xs IH]; intros H w; [done|].
  rewrite !for_each_cons, H by left.
  destruct (b2 x w); [|done]. apply IH. intros y w' Hy. apply H. by right.
Qed.

(** X16.  The unzip flag makes no difference unless 2022 or 2023 is
    requested. *)
Theorem unzip_flag_only_matters_for_fixup_years years w :
  (∀ y, y ∈ years → y ∉ REMOVE_FOLDER) →
  download_data years true w = download_data years false w.
Proof.
  intros H. rewrite !download_data_eq. apply for_each_ext_in.
  intros [y rid] w1 Hit. apply list_elem_of_filter in Hit as [Hy _].
  simpl in Hy. specialize (H y Hy).
  rewrite !download_year_eq. cbn zeta. simpl fst. simpl snd.
  destruct (remote w1 _) as [|st b]; [done|].
  rewrite !bind_eq. destruct (ZipFile_bytes b _) as [z w2|]; [|done].
  rewrite !bind_eq. destruct (extractall z _ w2) as [[] w3|]; [|done].
  change (negb true) with false. change (negb false) with true. cbv iota.
  rewrite (bool_decide_eq_false_2 (y ∈ REMOVE_FOLDER)) by done.
  rewrite (bool_decide_eq_false_2 (y = BAD_YEAR)).
  - done.
  - intros ->. apply H. by left.
Qed.

Lemma unzip_flag_only_matters_for_fixup_years_witness :
  download_data [2021; 2024] true w_not_found =
  download_data [2021; 2024] false w_not_found.
Proof.
  apply unzip_flag_only_matters_for_fixup_years. intros y Hy.
  apply elem_of_cons in Hy as [->|Hy];
    [|apply elem_of_cons in Hy as [->|Hy]; [|by apply not_elem_of_nil in Hy]];
    apply (bool_decide_unpack _); vm_compute; reflexivity.
Defined.

(** X17.  After the top-level extraction every file member of the
    archive is in [data/] at its sanitised name, holding the data of a
    file member of that name. *)
Theorem download_extracts_file_members year rid w w' st ms :
  wf (fs w) →
  remote w (archive_url year rid) = Response st (Zip ms) →
  download_year false (year, rid) w = Ok tt w' →
  ∀ name c, (name, c) ∈ ms → is_dir_member name = false →
    ∃ name' c', (name', c') ∈ ms ∧ is_dir_member name' = false ∧
                arcname name' = arcname name ∧
                fs w' !! (Path "data" ++ arcname name) = Some (F c').
Proof.
  intros Hwf Hr Hd name c Hin Hfile.
  rewrite download_year_eq in Hd. cbn zeta in Hd. simpl fst in Hd. simpl snd in Hd.
  rewrite Hr in Hd. rewrite bind_eq in Hd. cbn [ZipFile_bytes ret] in Hd.
  rewrite bind_eq in Hd.
  set (w1 := emit _ _) in Hd.
  pose proof (extractall_eq ms (Path "data") w1) as He.
  destruct (extractall_fs ms (Path "data") (fs w1)) as [e|f1] eqn:Hx.
  - destruct He as [w2 He]. by rewrite He in Hd.
  - rewrite He in Hd. injection Hd as <-.
    by apply (extractall_fs_members ms (Path "data") (fs w1) f1 name c).
Qed.

Lemma download_extracts_file_members_witness :
  ∃ name' c', (name', c') ∈ members_2022 ∧ is_dir_member name' = false ∧
              arcname name' =
                arcname "bikeshare-ridership-2022/Bike share ridership 2022-01.csv" ∧
              fs (after (download_year false (2022, rid_2022)) w_2022)
                !! (Path "data" ++
                    arcname "bikeshare-ridership-2022/Bike share ridership 2022-01.csv")
              = Some (F c').
Proof.
  apply (download_extracts_file_members 2022 rid_2022 w_2022 _ 200 members_2022)
    with (c := csv_a).
  - apply data_only_wf.
  - reflexivity.
  - apply returns_after. vm_compute. reflexivity.
  - unfold members_2022. right. left.
  - reflexivity.
Defined.

(** ** [download_data] stays inside [data/] *)

Global Instance confined_refl : Reflexive confined.
Proof. by intros f. Qed.

Lemma not_in_data_nil : ¬ in_data [].
Proof. intros [r Hr]. discriminate Hr. Qed.

Global Instance confined_trans : Transitive confined.
Proof.
  intros f1 f2 f3 [H1 H1'] [H2 H2']. split; [|auto].
  intros Hroot p Hp. rewrite H2, H1; try done.
  rewrite H1; [done..|apply not_in_data_nil].
Qed.

Global Instance confined_step_refl : Reflexive confined_step.
Proof. by intros w. Qed.

Global Instance confined_step_trans : Transitive confined_step.
Proof.
  intros w1 w2 w3 [H1 H1'] [H2 H2']. split; [by etrans|congruence].
Qed.

Lemma in_data_inside p : in_data p ↔ p = Path "data" ∨ inside (Path "data") p.
Proof.
  split.
  - intros [[|x r] ->]; [left; by rewrite app_nil_r|right; by exists x, r].
  - intros [->|(x & r & ->)]; [by exists []|by exists (x :: r)].
Qed.

Lemma in_data_app p r : in_data p → in_data (p ++ r).
Proof. intros [s ->]. exists (s ++ r). by rewrite app_assoc. Qed.

Lemma prefix_in_data p q : p `prefix_of` q → in_data q → p = [] ∨ in_data p.
Proof.
  intros [k ->] [r Hr]. destruct p as [|x p]; [by left|right].
  rewrite Path_data in *. simpl in Hr. injection Hr as -> _. by exists p.
Qed.

Lemma extract_member_confined dest m f f' :
  in_data dest → extract_member_fs dest m f = inr f' → confined f f'.
Proof.
  intros Hdest Hx. split; [|intros Hwf; by apply (extract_member_spec dest m f f')].
  intros Hroot p Hp. revert Hx. unfold extract_member_fs, makedirs.
  set (target := dest ++ arcname m.1).
  assert (in_data target) as Ht by by apply in_data_app.
  assert (target ≠ p) as Hne by (by intros <-).
  destruct (makedirs_from _ _ f) as [e|f1] eqn:E; [done|].
  assert (f1 !! p = f !! p) as <-.
  { apply (makedirs_from_other _ _ _ _ _ E).
    destruct (decide (p = [])) as [->|Hnil]; [left; eauto|right].
    intros Hpre. simpl in Hpre.
    destruct (prefix_in_data p target) as [?|?]; try done.
    etrans; [exact Hpre|apply parent_prefix]. }
  destruct (is_dir_member m.1).
  - unfold mkdir_if_absent. destruct (f1 !! target) as [[c|]|]; try done;
      intros [= <-]; [done|by rewrite lookup_insert_ne].
  - unfold write_file. destruct (f1 !! parent target) as [[c|]|]; try done.
    destruct (f1 !! target) as [[c|]|]; try done;
      intros [= <-]; by rewrite lookup_insert_ne.
Qed.

Lemma unlink_confined p f f' :
  in_data p → unlink_fs p f = inr f' → confined f f'.
Proof.
  intros Hp. unfold unlink_fs. destruct (f !! p) as [[c|]|] eqn:E; try done.
  intros [= <-]. split.
  - intros _ q Hq. apply lookup_delete_ne. by intros <-.
  - intros Hwf. by apply (wf_delete_file f p c).
Qed.

Lemma wf_delete_empty_dir f p :
  wf f → listdir f p = [] → wf (delete p f).
Proof.
  intros Hwf Hl q n Hq. unfold is_dir in *.
  destruct (decide (p = q)) as [<-|Hne]; [by rewrite lookup_delete_eq in Hq|].
  rewrite lookup_delete_ne in Hq by done.
  destruct (Hwf q n Hq) as [->|Hd]; [by left|right]. unfold is_dir in Hd.
  rewrite lookup_delete_ne; [done|]. intros Hpq.
  destruct (decide (q = [])) as [->|Hnil].
  { simpl in Hpq. subst p. by destruct Hne. }
  destruct (exists_last Hnil) as (q' & x & ->).
  rewrite parent_snoc in Hpq. subst q'.
  apply listdir_nil with (x := x) in Hl. congruence.
Qed.

Lemma rmdir_confined p f f' :
  in_data p → rmdir_fs p f = inr f' → confined f f'.
Proof.
  intros Hp. unfold rmdir_fs. destruct (f !! p) as [[c|]|] eqn:E; try done.
  destruct (listdir f p) eqn:El; [|done].
  intros [= <-]. split.
  - intros _ q Hq. apply lookup_delete_ne. by intros <-.
  - intros Hwf. by apply wf_delete_empty_dir.
Qed.

Lemma rename_file_confined src dst f f1 :
  in_data src → in_data dst → f !! src ≠ Some D →
  rename_fs src dst f = inr f1 →
  confined f f1 ∧ ∀ p, f1 !! p = Some D → f !! p = Some D.
Proof.
  intros Hs Hd Hsrc. unfold rename_fs.
  destruct (f !! src) as [[c|]|] eqn:Es; try done.
  destruct (f !! parent dst) as [[c'|]|] eqn:Ep; try done.
  assert (parent dst ≠ src) as Hps by congruence.
  assert (f !! dst ≠ Some D →
          confined f (<[dst := F c]> (delete src f)) ∧
          ∀ p, <[dst := F c]> (delete src f) !! p = Some D → f !! p = Some D)
    as Hgo.
  { intros Hnd. split; [split|].
    - intros _ q Hq. rewrite lookup_insert_ne by (by intros <-).
      apply lookup_delete_ne. by intros <-.
    - intros Hwf. apply wf_insert_file.
      + by apply (wf_delete_file f src c).
      + destruct (decide (src = dst)) as [<-|Hne];
          [by rewrite lookup_delete_eq|by rewrite lookup_delete_ne].
      + unfold is_dir. by rewrite lookup_delete_ne.
    - intros p. destruct (decide (dst = p)) as [<-|Hne];
        [by rewrite lookup_insert_eq|].
      rewrite lookup_insert_ne by done.
      destruct (decide (src = p)) as [<-|Hne'];
        [by rewrite lookup_delete_eq|by rewrite lookup_delete_ne]. }
  destruct (f !! dst) as [[c0|]|] eqn:Ed; try done; intros [= <-]; by apply Hgo.
Qed.

Lemma lift_fs_confined op :
  (∀ f f', op f = inr f' → confined f f') → keeps confined_step (lift_fs op).
Proof.
  intros Hop w. unfold lift_fs. destruct (op (fs w)) as [e|f'] eqn:E; [done|].
  split; [by apply Hop|done].
Qed.

Lemma extractall_confined ms dest :
  in_data dest → keeps confined_step (extractall ms dest).
Proof.
  intros Hd. apply keeps_for_each; [apply _..|]. intros m.
  apply lift_fs_confined. intros f f'. by apply extract_member_confined.
Qed.

Lemma in_data_jank : in_data (Path jank_file).
Proof. by exists ["bikeshare-ridership-2022"; "Bike share ridership 2022-11.zip"]%string. Qed.

Lemma unpack_nested_confined : keeps confined_step unpack_nested.
Proof.
  apply keeps_bind; [apply _..| |].
  - intros w. unfold ZipFile_open. destruct (fs w !! _) as [[c|]|]; try done.
    by destruct c.
  - intros z. apply keeps_bind; [apply _..| |intros _].
    + apply extractall_confined. by exists ["bikeshare-ridership-2022"%string].
    + apply lift_fs_confined. intros f f'. apply unlink_confined, in_data_jank.
Qed.

Lemma rename_files_confined top xs : ∀ w,
  in_data top →
  (∀ x, x ∈ xs → fs w !! (top ++ [x]) ≠ Some D) →
  confined_step w
    (out (for_each xs (λ file, rename (top ++ [file]) (Path "data" ++ [file])) w)).
Proof.
  induction xs as [|x xs IH]; intros w Ht Hx; [done|].
  rewrite for_each_cons. unfold rename at 1, lift_fs.
  destruct (rename_fs _ _ (fs w)) as [e|f1] eqn:E; [done|].
  apply rename_file_confined in E as [Hc Hd];
    [|by apply in_data_app|by exists [x]|apply Hx; left].
  etrans; [|apply IH; [done|]].
  - split; [exact Hc|done].
  - intros y Hy Hy'. apply Hd in Hy'. by apply (Hx y); [right|].
Qed.

Lemma not_dir_of_nondirs f top x : x ∈ nondirs f top → f !! (top ++ [x]) ≠ Some D.
Proof. intros [c Hc]%elem_of_nondirs. congruence. Qed.

Lemma flatten_confined top :
  in_data top → keeps confined_step (os_walk top flatten_dir).
Proof.
  intros Ht. apply (keeps_os_walk _ in_data); [|clear top Ht|done].
  { intros p x Hp. by apply in_data_app. }
  intros top w Ht. unfold flatten_dir. rewrite bind_eq.
  pose proof (rename_files_confined top (nondirs (fs w) top) w Ht
                (not_dir_of_nondirs _ _)) as Hr.
  destruct (for_each _ _ w) as [[] w1|e w1]; [|done].
  etrans; [exact Hr|]. apply lift_fs_confined. intros f f'. by apply rmdir_confined.
Qed.

Lemma parent_in_data p : in_data p → parent p = [] ∨ in_data (parent p).
Proof.
  intros [r ->]. destruct (decide (r = [])) as [->|Hne]; [by left|right].
  destruct (exists_last Hne) as (r' & x & ->).
  rewrite app_assoc, parent_snoc. by exists r'.
Qed.

Lemma prune_confined n : ∀ head f,
  head = [] ∨ in_data head → confined f (Legacy.prune n head f).
Proof.
  induction n as [|n IH]; intros head f Hh; [done|].
  destruct head as [|x head]; [done|]. cbn [Legacy.prune].
  destruct Hh as [|Hh]; [done|].
  destruct (rmdir_fs (x :: head) f) as [e|f'] eqn:E; [done|].
  etrans; [by apply (rmdir_confined (x :: head))|].
  apply IH. by apply parent_in_data.
Qed.

Lemma legacy_flatten_confined top :
  in_data top → keeps confined_step (os_walk top Legacy.flatten_dir).
Proof.
  intros Ht. apply (keeps_os_walk _ in_data); [|clear top Ht|done].
  { intros p x Hp. by apply in_data_app. }
  intros top w Ht. unfold Legacy.flatten_dir. rewrite bind_eq.
  pose proof (rename_files_confined top (nondirs (fs w) top) w Ht
                (not_dir_of_nondirs _ _)) as Hr.
  destruct (for_each _ _ w) as [[] w1|e w1]; [|done].
  etrans; [exact Hr|]. apply lift_fs_confined. intros f f'.
  unfold Legacy.removedirs_fs.
  destruct (rmdir_fs top f) as [e|f1] eqn:E; [done|]. intros [= <-].
  etrans; [by apply (rmdir_confined top)|].
  apply prune_confined. by apply parent_in_data.
Qed.

Lemma in_data_year_folder year :
  year ∈ REMOVE_FOLDER → in_data (Path (year_folder year)).
Proof.
  intros Hy. apply elem_of_cons in Hy as [->|Hy];
    [|apply elem_of_cons in Hy as [->|Hy]; [|by apply not_elem_of_nil in Hy]].
  - rewrite Path_folder_2022. by eexists.
  - rewrite Path_folder_2023. by eexists.
Qed.

Lemma in_data_data : in_data (Path "data").
Proof. by exists []. Qed.

Lemma emit_confined e w : confined_step w (emit e w).
Proof. done. Qed.

Lemma requests_get_confined url n : keeps confined_step (requests_get url n).
Proof. intros w. unfold requests_get. by destruct (remote w url). Qed.

Lemma ZipFile_bytes_confined c : keeps confined_step (ZipFile_bytes c).
Proof. intros w. by destruct c. Qed.

Lemma download_year_confined unzip item :
  keeps confined_step (download_year unzip item).
Proof.
  unfold download_year. cbn zeta.
  apply keeps_bind; [apply _..| |intros _].
  { intros w. rewrite log_eq. apply emit_confined. }
  apply keeps_bind; [apply _..|apply requests_get_confined|intros r].
  apply keeps_bind; [apply _..|apply ZipFile_bytes_confined|intros z].
  apply keeps_bind; [apply _..|apply extractall_confined, in_data_data|intros _].
  destruct (negb unzip); [apply (keeps_ret _ tt)|].
  apply keeps_bind; [apply _..| |intros _].
  - case_bool_decide; [apply unpack_nested_confined|apply (keeps_ret _ tt)].
  - case_bool_decide; [|apply (keeps_ret _ tt)].
    by apply flatten_confined, in_data_year_folder.
Qed.

Lemma legacy_download_year_confined unzip item :
  keeps confined_step (Legacy.download_year unzip item).
Proof.
  unfold Legacy.download_year. cbn zeta.
  apply keeps_bind; [apply _..|apply requests_get_confined|intros r].
  apply keeps_bind; [apply _..|apply ZipFile_bytes_confined|intros z].
  apply keeps_bind; [apply _..|apply extractall_confined, in_data_data|intros _].
  destruct (negb unzip); [apply (keeps_ret _ tt)|].
  apply keeps_bind; [apply _..| |intros _].
  - case_bool_decide; [apply unpack_nested_confined|apply (keeps_ret _ tt)].
  - case_bool_decide; [|apply (keeps_ret _ tt)].
    by apply legacy_flatten_confined, in_data_year_folder.
Qed.

Lemma download_data_confined years unzip :
  keeps confined_step (download_data years unzip).
Proof.
  apply keeps_bind; [apply _..| |intros _].
  { intros w. rewrite log_eq. apply emit_confined. }
  apply keeps_for_each; [apply _..|]. intros it. apply download_year_confined.
Qed.

(** X18.  Neither copy of [download_data] reaches outside [data/]:
    whatever the portal sends and whether the run returns or raises, every
    other path of an existing working directory is as it was, and a
    well-formed file system stays well-formed. *)
Theorem download_confined_to_data years unzip w :
  let w1 := after (download_data years unzip) w in
  let w2 := after (Legacy.download_data years unzip) w in
  (fs w !! [] = Some D →
   ∀ p, p ≠ Path "data" → ¬ inside (Path "data") p →
        fs w1 !! p = fs w !! p ∧ fs w2 !! p = fs w !! p) ∧
  (wf (fs w) → wf (fs w1) ∧ wf (fs w2)).
Proof.
  intros w1 w2.
  destruct (download_data_confined years unzip w) as [[H1 H1'] H1''].
  assert (keeps confined_step (Legacy.download_data years unzip)) as Hl.
  { apply keeps_for_each; [apply _..|]. intros it.
    apply legacy_download_year_confined. }
  destruct (Hl w) as [[H2 H2'] H2''].
  split; [|by auto].
  intros Hroot p Hp Hin.
  assert (¬ in_data p) as Hout by (rewrite in_data_inside; tauto).
  split; [by apply H1|by apply H2].
Qed.

(** ** The two flattening loops *)

Lemma rename_file_dirs src dst f f1 :
  f !! src ≠ Some D → rename_fs src dst f = inr f1 →
  ∀ p, f1 !! p = Some D ↔ f !! p = Some D.
Proof.
  intros Hsrc. unfold rename_fs.
  destruct (f !! src) as [[c|]|] eqn:Es; try done.
  destruct (f !! parent dst) as [[c'|]|] eqn:Ep; try done.
  assert (f !! dst ≠ Some D → ∀ p,
          <[dst := F c]> (delete src f) !! p = Some D ↔ f !! p = Some D) as Hgo.
  { intros Hnd p. destruct (decide (dst = p)) as [<-|Hne].
    - rewrite lookup_insert_eq. split; [done|]. intros Hp. by destruct Hnd.
    - rewrite lookup_insert_ne by done.
      destruct (decide (src = p)) as [<-|Hne'].
      + rewrite lookup_delete_eq, Es. split; done.
      + by rewrite lookup_delete_ne. }
  destruct (f !! dst) as [[c0|]|] eqn:Ed; try done; intros [= <-]; by apply Hgo.
Qed.

Lemma rename_files_dirs top xs : ∀ w,
  (∀ x, x ∈ xs → fs w !! (top ++ [x]) ≠ Some D) →
  ∀ p, fs (out (for_each xs (λ file, rename (top ++ [file]) (Path "data" ++ [file])) w))
         !! p = Some D ↔ fs w !! p = Some D.
Proof.
  induction xs as [|x xs IH]; intros w Hx p; [done|].
  rewrite for_each_cons. unfold rename at 1, lift_fs.
  destruct (rename_fs _ _ (fs w)) as [e|f1] eqn:E; [done|].
  assert (fs w !! (top ++ [x]) ≠ Some D) as Hsrc by (apply Hx; left).
  pose proof (rename_file_dirs _ _ _ _ Hsrc E) as Hd.
  rewrite IH; [apply Hd|].
  intros y Hy Hy'. simpl in Hy'. apply Hd in Hy'. by apply (Hx y); [right|].
Qed.

Lemma set_fs_set_fs f f' w : set_fs f (set_fs f' w) = set_fs f w.
Proof. done. Qed.

(** X21.  The flattening loops of the two copies, on a year folder of a
    well-formed file system: they raise together, in the same world; when
    they return, the earlier copy differs only in having removed [data/]
    as well if the loop left it empty. *)
Theorem legacy_flatten_differs_only_at_data folder w :
  let top := Path "data" ++ [folder] in
  wf (fs w) →
  fs w !! top = Some D →
  match os_walk top flatten_dir w with
  | Raise e w' => os_walk top Legacy.flatten_dir w = Raise e w'
  | Ok _ w' =>
      os_walk top Legacy.flatten_dir w =
        Ok tt (set_fs (drop_data_if_empty (fs w')) w')
  end.
Proof.
  intros top Hwf Htop. unfold os_walk, depth_bound. cbn [walk]. rewrite Htop.
  rewrite !bind_eq. unfold flatten_dir, Legacy.flatten_dir. rewrite !bind_eq.
  set (loop := for_each (nondirs (fs w) top) _).
  pose proof (rename_files_dirs top (nondirs (fs w) top) w
                (not_dir_of_nondirs _ _)) as Hdirs.
  fold loop in Hdirs.
  destruct (loop w) as [[] w1|e w1] eqn:Hloop; [|done]. simpl in Hdirs.
  unfold rmdir, Legacy.removedirs, lift_fs, Legacy.removedirs_fs.
  destruct (rmdir_fs top (fs w1)) as [e|f'] eqn:Er; [done|].
  assert (subdirs (fs w) top = []) as ->.
  { destruct (subdirs (fs w) top) as [|d ds] eqn:Es; [done|exfalso].
    assert (d ∈ subdirs (fs w) top) as Hd by (rewrite Es; left).
    apply elem_of_subdirs, Hdirs in Hd.
    revert Er. unfold rmdir_fs.
    destruct (fs w1 !! top) as [[c|]|]; try done.
    destruct (listdir (fs w1) top) eqn:El; [|done].
    apply listdir_nil with (x := d) in El. congruence. }
  rewrite !for_each_nil. rewrite set_fs_set_fs. do 2 f_equal.
  assert (f' = delete top (fs w1)) as ->.
  { revert Er. unfold rmdir_fs. destruct (fs w1 !! top) as [[c|]|]; try done.
    destruct (listdir (fs w1) top); [|done]. by intros [= <-]. }
  assert (length top = 2%nat) as ->
    by (unfold top; rewrite length_app, Path_data; done).
  assert (parent top = Path "data") as -> by apply parent_snoc.
  cbn [set_fs fs]. unfold drop_data_if_empty.
  assert (delete top (fs w1) !! Path "data" = Some D) as Hdata.
  { rewrite lookup_delete_ne; [|apply neq_by_length; unfold top;
      rewrite length_app, Path_data; simpl; lia].
    apply Hdirs. apply (wf_parent _ _ folder Hwf).
    change (is_Some (fs w !! top)). rewrite Htop. eauto. }
  rewrite Path_data in *. cbn [Legacy.prune].
  rewrite (rmdir_fs_eq _ _ Hdata).
  by destruct (listdir (delete top (fs w1)) ["data"%string]).
Qed.

Lemma w_flat_folder_wf : wf (fs w_flat_folder).
Proof. apply (bool_decide_unpack _). vm_compute. reflexivity. Qed.

Lemma w_deep_folder_wf : wf (fs w_deep_folder).
Proof. apply (bool_decide_unpack _). vm_compute. reflexivity. Qed.

Lemma legacy_flatten_differs_only_at_data_witness :
  match os_walk (Path "data" ++ ["bikeshare-ridership-2023"%string])
          flatten_dir w_flat_folder with
  | Raise e w' =>
      os_walk (Path "data" ++ ["bikeshare-ridership-2023"%string])
        Legacy.flatten_dir w_flat_folder = Raise e w'
  | Ok _ w' =>
      os_walk (Path "data" ++ ["bikeshare-ridership-2023"%string])
        Legacy.flatten_dir w_flat_folder =
        Ok tt (set_fs (drop_data_if_empty (fs w')) w')
  end.
Proof.
  apply (legacy_flatten_differs_only_at_data "bikeshare-ridership-2023" w_flat_folder).
  - apply w_flat_folder_wf.
  - reflexivity.
Defined.

(** With nothing else in [data/], an empty year folder takes [data/] with
    it in the earlier copy, and only there. *)
Example legacy_removes_emptied_data :
  let w := set_fs (<[ ["data"; "bikeshare-ridership-2023"]%string := D ]> data_only)
             w_flat_folder in
  let top := Path "data" ++ ["bikeshare-ridership-2023"%string] in
  fs (after (os_walk top flatten_dir) w) !! Path "data" = Some D ∧
  fs (after (os_walk top Legacy.flatten_dir) w) !! Path "data" = None.
Proof. vm_compute. done. Qed.

Lemma flatten_flat_folder_witness :
  ∃ w', os_walk (Path "data" ++ ["bikeshare-ridership-2023"%string])
          flatten_dir w_flat_folder = Ok tt w' ∧
        (∀ x c, fs w_flat_folder
                  !! ((Path "data" ++ ["bikeshare-ridership-2023"%string]) ++ [x])
                = Some (F c) →
                fs w' !! (Path "data" ++ [x]) = Some (F c)) ∧
        (∀ p, p = Path "data" ++ ["bikeshare-ridership-2023"%string] ∨
              inside (Path "data" ++ ["bikeshare-ridership-2023"%string]) p →
              fs w' !! p = None).
Proof.
  apply (flatten_flat_folder "bikeshare-ridership-2023" w_flat_folder).
  - apply w_flat_folder_wf.
  - reflexivity.
  - vm_compute. reflexivity.
  - intros x Hx.
    assert (nondirs (fs w_flat_folder)
              (Path "data" ++ ["bikeshare-ridership-2023"%string]) =
            ["Bike share ridership 2023-01.csv"%string]) as Hn
      by (vm_compute; reflexivity).
    rewrite Hn in Hx. apply list_elem_of_singleton in Hx as ->.
    vm_compute. discriminate.
Defined.

(** While the files of a folder are moved, the only error is a directory
    of [data/] in the way. *)
Lemma rename_loop_exn top xs : ∀ w e w',
  length top = 2%nat →
  NoDup xs →
  (∀ x, x ∈ xs → ∃ c, fs w !! (top ++ [x]) = Some (F c)) →
  fs w !! Path "data" = Some D →
  for_each xs (λ file, rename (top ++ [file]) (Path "data" ++ [file])) w = Raise e w' →
  e = IsADirectoryError.
Proof.
  induction xs as [|x xs IH]; intros w e w' Hlen Hnd Hfiles Hdata; [done|].
  apply NoDup_cons in Hnd as [Hx Hnd]. rewrite for_each_cons.
  destruct (Hfiles x) as [c Hc]; [left|].
  unfold rename at 1, lift_fs.
  rewrite (rename_file_eq _ _ _ c Hc) by (by rewrite parent_snoc).
  destruct (decide (is_dir (fs w) (Path "data" ++ [x]))) as [Hdir|Hdir].
  { by intros [= <- _]. }
  apply IH; [done|done| |].
  - intros y Hy. cbn [fs set_fs].
    rewrite lookup_insert_ne
      by (apply neq_by_length; rewrite !length_app, Hlen; simpl; lia).
    rewrite lookup_delete_ne; [apply Hfiles; by right|].
    intros E%app_inv_head. injection E as ->. done.
  - cbn [fs set_fs]. rewrite lookup_insert_ne
      by (apply neq_by_length; rewrite !length_app; simpl; lia).
    rewrite lookup_delete_ne; [done|].
    apply neq_by_length. rewrite !length_app, Hlen. simpl. lia.
Qed.

(** X20.  A year folder that holds a directory always makes the flattening
    loop raise, in one of two ways: at a rename, when one of the folder's
    files is named like a directory of [data/]; otherwise when the folder
    is removed, with all of its own files moved to [data/] and everything
    else as it was. *)
Theorem flatten_raises_on_subdirectory folder w :
  let top := Path "data" ++ [folder] in
  wf (fs w) →
  fs w !! top = Some D →
  subdirs (fs w) top ≠ [] →
  ∃ e w', os_walk top flatten_dir w = Raise e w' ∧
    ((e = IsADirectoryError ∧
      ∃ x, x ∈ nondirs (fs w) top ∧ fs w !! (Path "data" ++ [x]) = Some D) ∨
     (e = DirectoryNotEmpty ∧
      (∀ x, x ∈ nondirs (fs w) top → fs w !! (Path "data" ++ [x]) ≠ Some D) ∧
      moved top (nondirs (fs w) top) (fs w) (fs w'))).
Proof.
  intros top Hwf Htop Hsub. unfold os_walk, depth_bound. cbn [walk].
  rewrite Htop, bind_eq. unfold flatten_dir at 1. rewrite bind_eq.
  assert (fs w !! Path "data" = Some D) as Hdata.
  { apply (wf_parent _ _ folder Hwf). change (is_Some (fs w !! top)).
    rewrite Htop. eauto. }
  assert (length top = 2%nat) as Hlen
    by (unfold top; rewrite length_app, Path_data; done).
  pose proof (rename_loop top (nondirs (fs w) top) w Hlen
                (NoDup_nondirs _ _)
                (λ x Hx, proj1 (elem_of_nondirs _ _ _) Hx) Hdata) as Hloop.
  pose proof (rename_loop_exn top (nondirs (fs w) top) w) as Hexn.
  destruct (for_each (nondirs (fs w) top) _ w) as [[] w1|e w1] eqn:Hrun.
  - destruct Hloop as (Hdb & [Hm1 Hm2] & Hfree).
    assert (fs w1 !! top = Some D) as Htop1.
    { rewrite Hm2; [done|]. intros x Hx. split.
      - apply neq_by_length. rewrite length_app. simpl. lia.
      - intros E. apply (Hfree x Hx). by rewrite <- E. }
    unfold rmdir, lift_fs. rewrite (rmdir_fs_eq _ _ Htop1).
    destruct (listdir (fs w1) top) as [|[y m] l] eqn:Hls.
    + destruct (subdirs (fs w) top) as [|d ds] eqn:E; [done|exfalso].
      assert (d ∈ subdirs (fs w) top) as Hd by (rewrite E; left).
      apply elem_of_subdirs in Hd.
      assert (fs w1 !! (top ++ [d]) = fs w !! (top ++ [d])) as Hkeep.
      { apply Hm2. intros x [c Hc]%elem_of_nondirs. split.
        - intros E'%app_inv_head. injection E' as ->. congruence.
        - apply neq_by_length. rewrite !length_app, Hlen. simpl. lia. }
      rewrite <- Hkeep in Hd. rewrite (proj1 (listdir_nil _ _) Hls d) in Hd. done.
    + exists DirectoryNotEmpty, w1. split; [done|]. right. by split_and!.
  - exists e, w1. split; [done|]. left. split.
    + by apply (Hexn e w1 Hlen (NoDup_nondirs _ _)
                  (λ x Hx, proj1 (elem_of_nondirs _ _ _) Hx) Hdata).
    + exact Hloop.
Qed.

Lemma flatten_raises_on_subdirectory_witness :
  ∃ e w', os_walk (Path "data" ++ ["bikeshare-ridership-2023"%string])
            flatten_dir w_deep_folder = Raise e w' ∧
    ((e = IsADirectoryError ∧
      ∃ x, x ∈ nondirs (fs w_deep_folder)
                 (Path "data" ++ ["bikeshare-ridership-2023"%string]) ∧
           fs w_deep_folder !! (Path "data" ++ [x]) = Some D) ∨
     (e = DirectoryNotEmpty ∧
      (∀ x, x ∈ nondirs (fs w_deep_folder)
                  (Path "data" ++ ["bikeshare-ridership-2023"%string]) →
            fs w_deep_folder !! (Path "data" ++ [x]) ≠ Some D) ∧
      moved (Path "data" ++ ["bikeshare-ridership-2023"%string])
        (nondirs (fs w_deep_folder)
           (Path "data" ++ ["bikeshare-ridership-2023"%string]))
        (fs w_deep_folder) (fs w'))).
Proof.
  apply (flatten_raises_on_subdirectory "bikeshare-ridership-2023" w_deep_folder).
  - apply w_deep_folder_wf.
  - reflexivity.
  - vm_compute. discriminate.
Defined.

(** The two ways, on the sample folder: as it is, and with a directory of
    [data/] named like its file. *)
Example flatten_raises_both_ways :
  raised (os_walk (Path "data" ++ ["bikeshare-ridership-2023"%string])
            flatten_dir w_deep_folder) = Some DirectoryNotEmpty ∧
  raised (os_walk (Path "data" ++ ["bikeshare-ridership-2023"%string])
            flatten_dir
            (set_fs (<[ ["data"; "Bike share ridership 2023-01.csv"]%string := D ]>
                       (fs w_deep_folder)) w_deep_folder))
    = Some IsADirectoryError.
Proof. vm_compute. done. Qed.

(** ** The stages in sequence *)

Lemma export_not_csv : ¬ is_csv (Path "./data/tbs.parquet").
Proof. vm_compute. discriminate. Qed.

Lemma in_data_export : in_data (Path "./data/tbs.parquet").
Proof. by exists ["tbs.parquet"%string]. Qed.

Lemma cleaned_outside f f' p :
  cleaned (inside (Path "data")) f f' → ¬ in_data p → f' !! p = f !! p.
Proof.
  intros [H1 _] Hp. destruct (H1 p) as [?|(_ & c & _ & _ & Hin)]; [done|].
  destruct Hp. apply in_data_inside. by right.
Qed.

(** X22.  The stages in sequence, when they all return: no CSV file is
    left inside [data/], the export holds the final table sorted by trip
    identifier, the table still starts with the rows it had, and nothing
    outside [data/] has changed. *)
Theorem pipeline_result w w' :
  wf (fs w) →
  main w = Ok tt w' →
  (∀ p c, fs w' !! p = Some (F c) → inside (Path "data") p → ¬ is_csv p) ∧
  (∃ rows, fs w' !! Path "./data/tbs.parquet" = Some (F (Parquet "zstd" 3 rows)) ∧
           rows ≡ₚ table_rows w' ∧ StronglySorted row_le rows) ∧
  table_rows w `prefix_of` table_rows w' ∧
  (fs w !! [] = Some D →
   ∀ p, p ≠ Path "data" → ¬ inside (Path "data") p → fs w' !! p = fs w !! p).
Proof.
  intros Hwf Hm. unfold main in Hm.
  apply bind_Ok in Hm as ([] & w1 & Hd & Hm).
  apply bind_Ok in Hm as ([] & w2 & Hl & Hm).
  apply bind_Ok in Hm as ([] & w3 & Hr & Hm).
  apply bind_Ok in Hm as ([] & w4 & He & Hm).
  rewrite log_eq in Hm. injection Hm as <-.
  destruct (download_data_confined YEAR_MAP.*1 true w) as [[Hout1 Hwf1] Hdb1].
  rewrite Hd in Hout1, Hwf1, Hdb1. simpl in Hout1, Hwf1, Hdb1.
  specialize (Hwf1 Hwf).
  pose proof (table_rows_after_load _ _ Hl) as Ht2.
  apply load_data_ok in Hl as (_ & Hfs2 & _).
  rewrite <- Hfs2 in Hwf1.
  destruct (remove_csv_cleaned w2 Hwf1) as (w3' & Hr' & Hdb3 & Hc).
  rewrite Hr in Hr'. injection Hr' as <-.
  rewrite export_as_parquet_eq in He. cbn zeta in He.
  destruct (tbs_trips (db w3)) as [tbl|] eqn:Htbl; [|done].
  assert (fs w4 = <[Path "./data/tbs.parquet" :=
                      F (Parquet "zstd" 3 (order_by_trip_id tbl))]> (fs w3) ∧
          db w4 = db w3) as [Hfs4 Hdb4].
  { destruct (fs w3 !! Path "data") as [[c|]|]; try done.
    by destruct (fs w3 !! Path "./data/tbs.parquet") as [[c|]|];
      try done; injection He as <-. }
  assert (table_rows w4 = tbl) as Ht4
    by (unfold table_rows; by rewrite Hdb4, Htbl).
  assert (table_rows w3 = table_rows w2) as Ht3
    by (unfold table_rows; by rewrite Hdb3).
  assert (table_rows w1 = table_rows w) as Ht1
    by (unfold table_rows; by rewrite Hdb1).
  assert (table_rows w3 = tbl) as Ht3' by (unfold table_rows; by rewrite Htbl).
  change (fs (emit _ w4)) with (fs w4).
  change (table_rows (emit _ w4)) with (table_rows w4).
  rewrite Hfs4, Ht4. split_and!.
  - intros p c Hp Hin Hcsv.
    destruct (decide (Path "./data/tbs.parquet" = p)) as [<-|Hne];
      [by apply export_not_csv|].
    rewrite lookup_insert_ne in Hp by done.
    destruct Hc as [Hc1 Hc2].
    destruct (Hc1 p) as [Hsame|[Hn _]]; [|congruence].
    rewrite Hp in Hsame. symmetry in Hsame.
    rewrite (Hc2 p c Hsame Hcsv Hin) in Hp. done.
  - exists (order_by_trip_id tbl). rewrite lookup_insert_eq.
    split_and!; [done|apply order_by_trip_id_perm|apply order_by_trip_id_sorted].
  - rewrite <- Ht3', Ht3, Ht2, Ht1. by apply prefix_app_r.
  - intros Hroot p Hp Hin.
    assert (¬ in_data p) as Hout by (rewrite in_data_inside; tauto).
    rewrite lookup_insert_ne by (intros <-; apply Hout, in_data_export).
    rewrite (cleaned_outside _ _ _ Hc Hout), Hfs2. by apply Hout1.
Qed.

Lemma pipeline_result_witness :
  (∀ p c, fs (after main w_portal) !! p = Some (F c) →
          inside (Path "data") p → ¬ is_csv p) ∧
  (∃ rows, fs (after main w_portal) !! Path "./data/tbs.parquet" =
             Some (F (Parquet "zstd" 3 rows)) ∧
           rows ≡ₚ table_rows (after main w_portal) ∧ StronglySorted row_le rows) ∧
  table_rows w_portal `prefix_of` table_rows (after main w_portal) ∧
  (fs w_portal !! [] = Some D →
   ∀ p, p ≠ Path "data" → ¬ inside (Path "data") p →
        fs (after main w_portal) !! p = fs w_portal !! p).
Proof.
  apply (pipeline_result w_portal).
  - apply (bool_decide_unpack _). vm_compute. reflexivity.
  - apply returns_after. vm_compute. reflexivity.
Defined.

(** The run on the sample portal: seven rows loaded (the identifier 1
    three times, from three files, and one row without identifier); only
    the working directory, [data/] and the export are left. *)
Example pipeline_on_sample_portal :
  let w' := after main w_portal in
  length (table_rows w') = 7%nat ∧
  length (with_id 1 (table_rows w')) = 3%nat ∧
  size (fs w') = 3%nat ∧
  is_Some (fs w' !! Path "./data/tbs.parquet").
Proof. vm_compute. split_and!; eauto. Qed.

(** X23.  A load that raises ends the run there: the clean-up and the
    export do not run, so the downloaded files are all still in place and
    the table holds what it held. *)
Theorem failed_load_stops_the_pipeline w w1 e w2 :
  download_data YEAR_MAP.*1 true w = Ok tt w1 →
  load_data w1 = Raise e w2 →
  main w = Raise e w2 ∧ fs w2 = fs w1 ∧ table_rows w2 = table_rows w1.
Proof.
  intros Hd Hl. split.
  - unfold main. by rewrite bind_eq, Hd, bind_eq, Hl.
  - destruct (load_data_cases w1) as (Heq & Hfs & _ & Ht & _).
    destruct (create_and_insert_out (after declare_types w1)) as (Hf & _ & _ & Hr).
    unfold after in *. rewrite <- Heq, Hl in Hf, Hr. simpl in Hf, Hr.
    split; [congruence|]. rewrite Hr by done.
    unfold table_rows. by rewrite Ht.
Qed.

Lemma raised_out (r : result unit) e : raised r = Some e → r = Raise e (out r).
Proof. destruct r as [a w|e' w]; [done|by intros [= ->]]. Qed.

Lemma failed_load_stops_the_pipeline_witness :
  main w_portal_half_declared =
    Raise CatalogException (after load_data
      (after (download_data YEAR_MAP.*1 true) w_portal_half_declared)) ∧
  fs (after load_data (after (download_data YEAR_MAP.*1 true) w_portal_half_declared)) =
    fs (after (download_data YEAR_MAP.*1 true) w_portal_half_declared) ∧
  table_rows (after load_data
      (after (download_data YEAR_MAP.*1 true) w_portal_half_declared)) =
    table_rows (after (download_data YEAR_MAP.*1 true) w_portal_half_declared).
Proof.
  apply (failed_load_stops_the_pipeline w_portal_half_declared).
  - apply returns_after. vm_compute. reflexivity.
  - apply raised_out. vm_compute. reflexivity.
Defined.
